(** * go_verify: tag-driven validation and transformation of Go structs

    A shallow embedding of the dispatch engine of the [goverify] package
    ([Validate], [Transform], the rule and transformer registries, the
    priority ordering of transforms and the error model), with the
    properties of its specification stated and proved over it.

    Go values seen through [reflect] are modelled as a tree ([Value]); a
    struct is the list of its fields, each with the [reflect.StructField]
    metadata the engine reads (name, exportedness, the two tags).  In-place
    mutation is modelled by returning the updated tree.  Go strings are byte
    strings ([string]); the functions of Go's [strings] package are modelled
    on their ASCII fast paths, and the Unicode slow paths, which depend on
    the Unicode tables of the Go runtime, are parameters ([Unicode]).

    The rules of rules.go are embedded with the library functions they
    call: [strconv.Atoi], the UTF-8 decoding of a loop over a string, and
    the fixed patterns of [email], [ipv4], [iso_date] and [time] as
    regular expressions over bytes.  The expression of the [pattern] rule
    is compiled by a parameter. *)

From Stdlib Require Import ZArith Ascii String List Floats.SpecFloat.
From stdpp Require Import gmap strings list fin_maps pretty sorting.

Open Scope Z_scope.

(** ** Go's [strings] package *)

Module Strings.

Definition bytes (s : string) : list ascii := String.list_ascii_of_string s.
Definition str (l : list ascii) : string := String.string_of_list_ascii l.

(** [c >= utf8.RuneSelf] *)
Definition nonASCII (c : ascii) : bool := (128 <=? N_of_ascii c)%N.

Definition isASCII (s : string) : bool := forallb (λ c, negb (nonASCII c)) (bytes s).

(** The table [asciiSpace] of package [strings]: tab, newline, vertical
  tab, form feed, carriage return and space. *)
Definition asciiSpace (c : ascii) : bool :=
  let n := N_of_ascii c in
  ((9 <=? n) && (n <=? 13) || (n =? 32))%N.

(** The slow paths of package [strings], taken when a non-ASCII byte is
  met.  They rest on the Unicode tables of the Go runtime. *)
Class Unicode := {
  TrimFunc_IsSpace : string → string;
  TrimRightFunc_IsSpace : string → string;
  Map_ToLower : string → string;
  Map_ToUpper : string → string;
  FieldsFunc_IsSpace : string → list string
}.

(** The scan of [strings.TrimSpace] from one end: skip ASCII space, stop
  at the first other ASCII byte ([inl] the remaining bytes), give up at
  a non-ASCII byte ([inr] the remaining bytes). *)
Fixpoint trimScan (l : list ascii) : list ascii + list ascii :=
  match l with
  | [] => inl []
  | c :: l' =>
    if nonASCII c then inr l
    else if asciiSpace c then trimScan l'
    else inl l
  end.

Definition lowerByte (c : ascii) : ascii :=
  let n := N_of_ascii c in
  if ((65 <=? n) && (n <=? 90))%N then ascii_of_N (n + 32) else c.

Definition upperByte (c : ascii) : ascii :=
  let n := N_of_ascii c in
  if ((97 <=? n) && (n <=? 122))%N then ascii_of_N (n - 32) else c.

(** The ASCII loop of [strings.Fields]: [cur] is the field being read
  (reversed), if any. *)
Fixpoint fieldsASCII (cur : option (list ascii)) (l : list ascii) : list string :=
  match l with
  | [] => match cur with Some w => [str (rev w)] | None => [] end
  | c :: l' =>
    if asciiSpace c
    then match cur with
         | Some w => str (rev w) :: fieldsASCII None l'
         | None => fieldsASCII None l'
         end
    else fieldsASCII (Some (c :: default [] cur)) l'
  end.

(** [strings.ReplaceAll(s, old, "")] for a one-byte [old]. *)
Definition removeByte (old : ascii) (s : string) : string :=
  str (filter (λ c, c ≠ old) (bytes s)).

(** [strings.Split(s, sep)[0]] for a one-byte [sep]: the bytes before the
  first [sep], or all of [s]. *)
Fixpoint beforeByte (sep : ascii) (s : string) : string :=
  match s with
  | EmptyString => EmptyString
  | String c s' => if decide (c = sep) then EmptyString else String c (beforeByte sep s')
  end.

(** [strings.HasPrefix(s, prefix)] *)
Definition HasPrefix (s prefix : string) : bool := String.prefix prefix s.

(** [s[n:]] *)
Fixpoint dropBytes (n : nat) (s : string) : string :=
  match n, s with
  | S n', String _ s' => dropBytes n' s'
  | _, _ => s
  end.

(** [strings.TrimPrefix(s, prefix)] *)
Definition TrimPrefix (s prefix : string) : string :=
  if HasPrefix s prefix then dropBytes (String.length prefix) s else s.

(** [strings.Contains(s, substr)]: [substr] starts at some index of [s]. *)
Fixpoint Contains (s substr : string) : bool :=
  HasPrefix s substr
  || match s with
     | EmptyString => false
     | String _ s' => Contains s' substr
     end.

(** [strings.ContainsAny(s, chars)] for [chars] made of ASCII bytes: an
  ASCII byte is never part of the encoding of another code point, so it
  is a code point of [s] exactly when it is one of its bytes. *)
Definition ContainsAny (s chars : string) : bool :=
  existsb (λ c, bool_decide (c ∈ bytes chars)) (bytes s).

(** [strings.Split(s, sep)] for a one-byte [sep]: the pieces between the
  separators, at least one. *)
Fixpoint splitByte (sep : ascii) (s : string) : list string :=
  match s with
  | EmptyString => [EmptyString]
  | String c s' =>
      if decide (c = sep) then EmptyString :: splitByte sep s'
      else match splitByte sep s' with
           | piece :: pieces => String c piece :: pieces
           | [] => [String c EmptyString]
           end
  end.

(** [strings.Join(elems, sep)] *)
Fixpoint Join (elems : list string) (sep : string) : string :=
  match elems with
  | [] => EmptyString
  | [e] => e
  | e :: rest => e +:+ sep +:+ Join rest sep
  end.

Section WithUnicode.
Context `{Unicode}.

Definition TrimSpace (s : string) : string :=
  match trimScan (bytes s) with
  | inr rest => TrimFunc_IsSpace (str rest)
  | inl rest =>
      match trimScan (reverse rest) with
      | inr r => TrimRightFunc_IsSpace (str (reverse r))
      | inl r => str (reverse r)
      end
  end.

Definition ToLower (s : string) : string :=
  if isASCII s then str (map lowerByte (bytes s)) else Map_ToLower s.

Definition ToUpper (s : string) : string :=
  if isASCII s then str (map upperByte (bytes s)) else Map_ToUpper s.

Definition Fields (s : string) : list string :=
  if isASCII s then fieldsASCII None (bytes s) else FieldsFunc_IsSpace s.
End WithUnicode.

End Strings.

(** ** Go's [strconv] package *)

Module Strconv.

(** The value of a decimal digit. *)
Definition digit (c : ascii) : option Z :=
  let n := Z.of_N (N_of_ascii c) in
  if (48 <=? n) && (n <=? 57) then Some (n - 48) else None.

(** The number a run of decimal digits reads as, after [acc]. *)
Fixpoint digits (acc : Z) (l : list ascii) : option Z :=
  match l with
  | [] => Some acc
  | c :: l' =>
      match digit c with
      | Some d => digits (acc * 10 + d) l'
      | None => None
      end
  end.

(** The size of [int], on the 64-bit platforms. *)
Definition intSize : Z := 64.

(** [strconv.Atoi(s)]: an optional sign and at least one decimal digit,
  within the range of [int]; [None] is a non-nil error. *)
Definition Atoi (s : string) : option Z :=
  match Strings.bytes s with
  | [] => None
  | c :: rest =>
      let '(neg, ds) :=
        if decide (c = "-"%char) then (true, rest)
        else if decide (c = "+"%char) then (false, rest)
        else (false, c :: rest) in
      match ds with
      | [] => None
      | _ =>
          match digits 0 ds with
          | Some n =>
              let n := if neg : bool then - n else n in
              if (- 2 ^ (intSize - 1) <=? n) && (n <? 2 ^ (intSize - 1)) then Some n
              else None
          | None => None
          end
      end
  end.

End Strconv.

(** ** Go's [regexp] package, for the patterns of the rules *)

Module Regexp.

(** The expressions the rules' patterns are made of.  The patterns use
    classes of ASCII bytes only and stand between [^] and [$], so that a
    string matches exactly when its bytes, one for one, match the whole
    expression: a byte that is not ASCII is part of a code point that no
    class holds. *)
Inductive Re :=
| Class (ranges : list (ascii * ascii))
| Cat (r1 r2 : Re)
| Alt (r1 r2 : Re)
| Repeat (r : Re) (min : nat) (max : option nat).

(** A single byte, and [\d]. *)
Definition lit (c : ascii) : Re := Class [(c, c)].
Definition digit : Re := Class [("0", "9")]%char.

Definition inClass (ranges : list (ascii * ascii)) (c : ascii) : bool :=
  existsb (λ r : ascii * ascii,
             (N_of_ascii r.1 <=? N_of_ascii c)%N && (N_of_ascii c <=? N_of_ascii r.2)%N)
    ranges.

(** What may be left of [s] after a match of [r] at its start.  An
    expression repeated without an upper bound is tried at most [min] plus
    the length of [s] times: further rounds would match nothing new. *)
Fixpoint rests (r : Re) (s : list ascii) : list (list ascii) :=
  match r with
  | Class ranges =>
      match s with
      | c :: s' => if inClass ranges c then [s'] else []
      | [] => []
      end
  | Cat r1 r2 => flat_map (rests r2) (rests r1 s)
  | Alt r1 r2 => rests r1 s ++ rests r2 s
  | Repeat r lo hi =>
      (fix times (n lo : nat) (s : list ascii) {struct n} : list (list ascii) :=
         (if lo is 0%nat then [s] else [])
         ++ match n with
            | 0%nat => []
            | S n' => flat_map (times n' (pred lo)) (rests r s)
            end)
        (match hi with Some hi => hi | None => (lo + length s)%nat end) lo s
  end.

(** [regexp.MatchString("^r$", s)] *)
Definition MatchString (r : Re) (s : string) : bool :=
  existsb (λ rest, if rest is [] then true else false) (rests r (Strings.bytes s)).

End Regexp.

(** ** Go's [unicode/utf8] and [unicode] packages *)

Module Runes.

Definition RuneError : Z := 65533.

Definition byteVal (c : ascii) : Z := Z.of_N (N_of_ascii c).

(** [lo <= b && b <= hi] *)
Definition within (lo hi b : Z) : bool := (lo <=? b) && (b <=? hi).

(** [utf8.DecodeRuneInString]: the code point at the start of the bytes
    and its width; an encoding that is not valid gives [RuneError] and the
    width 1. *)
Definition decode (l : list ascii) : Z * nat :=
  match l with
  | [] => (RuneError, 0%nat)
  | c0 :: rest =>
      let s0 := byteVal c0 in
      if s0 <? 128 then (s0, 1%nat)
      else if (s0 <? 194) || (244 <? s0) then (RuneError, 1%nat)
      else
        let sz := if s0 <? 224 then 2 else if s0 <? 240 then 3 else 4 in
        let '(lo, hi) :=
          if s0 =? 224 then (160, 191)
          else if s0 =? 237 then (128, 159)
          else if s0 =? 240 then (144, 191)
          else if s0 =? 244 then (128, 143)
          else (128, 191) in
        match rest with
        | [] => (RuneError, 1%nat)
        | c1 :: rest1 =>
            let s1 := byteVal c1 in
            if (Z.of_nat (length l) <? sz) || negb (within lo hi s1) then (RuneError, 1%nat)
            else if sz <=? 2
            then (Z.lor (Z.shiftl (Z.land s0 31) 6) (Z.land s1 63), 2%nat)
            else
              match rest1 with
              | [] => (RuneError, 1%nat)
              | c2 :: rest2 =>
                  let s2 := byteVal c2 in
                  if negb (within 128 191 s2) then (RuneError, 1%nat)
                  else if sz <=? 3
                  then (Z.lor (Z.lor (Z.shiftl (Z.land s0 15) 12)
                                 (Z.shiftl (Z.land s1 63) 6)) (Z.land s2 63), 3%nat)
                  else
                    match rest2 with
                    | [] => (RuneError, 1%nat)
                    | c3 :: _ =>
                        let s3 := byteVal c3 in
                        if negb (within 128 191 s3) then (RuneError, 1%nat)
                        else (Z.lor (Z.lor (Z.lor (Z.shiftl (Z.land s0 7) 18)
                                              (Z.shiftl (Z.land s1 63) 12))
                                       (Z.shiftl (Z.land s2 63) 6)) (Z.land s3 63),
                              4%nat)
                    end
              end
        end
  end.

(** The code points [for _, char := range s] visits: the one decoded at
    each index the loop stops at; [skip] counts the bytes still to pass
    over, those of the code point decoded last. *)
Fixpoint range (skip : nat) (l : list ascii) : list Z :=
  match l with
  | [] => []
  | _ :: rest =>
      match skip with
      | S skip' => range skip' rest
      | 0%nat => let '(r, width) := decode l in r :: range (pred width) rest
      end
  end.

(** The tables of package [unicode], for the code points above ASCII. *)
Class Tables := {
  Letter : Z → bool;
  Number : Z → bool
}.

Section WithTables.
Context `{Tables}.

(** [unicode.IsLetter(r)]: in ASCII, the letters of the alphabet. *)
Definition IsLetter (r : Z) : bool :=
  if r <? 128 then within 65 90 r || within 97 122 r else Letter r.

(** [unicode.IsNumber(r)]: in ASCII, the decimal digits. *)
Definition IsNumber (r : Z) : bool :=
  if r <? 128 then within 48 57 r else Number r.

End WithTables.

End Runes.

(** ** The slow path of [strings.TrimSpace] *)

Module TrimFunc.
Import Runes.











End TrimFunc.



(** ** Go's [reflect] package, as far as the engine uses it *)

Inductive Kind :=
| Invalid | Bool
| Int | Int8 | Int16 | Int32 | Int64
| Uint | Uint8 | Uint16 | Uint32 | Uint64 | Uintptr
| Float32 | Float64 | Complex64 | Complex128
| Array | Chan | Func | Interface | Map | Pointer | Slice | String_ | Struct
| UnsafePointer.

#[global] Instance Kind_eq_dec : EqDecision Kind.
Proof. solve_decision. Defined.

Inductive IntKind := KInt | KInt8 | KInt16 | KInt32 | KInt64.
Inductive UintKind := KUint | KUint8 | KUint16 | KUint32 | KUint64 | KUintptr.
Inductive FloatKind := KFloat32 | KFloat64.
(** Kinds whose values the engine and its built-ins never look into. *)
Inductive OpaqueKind :=
| KComplex64 | KComplex128 | KChan | KFunc | KInterface | KMap | KUnsafePointer.

(** [reflect.StructField]: the name, the package path (empty exactly for an
    exported field), whether the field is embedded, and the struct tag as
    the map from key to value that [Tag.Get] reads. *)
Record StructField := {
  Name : string;
  PkgPath : string;
  Anonymous : bool;
  Tag : gmap string string
}.

Definition IsExported (f : StructField) : bool := bool_decide (PkgPath f = "").

(** [field.Tag.Get(key)]: the empty string when the key is absent. *)
Definition Tag_Get (f : StructField) (key : string) : string :=
  default "" (Tag f !! key).

#[local] Set Warnings "-register-all".

(** A Go value as [reflect] shows it.  A pointer is [None] when nil; a
    struct pairs every field's metadata with its value. *)
Inductive Value :=
| VBool (b : bool)
| VInt (k : IntKind) (i : Z)
| VUint (k : UintKind) (u : Z)
| VFloat (k : FloatKind) (f : spec_float)
| VString (s : string)
| VPointer (p : option Value)
| VStruct (fs : list (StructField * Value))
| VSlice (es : list Value)
| VArray (es : list Value)
| VOpaque (k : OpaqueKind).

Definition kindOf (v : Value) : Kind :=
  match v with
  | VBool _ => Bool
  | VInt k _ =>
      match k with
      | KInt => Int | KInt8 => Int8 | KInt16 => Int16 | KInt32 => Int32 | KInt64 => Int64
      end
  | VUint k _ =>
      match k with
      | KUint => Uint | KUint8 => Uint8 | KUint16 => Uint16 | KUint32 => Uint32
      | KUint64 => Uint64 | KUintptr => Uintptr
      end
  | VFloat k _ => match k with KFloat32 => Float32 | KFloat64 => Float64 end
  | VString _ => String_
  | VPointer _ => Pointer
  | VStruct _ => Struct
  | VSlice _ => Slice
  | VArray _ => Array
  | VOpaque k =>
      match k with
      | KComplex64 => Complex64 | KComplex128 => Complex128 | KChan => Chan
      | KFunc => Func | KInterface => Interface | KMap => Map
      | KUnsafePointer => UnsafePointer
      end
  end.

(** The permission bits of a [reflect.Value]: addressable, and read-only
    because reached through an unexported field (sticky) or through an
    unexported embedded field (cleared again by [Field]). *)
Record flag := {
  flagAddr : bool;
  flagStickyRO : bool;
  flagEmbedRO : bool
}.

(** [v.CanSet()]: [v.flag&(flagAddr|flagRO) == flagAddr]. *)
Definition CanSet (fl : flag) : bool :=
  flagAddr fl && negb (flagStickyRO fl || flagEmbedRO fl).

(** The flag of [v.Field(i)]: inherits [flagAddr] and [flagStickyRO], and an
    unexported field forces read-only. *)
Definition Field_flag (fl : flag) (f : StructField) : flag :=
  {| flagAddr := flagAddr fl;
     flagStickyRO := flagStickyRO fl || (negb (IsExported f) && negb (Anonymous f));
     flagEmbedRO := negb (IsExported f) && Anonymous f |}.

(** The flag of [v.Elem()] on a pointer: addressable, read-only bits kept. *)
Definition Elem_flag (fl : flag) : flag :=
  {| flagAddr := true; flagStickyRO := flagStickyRO fl; flagEmbedRO := flagEmbedRO fl |}.

(** The flag of [v.Index(j)] on a slice: addressable, read-only made sticky. *)
Definition Index_flag (fl : flag) : flag :=
  {| flagAddr := true; flagStickyRO := flagStickyRO fl || flagEmbedRO fl;
     flagEmbedRO := false |}.

(** The flag of [reflect.ValueOf(dto)]: neither addressable nor read-only. *)
Definition ValueOf_flag : flag :=
  {| flagAddr := false; flagStickyRO := false; flagEmbedRO := false |}.

(** ** types.go and err.go *)

(** An [error] returned by a transformer is kept as its [Error()] text, the
    only thing the engine reads from it. *)
Abbreviation TransformFunc := (Value → Value * option string)%type.
Abbreviation ValidationRule := (Value → StructField → list string)%type.

Record Err := {
  Msg : string;
  Fields : gmap string (list string)
}.

Definition NewErr (msg : string) (fields : gmap string (list string)) : Err :=
  {| Msg := msg; Fields := fields |}.

(** [e.Error()].  Go leaves open the order in which a loop visits the
    entries of a map; [visited] is the order of this call, a permutation of
    the entries of [e.Fields]. *)
Definition Err_Error (e : Err) (visited : list (string * list string)) : string :=
  if decide (size (Fields e) = 0%nat) then Msg e
  else
    let fieldErrors :=
      map (λ fm : string * list string, fm.1 +:+ " " +:+ Strings.Join fm.2 ", ") visited in
    Msg e +:+ " - " +:+ Strings.Join fieldErrors "; ".

(** ** transformer.go *)

(** The global [priorityLookup]. *)
Definition priorityLookup : gmap string Z :=
  list_to_map [("trim", 1); ("remove_whitespace", 2); ("lowercase", 3); ("uppercase", 4)].

(** [order[name]]: indexing a Go map gives the zero value for a missing key. *)
Definition priority (name : string) : Z := default 0 (priorityLookup !! name).

(** The body of the inner loop of [orderTransforms]: compare the entries at
    [i] and [j] and swap them when the first has the greater priority. *)
Definition orderStep (i : nat) (ordered : list string) (j : nat) : list string :=
  match ordered !! i, ordered !! j with
  | Some ti, Some tj =>
      if priority tj <? priority ti then <[i:=tj]> (<[j:=ti]> ordered) else ordered
  | _, _ => ordered
  end.

(** [for j := i + 1; j < len(ordered); j++] *)
Definition orderInner (ordered : list string) (i : nat) : list string :=
  foldl (orderStep i) ordered (seq (S i) (length ordered - S i)).

(** [for i := 0; i < len(ordered)-1; i++] over a copy of [transforms]. *)
Definition orderTransforms (transforms : list string) : list string :=
  foldl orderInner transforms (seq 0 (length transforms - 1)).

(** The loop of [applyTransformations] over the ordered names: an
    unregistered name is passed over, the first error ends the loop. *)
Fixpoint runTransforms (transformers : gmap string TransformFunc)
    (v : Value) (names : list string) : Value * option string :=
  match names with
  | [] => (v, None)
  | t :: names' =>
      match transformers !! t with
      | Some fn =>
          match fn v with
          | (v', Some err) => (v', Some err)
          | (v', None) => runTransforms transformers v' names'
          end
      | None => runTransforms transformers v names'
      end
  end.

(** [violations[prefix+k] = v] for every [k, v] of a nested error's fields. *)
Definition mergeNested (prefix : string) (fields violations : gmap string (list string))
  : gmap string (list string) :=
  map_fold (λ k v acc, <[prefix +:+ k := v]> acc) violations fields.

(** [violations[name] = append(violations[name], msg)] *)
Definition appendViolation (name msg : string) (violations : gmap string (list string))
  : gmap string (list string) :=
  <[name := default [] (violations !! name) ++ [msg]]> violations.

(** [fmt.Sprintf("%s[%d].", name, j)] *)
Definition indexPrefix (name : string) (j : nat) : string :=
  name +:+ "[" +:+ pretty (N.of_nat j) +:+ "].".

Section Transformer.
Context `{Strings.Unicode}.
(** The registry [transformers] as it stands when [Transform] is called. *)
Variable transformers : gmap string TransformFunc.

Definition applyTransformations (fl : flag) (v : Value) (field : StructField)
  : Value * option string :=
  if negb (CanSet fl) then (v, None)
  else
    let transformTag := Tag_Get field "transform" in
    if decide (transformTag = "") then (v, None)
    else runTransforms transformers v (orderTransforms (Strings.Fields transformTag)).

(** [transformStruct] returns the struct as the call leaves it, and the
    error.  The inner [loop] is the loop over the fields, threading the
    [violations] map; [elems] is the loop over the elements of a slice. *)
Fixpoint transformStruct (fl : flag) (val : Value) {struct val} : Value * option Err :=
  match val with
  | VStruct fs =>
      let '(fs', violations) :=
        (fix loop (fs : list (StructField * Value)) (violations : gmap string (list string))
             {struct fs} : list (StructField * Value) * gmap string (list string) :=
           match fs with
           | [] => ([], violations)
           | (field, fieldVal) :: rest =>
               let ffl := Field_flag fl field in
               let own (fv : Value) (violations : gmap string (list string)) :=
                 match applyTransformations ffl fv field with
                 | (fv', Some err) => (fv', appendViolation (Name field) err violations)
                 | (fv', None) => (fv', violations)
                 end in
               let '(fieldVal', violations') :=
                 match fieldVal with
                 | VStruct _ =>
                     match transformStruct ffl fieldVal with
                     | (fv', Some vErr) =>
                         (fv', mergeNested (Name field +:+ ".") (Fields vErr) violations)
                     | (fv', None) => own fv' violations
                     end
                 | VPointer (Some (VStruct _ as elem)) =>
                     match transformStruct (Elem_flag ffl) elem with
                     | (elem', Some vErr) =>
                         (VPointer (Some elem'),
                          mergeNested (Name field +:+ ".") (Fields vErr) violations)
                     | (elem', None) => own (VPointer (Some elem')) violations
                     end
                 | VSlice es =>
                     let '(es', violations1) :=
                       (fix elems (es : list Value) (j : nat)
                            (violations : gmap string (list string)) {struct es}
                          : list Value * gmap string (list string) :=
                          match es with
                          | [] => ([], violations)
                          | elem :: es0 =>
                              let '(elem', violations1) :=
                                match elem with
                                | VStruct _ =>
                                    match transformStruct (Index_flag ffl) elem with
                                    | (elem', Some vErr) =>
                                        (elem', mergeNested (indexPrefix (Name field) j)
                                                  (Fields vErr) violations)
                                    | (elem', None) => (elem', violations)
                                    end
                                | _ => (elem, violations)
                                end in
                              let '(es0', violations2) := elems es0 (S j) violations1 in
                              (elem' :: es0', violations2)
                          end) es 0%nat violations in
                     own (VSlice es') violations1
                 | _ => own fieldVal violations
                 end in
               let '(rest', violations'') := loop rest violations' in
               ((field, fieldVal') :: rest', violations'')
           end) fs ∅ in
      (VStruct fs',
       if (0 <? size violations)%nat
       then Some (NewErr "transformation failed" violations)
       else None)
  | _ => (val, None)
  end.

(** [Transform(dto)]: [None] is the nil interface.  Returns the value as the
    call leaves it, and the error. *)
Definition Transform (dto : option Value) : option Value * option Err :=
  match dto with
  | None => (None, Some (NewErr "invalid payload" ∅))
  | Some (VPointer (Some (VStruct _ as val))) =>
      let '(val', err) := transformStruct (Elem_flag ValueOf_flag) val in
      (Some (VPointer (Some val')), err)
  | Some (VStruct _ as val) =>
      let '(val', err) := transformStruct ValueOf_flag val in
      (Some val', err)
  | Some _ => (dto, Some (NewErr "input must be a struct" ∅))
  end.

(** *** The loops of [transformStruct], one by one

    The same loops as stand-alone functions, for the proofs;
    [transformStruct_unfold] below shows that they are the loops above. *)

(** [applyTransformations] on the field and the recording of its error. *)
Definition transformOwn (ffl : flag) (field : StructField) (fv : Value)
    (violations : gmap string (list string)) : Value * gmap string (list string) :=
  match applyTransformations ffl fv field with
  | (fv', Some err) => (fv', appendViolation (Name field) err violations)
  | (fv', None) => (fv', violations)
  end.

(** One element of a slice. *)
Definition transformElem (ffl : flag) (field : StructField) (elem : Value) (j : nat)
    (violations : gmap string (list string)) : Value * gmap string (list string) :=
  match elem with
  | VStruct _ =>
      match transformStruct (Index_flag ffl) elem with
      | (elem', Some vErr) =>
          (elem', mergeNested (indexPrefix (Name field) j) (Fields vErr) violations)
      | (elem', None) => (elem', violations)
      end
  | _ => (elem, violations)
  end.

Fixpoint transformElems (ffl : flag) (field : StructField) (es : list Value) (j : nat)
    (violations : gmap string (list string)) : list Value * gmap string (list string) :=
  match es with
  | [] => ([], violations)
  | elem :: es0 =>
      let '(elem', violations1) := transformElem ffl field elem j violations in
      let '(es0', violations2) := transformElems ffl field es0 (S j) violations1 in
      (elem' :: es0', violations2)
  end.

(** One iteration of the loop over the fields. *)
Definition transformField (fl : flag) (field : StructField) (fieldVal : Value)
    (violations : gmap string (list string)) : Value * gmap string (list string) :=
  let ffl := Field_flag fl field in
  match fieldVal with
  | VStruct _ =>
      match transformStruct ffl fieldVal with
      | (fv', Some vErr) => (fv', mergeNested (Name field +:+ ".") (Fields vErr) violations)
      | (fv', None) => transformOwn ffl field fv' violations
      end
  | VPointer (Some (VStruct _ as elem)) =>
      match transformStruct (Elem_flag ffl) elem with
      | (elem', Some vErr) =>
          (VPointer (Some elem'), mergeNested (Name field +:+ ".") (Fields vErr) violations)
      | (elem', None) => transformOwn ffl field (VPointer (Some elem')) violations
      end
  | VSlice es =>
      let '(es', violations1) := transformElems ffl field es 0%nat violations in
      transformOwn ffl field (VSlice es') violations1
  | _ => transformOwn ffl field fieldVal violations
  end.

Fixpoint transformFields (fl : flag) (fs : list (StructField * Value))
    (violations : gmap string (list string))
  : list (StructField * Value) * gmap string (list string) :=
  match fs with
  | [] => ([], violations)
  | (field, fieldVal) :: rest =>
      let '(fieldVal', violations') := transformField fl field fieldVal violations in
      let '(rest', violations'') := transformFields fl rest violations' in
      ((field, fieldVal') :: rest', violations'')
  end.

Lemma transformStruct_unfold (fl : flag) (fs : list (StructField * Value)) :
  transformStruct fl (VStruct fs) =
    let '(fs', violations) := transformFields fl fs ∅ in
    (VStruct fs',
     if (0 <? size violations)%nat
     then Some (NewErr "transformation failed" violations)
     else None).
Proof.
  cbn [transformStruct].
  generalize (∅ : gmap string (list string)).
  match goal with |- ∀ g, (let '(_, _) := ?L fs g in _) = _ =>
    assert (Hloop : ∀ fs g, L fs g = transformFields fl fs g) end.
  { clear fs. induction fs as [|[field fieldVal] rest IH]; intros g; [done|].
    cbn [transformFields].
    match goal with |- (let '(_, _) := ?B in _) = _ =>
      assert (Hbody : B = transformField fl field fieldVal g) end.
    { destruct fieldVal as [| | | | |[[]|]| |es| |]; try reflexivity.
      cbn [transformField].
      match goal with |- context [?E es 0%nat g] =>
        assert (Helems : ∀ es j g,
                   E es j g = transformElems (Field_flag fl field) field es j g) end.
      { clear. induction es as [|elem es0 IH]; intros j g; [done|].
        cbn [transformElems].
        match goal with |- (let '(_, _) := ?B in _) = _ =>
          assert (Helem : B = transformElem (Field_flag fl field) field elem j g)
            by (destruct elem; reflexivity) end.
        rewrite Helem. destruct transformElem as [elem' g']. by rewrite IH. }
      rewrite Helems. reflexivity. }
    rewrite Hbody. destruct transformField as [fv' g']. by rewrite IH. }
  intros g. rewrite Hloop. reflexivity.
Qed.

End Transformer.

Arguments transformStruct : simpl never.

(** [AddTransformer(name, fn)]: [transformers[name] = fn]. *)
Definition AddTransformer (name : string) (fn : TransformFunc)
    (transformers : gmap string TransformFunc) : gmap string TransformFunc :=
  <[name := fn]> transformers.

(** ** The built-in transformers *)

Section StringTransformers.
Context `{Strings.Unicode}.

(** The shape shared by the four built-ins: leave a value that is not of
    kind [String] alone, otherwise [v.SetString(f(v.String()))]. *)
Definition onString (f : string → string) : TransformFunc :=
  λ v, match v with
       | VString s => (VString (f s), None)
       | _ => (v, None)
       end.

Definition removeWhitespace (s : string) : string :=
  let s := Strings.removeByte " " s in
  let s := Strings.removeByte "009" s in
  let s := Strings.removeByte "010" s in
  let s := Strings.removeByte "013" s in
  s.

Definition addStringTransformers (transformers : gmap string TransformFunc)
  : gmap string TransformFunc :=
  let transformers := AddTransformer "trim" (onString Strings.TrimSpace) transformers in
  let transformers := AddTransformer "lowercase" (onString Strings.ToLower) transformers in
  let transformers := AddTransformer "uppercase" (onString Strings.ToUpper) transformers in
  let transformers := AddTransformer "remove_whitespace" (onString removeWhitespace) transformers in
  transformers.

(** The registry after the package's [init]. *)
Definition builtinTransformers : gmap string TransformFunc := addStringTransformers ∅.

End StringTransformers.

(** Field declarations, for the examples. *)
Definition exported (name : string) (tag : list (string * string)) : StructField :=
  {| Name := name; PkgPath := ""; Anonymous := false; Tag := list_to_map tag |}.


(** ** The validator *)

(** [AddRule(key, rule)]: [v.rules[key] = rule]. *)
Definition AddRule (key : string) (rule : ValidationRule)
    (rules : gmap string ValidationRule) : gmap string ValidationRule :=
  <[key := rule]> rules.

(** [strings.Split(rule, "=")[0]] *)
Definition ruleName (rule : string) : string := Strings.beforeByte "=" rule.

Section Validator.
Context `{Strings.Unicode}.
(** The registry [v.rules] as it stands when [Validate] is called. *)
Variable rules : gmap string ValidationRule.

(** The body of the loop over the rule tokens of one field. *)
Definition validateRule (field : StructField) (fieldVal : Value)
    (violations : gmap string (list string)) (rule : string) : gmap string (list string) :=
  match rules !! ruleName rule with
  | Some ruleFunc =>
      let errs := ruleFunc fieldVal field in
      if (0 <? length errs)%nat
      then <[Name field := default [] (violations !! Name field) ++ errs]> violations
      else violations
  | None => violations
  end.

(** The body of the loop over the fields. *)
Definition validateField (violations : gmap string (list string))
    (f : StructField * Value) : gmap string (list string) :=
  let '(field, fieldVal) := f in
  let validateTag := Tag_Get field "validator" in
  if decide (validateTag = "") then violations
  else foldl (validateRule field fieldVal) violations (Strings.Fields validateTag).

(** [Validate(dto)]: [None] is the nil interface. *)
Definition Validate (dto : option Value) : bool * option Err :=
  match dto with
  | None => (false, Some (NewErr "invalid payload" ∅))
  | Some v =>
      let val := match v with VPointer p => p | _ => Some v end in
      match val with
      | Some (VStruct fs) =>
          let violations := foldl validateField ∅ fs in
          if (0 <? size violations)%nat
          then (false, Some (NewErr "validation failed" violations))
          else (true, None)
      | _ => (false, Some (NewErr "input must be a struct" ∅))
      end
  end.

End Validator.

(** ** rules.go: the [required] rule *)

Definition requiredRule : ValidationRule :=
  λ v field,
    match v with
    | VString s => if decide (s = "") then ["field is required"] else []
    | VInt _ i => if decide (i = 0) then ["field is required"] else []
    | VFloat _ f => if SFeqb f (S754_zero false) then ["field is required"] else []
    | VSlice es | VArray es =>
        if decide (length es = 0%nat) then ["field is required"] else []
    | _ => []
    end.

Definition addRequiredRule (rules : gmap string ValidationRule)
  : gmap string ValidationRule :=
  AddRule "required" requiredRule rules.

(** ** rules.go: the size rules *)

Section SizeRules.
Context `{Strings.Unicode}.

(** The loop of [min] and of [max] that looks for the parameter: the first
    token that starts with [prefix] is read by [strconv.Atoi]; [inl] is the
    text it refuses.  Without such a token the bound keeps its zero value. *)
Fixpoint sizeParam (prefix : string) (rules : list string) : string + Z :=
  match rules with
  | [] => inr 0
  | rule :: rest =>
      if Strings.HasPrefix rule prefix
      then
        let valStr := Strings.TrimPrefix rule prefix in
        match Strconv.Atoi valStr with
        | Some val => inr val
        | None => inl valStr
        end
      else sizeParam prefix rest
  end.

Definition minRule : ValidationRule :=
  λ v field,
    let rules := Strings.Fields (Tag_Get field "validator") in
    match sizeParam "min=" rules with
    | inl valStr => ["invalid min: " +:+ valStr]
    | inr minLength =>
        match v with
        | VString s =>
            if Z.of_nat (String.length s) <? minLength
            then ["length must be at least " +:+ pretty minLength] else []
        | VSlice es | VArray es =>
            if Z.of_nat (length es) <? minLength
            then ["must have at least " +:+ pretty minLength +:+ " items"] else []
        | _ => []
        end
    end.

Definition maxRule : ValidationRule :=
  λ v field,
    let rules := Strings.Fields (Tag_Get field "validator") in
    match sizeParam "max=" rules with
    | inl valStr => ["invalid max: " +:+ valStr]
    | inr maxLength =>
        match v with
        | VString s =>
            if maxLength <? Z.of_nat (String.length s)
            then ["length must not exceed " +:+ pretty maxLength] else []
        | VSlice es | VArray es =>
            if maxLength <? Z.of_nat (length es)
            then ["must not exceed " +:+ pretty maxLength +:+ " items"] else []
        | _ => []
        end
    end.

Definition addSizeRules (rules : gmap string ValidationRule) : gmap string ValidationRule :=
  let rules := AddRule "min" minRule rules in
  let rules := AddRule "max" maxRule rules in
  rules.

(** ** rules.go: the string rules *)

(** The argument of [strings.ContainsAny]: space, tab, newline and
    carriage return. *)
Definition whitespaceChars : string :=
  String " " (String "009" (String "010" (String "013" EmptyString))).

Definition noWhitespaceRule : ValidationRule :=
  λ v field,
    match v with
    | VString s =>
        if Strings.ContainsAny s whitespaceChars then ["must not contain whitespace"] else []
    | _ => []
    end.

(** The loop of [contains] and of [starts_with] that looks for the
    parameter: what follows [prefix] in the first token that starts with
    it, the empty string without such a token. *)
Fixpoint textParam (prefix : string) (rules : list string) : string :=
  match rules with
  | [] => ""
  | rule :: rest =>
      if Strings.HasPrefix rule prefix then Strings.TrimPrefix rule prefix
      else textParam prefix rest
  end.

Definition containsRule : ValidationRule :=
  λ v field,
    match v with
    | VString s =>
        let rules := Strings.Fields (Tag_Get field "validator") in
        let substring := textParam "contains=" rules in
        if negb (Strings.Contains s substring)
        then ["must contain '" +:+ substring +:+ "'"] else []
    | _ => []
    end.

Definition startsWithRule : ValidationRule :=
  λ v field,
    match v with
    | VString s =>
        let rules := Strings.Fields (Tag_Get field "validator") in
        let prefix := textParam "starts_with=" rules in
        if negb (Strings.HasPrefix s prefix)
        then ["must start with '" +:+ prefix +:+ "'"] else []
    | _ => []
    end.

Definition addCustomStringRules (rules : gmap string ValidationRule)
  : gmap string ValidationRule :=
  let rules := AddRule "contains" containsRule rules in
  let rules := AddRule "starts_with" startsWithRule rules in
  rules.

End SizeRules.

(** ** [parseParams] and the [pattern] rule *)

(** [parseParams(tag)]: the pieces of the tag between commas that hold
    exactly one [=], as a map from what stands before it to what stands
    after it; a later piece with the same key wins. *)
Definition parseParams (tag : string) : gmap string string :=
  foldl (λ params pair,
           match Strings.splitByte "=" pair with
           | [k; v] => <[k := v]> params
           | _ => params
           end)
    ∅ (Strings.splitByte "," tag).

Section PatternRule.
(** Go's [regexp] package: compiled expressions, [regexp.Compile] ([None]
    is a non-nil error) and [re.MatchString]. *)
Variable Regexp : Type.
Variable Compile : string → option Regexp.
Variable MatchString : Regexp → string → bool.

Definition patternRule : ValidationRule :=
  λ v field,
    match v with
    | VString s =>
        let tag := Tag_Get field "validator" in
        let params := parseParams tag in
        match params !! "pattern" with
        | None => []
        | Some pattern =>
            match Compile pattern with
            | None => []
            | Some re => if negb (MatchString re s) then ["invalid format"] else []
            end
        end
    | _ => []
    end.

End PatternRule.

(** ** rules.go: the rules with a fixed pattern *)

Import Regexp.

(** [^[a-zA-Z0-9._%+-]+@[a-zA-Z0-9.-]+\.[a-zA-Z]{2,}$] *)
Definition emailPattern : Re :=
  Cat (Repeat (Class [("a", "z"); ("A", "Z"); ("0", "9");
                      (".", "."); ("_", "_"); ("%", "%"); ("+", "+"); ("-", "-")]%char)
         1 None)
    (Cat (lit "@")
       (Cat (Repeat (Class [("a", "z"); ("A", "Z"); ("0", "9"); (".", "."); ("-", "-")]%char)
               1 None)
          (Cat (lit ".")
             (Repeat (Class [("a", "z"); ("A", "Z")]%char) 2 None)))).

Definition emailRule : ValidationRule :=
  λ v field,
    match v with
    | VString s => if negb (MatchString emailPattern s) then ["invalid email format"] else []
    | _ => []
    end.

(** [^(\d{1,3}\.){3}\d{1,3}$] *)
Definition ipv4Pattern : Re :=
  Cat (Repeat (Cat (Repeat digit 1 (Some 3%nat)) (lit ".")) 3 (Some 3%nat))
    (Repeat digit 1 (Some 3%nat)).

(** The loop over the parts between the dots: a part that [strconv.Atoi]
    refuses or that is not within 0 and 255 ends it with the message. *)
Definition ipv4Rule : ValidationRule :=
  λ v field,
    match v with
    | VString s =>
        if negb (MatchString ipv4Pattern s) then ["must be a valid IPv4 address"]
        else
          let parts := Strings.splitByte "." s in
          if forallb (λ part,
                        match Strconv.Atoi part with
                        | Some num => negb ((num <? 0) || (255 <? num))
                        | None => false
                        end) parts
          then [] else ["must be a valid IPv4 address"]
    | _ => []
    end.

(** [^\d{4}-\d{2}-\d{2}$] *)
Definition iso8601Pattern : Re :=
  Cat (Repeat digit 4 (Some 4%nat))
    (Cat (lit "-")
       (Cat (Repeat digit 2 (Some 2%nat))
          (Cat (lit "-") (Repeat digit 2 (Some 2%nat))))).

Definition isoDateRule : ValidationRule :=
  λ v field,
    match v with
    | VString s =>
        if negb (MatchString iso8601Pattern s)
        then ["must be a valid ISO8601 date (YYYY-MM-DD)"] else []
    | _ => []
    end.

(** [^([01]\d|2[0-3]):([0-5]\d):([0-5]\d)$] *)
Definition timePattern : Re :=
  Cat (Alt (Cat (Class [("0", "1")]%char) digit) (Cat (lit "2") (Class [("0", "3")]%char)))
    (Cat (lit ":")
       (Cat (Cat (Class [("0", "5")]%char) digit)
          (Cat (lit ":") (Cat (Class [("0", "5")]%char) digit)))).

Definition timeRule : ValidationRule :=
  λ v field,
    match v with
    | VString s =>
        if negb (MatchString timePattern s) then ["must be a valid time (HH:MM:SS)"] else []
    | _ => []
    end.

(** ** rules.go: [alphanum] and [alpha] *)

Section LetterRules.
Context `{Runes.Tables}.

Definition alphanumRule : ValidationRule :=
  λ v field,
    match v with
    | VString str =>
        if existsb (λ char, negb (Runes.IsLetter char) && negb (Runes.IsNumber char)
                            && negb (char =? 95))
             (Runes.range 0 (Strings.bytes str))
        then ["must contain only letters, numbers, and underscores"] else []
    | _ => []
    end.

Definition alphaRule : ValidationRule :=
  λ v field,
    match v with
    | VString str =>
        if existsb (λ char, negb (Runes.IsLetter char)) (Runes.range 0 (Strings.bytes str))
        then ["must contain only letters"] else []
    | _ => []
    end.

End LetterRules.

(** * Properties *)

(** ** [orderTransforms] sorts by priority *)

(** One pass of the inner loop, on the entry at [i] and the entries after
    it: the entry held at [i] is exchanged with every later entry of
    smaller priority. *)
Fixpoint exchange (x : string) (rest : list string) : string * list string :=
  match rest with
  | [] => (x, [])
  | y :: r =>
      if priority y <? priority x
      then let '(m, r') := exchange y r in (m, x :: r')
      else let '(m, r') := exchange x r in (m, y :: r')
  end.

(** [n] passes, each on the part of the list after the previous one's. *)
Fixpoint exchangeSort (n : nat) (l : list string) : list string :=
  match n, l with
  | S n', x :: rest => let '(m, r') := exchange x rest in m :: exchangeSort n' r'
  | _, _ => l
  end.

Lemma orderStep_loop (i : nat) (pre : list string) :
  length pre = i →
  ∀ rest x seen,
    foldl (orderStep i) (pre ++ x :: seen ++ rest)
      (seq (S i + length seen) (length rest))
    = let '(m, r') := exchange x rest in pre ++ m :: seen ++ r'.
Proof.
  intros Hi. induction rest as [|y r IH]; intros x seen; [done|].
  cbn [length seq foldl exchange].
  assert (Hx : (pre ++ x :: seen ++ y :: r) !! i = Some x).
  { rewrite lookup_app_r by lia. by replace (i - length pre)%nat with 0%nat by lia. }
  assert (Hy : (pre ++ x :: seen ++ y :: r) !! (S i + length seen)%nat = Some y).
  { rewrite lookup_app_r by lia.
    replace (S i + length seen - length pre)%nat with (S (length seen)) by lia.
    cbn. by apply list_lookup_middle. }
  unfold orderStep at 2. rewrite Hx, Hy.
  replace (S (S i + length seen)) with (S i + length (seen ++ [x]))%nat
    by (rewrite length_app; cbn; lia).
  destruct (priority y <? priority x).
  - replace (<[i:=y]> (<[(S i + length seen)%nat:=x]> (pre ++ x :: seen ++ y :: r)))
      with (pre ++ y :: (seen ++ [x]) ++ r).
    + rewrite IH. destruct (exchange y r) as [m r']. by rewrite <- (assoc_L (++)).
    + rewrite (insert_app_r_alt pre _ (S i + length seen)) by lia.
      replace (S i + length seen - length pre)%nat with (S (length seen)) by lia.
      cbn [insert list_insert].
      rewrite (insert_app_r_alt seen _ (length seen)) by lia.
      replace (length seen - length seen)%nat with 0%nat by lia.
      rewrite (insert_app_r_alt pre _ i) by lia.
      replace (i - length pre)%nat with 0%nat by lia. cbn.
      by rewrite <- (assoc_L (++)).
  - replace (pre ++ x :: seen ++ y :: r) with (pre ++ x :: (seen ++ [y]) ++ r)
      by (rewrite <- (assoc_L (++)); done).
    replace (length (seen ++ [x])) with (length (seen ++ [y]))
      by (rewrite !length_app; done).
    rewrite IH. destruct (exchange x r) as [m r']. by rewrite <- (assoc_L (++)).
Qed.

Lemma orderInner_exchange (pre : list string) (x : string) (rest : list string) :
  orderInner (pre ++ x :: rest) (length pre)
  = let '(m, r') := exchange x rest in pre ++ m :: r'.
Proof.
  unfold orderInner.
  replace (length (pre ++ x :: rest) - S (length pre))%nat with (length rest)
    by (rewrite length_app; cbn; lia).
  pose proof (orderStep_loop (length pre) pre eq_refl rest x []) as Hl.
  cbn in Hl. by replace (length pre + 0)%nat with (length pre) in Hl by lia.
Qed.

Lemma exchange_length (x : string) (rest : list string) :
  length (exchange x rest).2 = length rest.
Proof.
  revert x. induction rest as [|y r IH]; intros x; [done|]. cbn.
  destruct (priority y <? priority x).
  - specialize (IH y). destruct (exchange y r). cbn in *. lia.
  - specialize (IH x). destruct (exchange x r). cbn in *. lia.
Qed.

Lemma orderOuter_ge (n : nat) :
  ∀ a l, (length l ≤ S a)%nat → foldl orderInner l (seq a n) = l.
Proof.
  induction n as [|n IH]; intros a l Hl; [done|].
  cbn [seq foldl]. unfold orderInner at 2.
  replace (length l - S a)%nat with 0%nat by lia. cbn [seq foldl].
  apply IH. lia.
Qed.

Lemma orderOuter_exchangeSort (n : nat) :
  ∀ pre suf,
    foldl orderInner (pre ++ suf) (seq (length pre) n) = pre ++ exchangeSort n suf.
Proof.
  induction n as [|n IH]; intros pre suf; [done|].
  destruct suf as [|x rest].
  { rewrite orderOuter_ge by (rewrite length_app; cbn; lia). done. }
  cbn [seq foldl].
  rewrite orderInner_exchange. cbn [exchangeSort].
  destruct (exchange x rest) as [m r'].
  replace (pre ++ m :: r') with ((pre ++ [m]) ++ r') by (rewrite <- (assoc_L (++)); done).
  replace (S (length pre)) with (length (pre ++ [m])) by (rewrite length_app; cbn; lia).
  rewrite IH. by rewrite <- (assoc_L (++)).
Qed.

Lemma orderTransforms_exchangeSort (transforms : list string) :
  orderTransforms transforms = exchangeSort (length transforms - 1) transforms.
Proof. apply (orderOuter_exchangeSort _ [] transforms). Qed.

(** The order the loops establish: ascending priority. *)
Definition byPriority (a b : string) : Prop := priority a ≤ priority b.

Lemma exchange_spec (x : string) (rest : list string) :
  let '(m, r') := exchange x rest in
  m :: r' ≡ₚ x :: rest ∧ Forall (byPriority m) (x :: rest).
Proof.
  revert x. induction rest as [|y r IH]; intros x; cbn.
  { split; [done|]. repeat constructor. unfold byPriority. lia. }
  destruct (priority y <? priority x) eqn:Hlt.
  - specialize (IH y). destruct (exchange y r) as [m r']. destruct IH as [Hp Hm].
    split.
    + etrans; [apply Permutation_swap|]. by constructor.
    + pose proof (Forall_inv Hm) as Hmy. constructor; [|done].
      apply Z.ltb_lt in Hlt. unfold byPriority in *. lia.
  - specialize (IH x). destruct (exchange x r) as [m r']. destruct IH as [Hp Hm].
    split.
    + etrans; [apply Permutation_swap|].
      etrans; [apply perm_skip, Hp|]. apply Permutation_swap.
    + pose proof (Forall_inv Hm) as Hmx. apply Forall_cons in Hm as [_ Hm].
      repeat constructor; [done| |done].
      apply Z.ltb_ge in Hlt. unfold byPriority in *. lia.
Qed.

Lemma exchange_perm (x : string) (rest : list string) :
  (exchange x rest).1 :: (exchange x rest).2 ≡ₚ x :: rest.
Proof. pose proof (exchange_spec x rest). by destruct exchange as [??], H. Qed.

Lemma exchange_min (x : string) (rest : list string) :
  Forall (byPriority (exchange x rest).1) (exchange x rest).2.
Proof.
  pose proof (exchange_spec x rest) as Hs. destruct exchange as [m r'].
  destruct Hs as [Hp Hm]. rewrite <- Hp in Hm. by apply Forall_cons in Hm as [_ Hm].
Qed.

Lemma exchangeSort_perm (n : nat) (l : list string) : exchangeSort n l ≡ₚ l.
Proof.
  revert l. induction n as [|n IH]; intros [|x rest]; try done. cbn.
  pose proof (exchange_perm x rest) as Hp. destruct (exchange x rest) as [m r'].
  cbn in Hp. by rewrite IH.
Qed.

Lemma exchangeSort_sorted (n : nat) (l : list string) :
  (length l ≤ S n)%nat → StronglySorted byPriority (exchangeSort n l).
Proof.
  revert l. induction n as [|n IH]; intros l Hl.
  { destruct l as [|x [|??]]; cbn in *; try lia; repeat constructor. }
  destruct l as [|x rest]; [constructor|]. cbn.
  pose proof (exchange_min x rest) as Hm. pose proof (exchange_length x rest) as Hlen.
  destruct (exchange x rest) as [m r']. cbn in *.
  constructor; [apply IH; lia|]. by rewrite exchangeSort_perm.
Qed.

Theorem orderTransforms_perm (transforms : list string) :
  orderTransforms transforms ≡ₚ transforms.
Proof. rewrite orderTransforms_exchangeSort. apply exchangeSort_perm. Qed.

Theorem orderTransforms_sorted (transforms : list string) :
  StronglySorted byPriority (orderTransforms transforms).
Proof. rewrite orderTransforms_exchangeSort. apply exchangeSort_sorted. lia. Qed.

(** In a list sorted by priority no entry is followed by one of strictly
    smaller priority. *)
Lemma sorted_not_after (l1 l2 : list string) (a b : string) :
  StronglySorted byPriority (l1 ++ a :: l2) → priority b < priority a → b ∉ l2.
Proof.
  intros Hs Hlt Hin. induction l1 as [|c l1 IH]; cbn in Hs.
  - apply StronglySorted_inv in Hs as [_ Hall].
    rewrite Forall_forall in Hall. specialize (Hall b Hin). unfold byPriority in Hall. lia.
  - apply StronglySorted_inv in Hs as [Hs _]. auto.
Qed.

(** Where no two different names share a priority, the order of the result
    does not depend on the order of the input. *)
Lemma orderTransforms_permutation_invariant (l l' : list string) :
  (∀ a b, a ∈ l → b ∈ l → priority a = priority b → a = b) →
  l ≡ₚ l' → orderTransforms l = orderTransforms l'.
Proof.
  intros Hinj Hp.
  set (R := λ a b : string, priority a ≤ priority b ∧ (priority a = priority b → a = b)).
  assert (AntiSymm (=) R) as HR.
  { intros a b [H1 H2] [H3 _]. apply H2. lia. }
  assert (∀ k, (∀ a, a ∈ k → a ∈ l) → StronglySorted byPriority k → StronglySorted R k)
    as Hup.
  { intros k Hk Hs. induction Hs as [|a k Hs IH Hall]; [constructor|].
    constructor.
    - apply IH. intros b Hb. apply Hk. by right.
    - rewrite Forall_forall in Hall |- *. intros b Hb. split; [by apply Hall|].
      apply Hinj; apply Hk; [left|by right]. }
  apply (StronglySorted_unique R).
  - apply Hup; [|apply orderTransforms_sorted].
    intros a. by rewrite orderTransforms_perm.
  - apply Hup; [|apply orderTransforms_sorted].
    intros a. by rewrite orderTransforms_perm, Hp.
  - by rewrite !orderTransforms_perm.
Qed.

Lemma priorityLookup_listed (name : string) (p : Z) :
  priorityLookup !! name = Some p →
  (name, p) ∈ [("trim", 1); ("remove_whitespace", 2); ("lowercase", 3); ("uppercase", 4)].
Proof. apply elem_of_list_to_map_2. Qed.

Lemma priority_unlisted (name : string) : priorityLookup !! name = None → priority name = 0.
Proof. unfold priority. by intros ->. Qed.


(** Among the names of the priority table, equal priority means equal name. *)
Lemma priority_listed_inj (a b : string) :
  is_Some (priorityLookup !! a) → is_Some (priorityLookup !! b) →
  priority a = priority b → a = b.
Proof.
  intros [p Hp] [q Hq]. unfold priority. rewrite Hp, Hq. cbn. intros <-.
  apply priorityLookup_listed in Hp, Hq.
  repeat (apply elem_of_cons in Hp as [Hp|Hp]; [injection Hp as -> ->|]);
    try (by apply elem_of_nil in Hp);
    repeat (apply elem_of_cons in Hq as [Hq|Hq]; [by injection Hq as ->|]);
    by apply elem_of_nil in Hq.
Qed.

Section TransformOrder.
Context `{Strings.Unicode}.

Lemma Fields_empty : Strings.Fields "" = [].
Proof. reflexivity. Qed.

(** Two tags with the same tokens in different orders are applied alike,
    where the names are told apart by their priorities. *)
Lemma applyTransformations_token_order
    (transformers : gmap string TransformFunc) (fl : flag) (v : Value)
    (field field' : StructField) :
  let tokens := Strings.Fields (Tag_Get field "transform") in
  let tokens' := Strings.Fields (Tag_Get field' "transform") in
  (∀ a b, a ∈ tokens → b ∈ tokens → priority a = priority b → a = b) →
  tokens ≡ₚ tokens' →
  applyTransformations transformers fl v field
  = applyTransformations transformers fl v field'.
Proof.
  intros tokens tokens' Hinj Hp. subst tokens tokens'. unfold applyTransformations.
  destruct (negb (CanSet fl)); [done|]. cbn zeta.
  rewrite <- (orderTransforms_permutation_invariant _ _ Hinj Hp).
  case_decide as Ht; case_decide as Ht'; try done.
  - by rewrite Ht, Fields_empty.
  - rewrite Ht', Fields_empty in Hp. apply Permutation_nil_r in Hp. by rewrite Hp.
Qed.

(** A record with the single exported field [F], tagged [transform:"tag"]
    and holding the string [s], passed by pointer. *)
Definition oneString (tag s : string) : option Value :=
  Some (VPointer (Some (VStruct [(exported "F" [("transform", tag)], VString s)]))).

(** C1: a field tagged with both [trim] and [lowercase] is trimmed before it
    is lower-cased, in whatever order the tag names them.  The priorities
    are trim=1, remove_whitespace=2, lowercase=3, uppercase=4;
    [orderTransforms] returns the requested names in ascending priority, so
    no [trim] ever follows a [lowercase]; two tags naming the same
    priority-listed transforms in different orders are applied alike; and
    the value "  ABC  " tagged "trim lowercase" or "lowercase trim" ends as
    "abc", as every string [s] ends as [ToLower (TrimSpace s)]. *)
Theorem C1_trim_before_lowercase :
  (priority "trim" = 1 ∧ priority "remove_whitespace" = 2
   ∧ priority "lowercase" = 3 ∧ priority "uppercase" = 4)
  ∧ (∀ transforms, orderTransforms transforms ≡ₚ transforms
                   ∧ StronglySorted byPriority (orderTransforms transforms))
  ∧ (∀ transforms l1 l2,
        orderTransforms transforms = l1 ++ "lowercase" :: l2 → "trim" ∉ l2)
  ∧ (∀ transformers fl v field field',
        let tokens := Strings.Fields (Tag_Get field "transform") in
        let tokens' := Strings.Fields (Tag_Get field' "transform") in
        (∀ a, a ∈ tokens → is_Some (priorityLookup !! a)) →
        tokens ≡ₚ tokens' →
        applyTransformations transformers fl v field
        = applyTransformations transformers fl v field')
  ∧ (∀ tag s, tag = "trim lowercase" ∨ tag = "lowercase trim" →
        Transform builtinTransformers (oneString tag s)
        = (oneString tag (Strings.ToLower (Strings.TrimSpace s)), None))
  ∧ (∀ tag, tag = "trim lowercase" ∨ tag = "lowercase trim" →
        Transform builtinTransformers (oneString tag "  ABC  ")
        = (oneString tag "abc", None)).
Proof.
  split; [done|]. split; [|split; [|split; [|split]]].
  - intros transforms. split; [apply orderTransforms_perm|apply orderTransforms_sorted].
  - intros transforms l1 l2 Heq.
    apply (sorted_not_after l1 l2 "lowercase" "trim"); [|done].
    rewrite <- Heq. apply orderTransforms_sorted.
  - intros transformers fl v field field' tokens tokens' Hlisted Hp.
    apply applyTransformations_token_order; [|done].
    intros a b Ha Hb. apply priority_listed_inj; by apply Hlisted.
  - intros tag s [-> | ->]; reflexivity.
  - intros tag [-> | ->]; reflexivity.
Qed.


End TransformOrder.

(** ** The violation map *)

Lemma size_pos_iff (m : gmap string (list string)) : (0 <? size m)%nat = true ↔ m ≠ ∅.
Proof. rewrite Nat.ltb_lt, <- map_size_non_empty_iff. lia. Qed.

Lemma size_pos_empty (m : gmap string (list string)) : (0 <? size m)%nat = false ↔ m = ∅.
Proof. rewrite Nat.ltb_ge, <- map_size_empty_iff. lia. Qed.

(** The loop of [mergeNested] writes the nested map, with every key
    prefixed, over the violations gathered so far. *)
Lemma mergeNested_union (prefix : string) (fields violations : gmap string (list string)) :
  mergeNested prefix fields violations = kmap (String.app prefix) fields ∪ violations.
Proof.
  unfold mergeNested.
  apply (map_fold_weak_ind (λ r m, r = kmap (String.app prefix) m ∪ violations)).
  - rewrite kmap_empty. by rewrite (left_id_L ∅ (∪)).
  - intros k v m r _ ->. rewrite kmap_insert by apply _. by rewrite insert_union_l.
Qed.

Lemma mergeNested_lookup (prefix k : string) (fields violations : gmap string (list string))
    (msgs : list string) :
  fields !! k = Some msgs → mergeNested prefix fields violations !! (prefix +:+ k) = Some msgs.
Proof.
  intros Hk. rewrite mergeNested_union. apply lookup_union_Some_l.
  by rewrite (lookup_kmap (String.app prefix)).
Qed.

Lemma mergeNested_empty_iff (prefix : string) (fields violations : gmap string (list string)) :
  mergeNested prefix fields violations = ∅ ↔ fields = ∅ ∧ violations = ∅.
Proof.
  rewrite mergeNested_union. split.
  - intros Hu. pose proof (map_positive_l _ _ Hu) as Hk.
    rewrite Hk, (left_id_L ∅ (∪)) in Hu.
    split; [by apply (kmap_empty_iff (String.app prefix))|done].
  - intros [-> ->]. rewrite kmap_empty. by rewrite (left_id_L ∅ (∪)).
Qed.

Lemma mergeNested_dom_mono (prefix k : string) (fields violations : gmap string (list string)) :
  is_Some (violations !! k) → is_Some (mergeNested prefix fields violations !! k).
Proof.
  intros [msgs Hk]. rewrite mergeNested_union, lookup_union, Hk.
  by destruct (kmap (M2:=gmap string) (String.app prefix) fields !! k).
Qed.

Lemma appendViolation_nonempty (name msg : string) (violations : gmap string (list string)) :
  appendViolation name msg violations ≠ ∅.
Proof. apply insert_non_empty. Qed.

Lemma foldl_empty_iff {A} (step : gmap string (list string) → A → gmap string (list string))
    (quiet : A → Prop) :
  (∀ g a, step g a = ∅ ↔ g = ∅ ∧ quiet a) →
  ∀ l g, foldl step g l = ∅ ↔ g = ∅ ∧ Forall quiet l.
Proof.
  intros Hstep. induction l as [|a l IH]; intros g; cbn.
  - split; [by intros ->|by intros [-> _]].
  - rewrite IH, Hstep, Forall_cons. tauto.
Qed.

(** ** How [transformStruct] and [Validate] report *)

Section Reports.
Context `{Strings.Unicode}.
Variable transformers : gmap string TransformFunc.
Variable rules : gmap string ValidationRule.

(** The violations [transformStruct] gathers on a struct. *)
Definition transformViolations (fl : flag) (fs : list (StructField * Value))
  : gmap string (list string) :=
  (transformFields transformers fl fs ∅).2.

(** The violations [Validate] gathers on a struct. *)
Definition validateViolations (fs : list (StructField * Value)) : gmap string (list string) :=
  foldl (validateField rules) ∅ fs.

Lemma transformStruct_err (fl : flag) (fs : list (StructField * Value)) :
  (transformStruct transformers fl (VStruct fs)).2
  = if decide (transformViolations fl fs = ∅) then None
    else Some (NewErr "transformation failed" (transformViolations fl fs)).
Proof.
  rewrite transformStruct_unfold. unfold transformViolations.
  destruct (transformFields transformers fl fs ∅) as [fs' violations]. cbn -[Nat.ltb].
  destruct (0 <? size violations)%nat eqn:Hs.
  - apply size_pos_iff in Hs. by rewrite decide_False by done.
  - apply size_pos_empty in Hs. by rewrite decide_True by done.
Qed.

(** An error of [transformStruct] never has an empty field map. *)
Lemma transformStruct_err_nonempty (fl : flag) (val : Value) (vErr : Err) :
  (transformStruct transformers fl val).2 = Some vErr → Fields vErr ≠ ∅.
Proof.
  destruct val; try discriminate. rewrite transformStruct_err.
  case_decide; [discriminate|]. by intros [= <-].
Qed.

(** What one iteration does to the value does not depend on the
    violations gathered before it, and it leaves the violations empty
    exactly when they were empty and the iteration on its own adds none. *)
Lemma transformOwn_frame (ffl : flag) (field : StructField) (fv : Value)
    (g : gmap string (list string)) :
  (transformOwn transformers ffl field fv g).1 = (transformOwn transformers ffl field fv ∅).1
  ∧ ((transformOwn transformers ffl field fv g).2 = ∅
     ↔ g = ∅ ∧ (transformOwn transformers ffl field fv ∅).2 = ∅).
Proof.
  unfold transformOwn. destruct applyTransformations as [fv' [err|]]; cbn.
  - split; [done|]. split; [by intros ?%appendViolation_nonempty|].
    by intros [_ ?%appendViolation_nonempty].
  - tauto.
Qed.

Lemma transformElem_frame (ffl : flag) (field : StructField) (elem : Value) (j : nat)
    (g : gmap string (list string)) :
  (transformElem transformers ffl field elem j g).1
  = (transformElem transformers ffl field elem j ∅).1
  ∧ ((transformElem transformers ffl field elem j g).2 = ∅
     ↔ g = ∅ ∧ (transformElem transformers ffl field elem j ∅).2 = ∅).
Proof.
  unfold transformElem. destruct elem; cbn; try tauto.
  destruct transformStruct as [elem' [vErr|]]; cbn; [|tauto].
  rewrite !mergeNested_empty_iff. tauto.
Qed.

Lemma transformElems_frame (ffl : flag) (field : StructField) (es : list Value) :
  ∀ j g,
    (transformElems transformers ffl field es j g).1
    = (transformElems transformers ffl field es j ∅).1
    ∧ ((transformElems transformers ffl field es j g).2 = ∅
       ↔ g = ∅ ∧ (transformElems transformers ffl field es j ∅).2 = ∅).
Proof.
  induction es as [|elem es IH]; intros j g; cbn; [tauto|].
  destruct (transformElem_frame ffl field elem j g) as [He1 He2].
  destruct (transformElem transformers ffl field elem j g) as [e1 g1].
  destruct (transformElem transformers ffl field elem j ∅) as [e0 g0]. cbn in *. subst e1.
  destruct (IH (S j) g1) as [H1 H2]. destruct (IH (S j) g0) as [H3 H4].
  destruct (transformElems transformers ffl field es (S j) g1) as [es1 g1'].
  destruct (transformElems transformers ffl field es (S j) g0) as [es0 g0'].
  destruct (transformElems transformers ffl field es (S j) ∅) as [es2 g2'].
  cbn in *. subst. split; [done|]. tauto.
Qed.

Lemma transformField_frame (fl : flag) (field : StructField) (fieldVal : Value)
    (g : gmap string (list string)) :
  (transformField transformers fl field fieldVal g).1
  = (transformField transformers fl field fieldVal ∅).1
  ∧ ((transformField transformers fl field fieldVal g).2 = ∅
     ↔ g = ∅ ∧ (transformField transformers fl field fieldVal ∅).2 = ∅).
Proof.
  unfold transformField.
  destruct fieldVal as [| | | | |[[]|]| |es| |]; try apply transformOwn_frame.
  - destruct transformStruct as [elem' [vErr|]]; [|apply transformOwn_frame].
    cbn. rewrite !mergeNested_empty_iff. tauto.
  - destruct transformStruct as [elem' [vErr|]]; [|apply transformOwn_frame].
    cbn. rewrite !mergeNested_empty_iff. tauto.
  - destruct (transformElems_frame (Field_flag fl field) field es 0 g) as [H1 H2].
    destruct (transformElems transformers (Field_flag fl field) field es 0 g) as [es1 g1].
    destruct (transformElems transformers (Field_flag fl field) field es 0 ∅) as [es0 g0].
    cbn in *. subst es1.
    destruct (transformOwn_frame (Field_flag fl field) field (VSlice es0) g1) as [H3 H4].
    destruct (transformOwn_frame (Field_flag fl field) field (VSlice es0) g0) as [H5 H6].
    rewrite H3, H5, H4, H6. split; [done|]. tauto.
Qed.

(** A field adds no violation. *)
Definition fieldQuiet (fl : flag) (f : StructField * Value) : Prop :=
  (transformField transformers fl f.1 f.2 ∅).2 = ∅.

Lemma transformFields_empty_iff (fl : flag) (fs : list (StructField * Value)) :
  ∀ g, (transformFields transformers fl fs g).2 = ∅ ↔ g = ∅ ∧ Forall (fieldQuiet fl) fs.
Proof.
  induction fs as [|[field fieldVal] rest IH]; intros g; cbn.
  - split; [by intros ->|by intros [-> _]].
  - destruct (transformField_frame fl field fieldVal g) as [_ Hf].
    destruct (transformField transformers fl field fieldVal g) as [fv' g'].
    specialize (IH g').
    destruct (transformFields transformers fl rest g') as [rest' g'']. cbn in *.
    rewrite IH, Hf, Forall_cons. unfold fieldQuiet at 2. cbn. tauto.
Qed.

(** A rule token adds no violation: its name is not registered, or the rule
    returns no message. *)
Definition ruleQuiet (field : StructField) (fieldVal : Value) (rule : string) : Prop :=
  ∀ ruleFunc, rules !! ruleName rule = Some ruleFunc → ruleFunc fieldVal field = [].

Definition validateQuiet (f : StructField * Value) : Prop :=
  Tag_Get f.1 "validator" ≠ "" →
  Forall (ruleQuiet f.1 f.2) (Strings.Fields (Tag_Get f.1 "validator")).

Lemma validateRule_empty_iff (field : StructField) (fieldVal : Value)
    (g : gmap string (list string)) (rule : string) :
  validateRule rules field fieldVal g rule = ∅ ↔ g = ∅ ∧ ruleQuiet field fieldVal rule.
Proof.
  unfold validateRule, ruleQuiet. destruct (rules !! ruleName rule) as [ruleFunc|].
  - destruct (ruleFunc fieldVal field) as [|e errs] eqn:He; cbn.
    + split; [intros ->; split; [done|]; by intros ? [= <-]|by intros [-> _]].
    + split; [by intros ?%insert_non_empty|].
      intros [_ Hq]. specialize (Hq _ eq_refl). congruence.
  - split; [by intros ->|by intros [-> _]].
Qed.

Lemma validateField_empty_iff (g : gmap string (list string)) (f : StructField * Value) :
  validateField rules g f = ∅ ↔ g = ∅ ∧ validateQuiet f.
Proof.
  destruct f as [field fieldVal]. unfold validateField, validateQuiet. cbn.
  case_decide as Ht.
  - split; [by intros ->|by intros [-> _]].
  - rewrite (foldl_empty_iff _ _ (validateRule_empty_iff field fieldVal)). tauto.
Qed.

Lemma validateViolations_empty_iff (fs : list (StructField * Value)) :
  validateViolations fs = ∅ ↔ Forall validateQuiet fs.
Proof.
  unfold validateViolations. rewrite (foldl_empty_iff _ _ validateField_empty_iff). tauto.
Qed.

(** The struct a well-shaped argument of [Validate] and [Transform] holds:
    the argument is a struct or a non-nil pointer to one. *)
Definition structShaped (dto : option Value) : option (list (StructField * Value)) :=
  match dto with
  | Some (VStruct fs) | Some (VPointer (Some (VStruct fs))) => Some fs
  | _ => None
  end.

(** The flag [Transform] enters the struct with. *)
Definition topFlag (dto : option Value) : flag :=
  match dto with
  | Some (VPointer _) => Elem_flag ValueOf_flag
  | _ => ValueOf_flag
  end.

Lemma Validate_struct (dto : option Value) (fs : list (StructField * Value)) :
  structShaped dto = Some fs →
  Validate rules dto
  = if decide (validateViolations fs = ∅) then (true, None)
    else (false, Some (NewErr "validation failed" (validateViolations fs))).
Proof.
  intros Hs.
  assert (Validate rules dto
          = if (0 <? size (validateViolations fs))%nat
            then (false, Some (NewErr "validation failed" (validateViolations fs)))
            else (true, None)) as ->.
  { destruct dto as [[| | | | |[[]|]| | | |]|]; try discriminate; by injection Hs as <-. }
  destruct (0 <? size _)%nat eqn:Hsz.
  - apply size_pos_iff in Hsz. by rewrite decide_False by done.
  - apply size_pos_empty in Hsz. by rewrite decide_True by done.
Qed.

Lemma Transform_struct_err (dto : option Value) (fs : list (StructField * Value)) :
  structShaped dto = Some fs →
  (Transform transformers dto).2
  = if decide (transformViolations (topFlag dto) fs = ∅) then None
    else Some (NewErr "transformation failed" (transformViolations (topFlag dto) fs)).
Proof.
  intros Hs. rewrite <- transformStruct_err.
  destruct dto as [[| | | | |[[]|]| | | |]|]; try discriminate; injection Hs as <-;
    unfold Transform; cbn [topFlag]; by destruct transformStruct.
Qed.

(** On a struct-shaped argument, [Validate] returns [false] with the error
    holding the gathered violations exactly when these are not empty, and
    [true] with no error exactly when they are empty, which is when no
    registered rule of a tagged field returns a message; [Transform] returns
    no error exactly when the violations it gathers are empty, which is when
    no iteration of its loop adds any, and otherwise the error holding
    them. *)
Lemma violations_empty_iff_quiet (dto : option Value) (fs : list (StructField * Value)) :
  structShaped dto = Some fs →
  (Validate rules dto = (false, Some (NewErr "validation failed" (validateViolations fs)))
   ↔ validateViolations fs ≠ ∅)
  ∧ (Validate rules dto = (true, None) ↔ validateViolations fs = ∅)
  ∧ (validateViolations fs = ∅ ↔ Forall validateQuiet fs)
  ∧ ((Transform transformers dto).2 = None ↔ transformViolations (topFlag dto) fs = ∅)
  ∧ ((Transform transformers dto).2
       = Some (NewErr "transformation failed" (transformViolations (topFlag dto) fs))
     ↔ transformViolations (topFlag dto) fs ≠ ∅)
  ∧ (transformViolations (topFlag dto) fs = ∅ ↔ Forall (fieldQuiet (topFlag dto)) fs).
Proof.
  intros Hs. rewrite (Validate_struct _ _ Hs), (Transform_struct_err _ _ Hs).
  repeat split; try (case_decide; naive_solver).
  - apply validateViolations_empty_iff.
  - apply validateViolations_empty_iff.
  - intros He. unfold transformViolations in He.
    apply transformFields_empty_iff in He. tauto.
  - intros Hq. by apply transformFields_empty_iff.
Qed.

End Reports.


(** ** [Validate] only ever appends *)

(** [g'] has every message list of [g], possibly with more messages after. *)
Definition extends (g g' : gmap string (list string)) : Prop :=
  ∀ name msgs, g !! name = Some msgs → ∃ more, g' !! name = Some (msgs ++ more).

Lemma extends_refl (g : gmap string (list string)) : extends g g.
Proof. intros name msgs Hg. exists []. by rewrite (right_id_L [] (++)). Qed.

Lemma extends_trans (g1 g2 g3 : gmap string (list string)) :
  extends g1 g2 → extends g2 g3 → extends g1 g3.
Proof.
  intros H12 H23 name msgs Hg. destruct (H12 _ _ Hg) as [m1 H1].
  destruct (H23 _ _ H1) as [m2 H2]. exists (m1 ++ m2). by rewrite (assoc_L (++)).
Qed.

Lemma foldl_extends {A} (step : gmap string (list string) → A → gmap string (list string)) :
  (∀ g a, extends g (step g a)) → ∀ l g, extends g (foldl step g l).
Proof.
  intros Hstep. induction l as [|a l IH]; intros g; cbn; [apply extends_refl|].
  eapply extends_trans; [apply Hstep|apply IH].
Qed.

Section ValidateAppends.
Context `{Strings.Unicode}.
Variable rules : gmap string ValidationRule.

Lemma validateRule_extends (field : StructField) (fieldVal : Value)
    (g : gmap string (list string)) (rule : string) :
  extends g (validateRule rules field fieldVal g rule).
Proof.
  unfold validateRule. destruct (rules !! ruleName rule) as [ruleFunc|]; [|apply extends_refl].
  destruct (0 <? length _)%nat; [|apply extends_refl].
  intros name msgs Hg. destruct (decide (Name field = name)) as [->|Hne].
  - rewrite lookup_insert_eq, Hg. cbn. eauto.
  - rewrite lookup_insert_ne by done. exists []. by rewrite (right_id_L [] (++)).
Qed.

Lemma validateField_extends (g : gmap string (list string)) (f : StructField * Value) :
  extends g (validateField rules g f).
Proof.
  destruct f as [field fieldVal]. unfold validateField. case_decide; [apply extends_refl|].
  apply foldl_extends. intros. apply validateRule_extends.
Qed.

(** A registered rule that returns messages leaves them under the field's
    name. *)
Lemma validateRule_records (field : StructField) (fieldVal : Value)
    (g : gmap string (list string)) (rule : string) (ruleFunc : ValidationRule) :
  rules !! ruleName rule = Some ruleFunc → ruleFunc fieldVal field ≠ [] →
  ∃ before,
    validateRule rules field fieldVal g rule !! Name field
    = Some (before ++ ruleFunc fieldVal field).
Proof.
  intros Hr He. unfold validateRule. rewrite Hr.
  destruct (ruleFunc fieldVal field) as [|e errs]; [done|]. cbn.
  rewrite lookup_insert_eq. eauto.
Qed.

Lemma validateViolations_records (fs : list (StructField * Value)) (field : StructField)
    (fieldVal : Value) (rule : string) (ruleFunc : ValidationRule) :
  (field, fieldVal) ∈ fs →
  rule ∈ Strings.Fields (Tag_Get field "validator") →
  rules !! ruleName rule = Some ruleFunc → ruleFunc fieldVal field ≠ [] →
  ∃ before after,
    validateViolations rules fs !! Name field
    = Some (before ++ ruleFunc fieldVal field ++ after).
Proof.
  intros Hf Hrule Hr He. unfold validateViolations. generalize (∅ : gmap string (list string)).
  apply list_elem_of_split in Hf as (fs1 & fs2 & ->). intros g.
  rewrite foldl_app. cbn [foldl]. generalize (foldl (validateField rules) g fs1). clear g.
  intros g.
  assert (∃ before after, validateField rules g (field, fieldVal) !! Name field
            = Some (before ++ ruleFunc fieldVal field ++ after)) as (before & after & Hv).
  { unfold validateField. case_decide as Ht.
    { rewrite Ht, Fields_empty in Hrule. by apply elem_of_nil in Hrule. }
    apply list_elem_of_split in Hrule as (r1 & r2 & ->).
    rewrite foldl_app. cbn [foldl].
    destruct (validateRule_records field fieldVal
                (foldl (validateRule rules field fieldVal) g r1) rule ruleFunc Hr He)
      as [before Hb].
    destruct (foldl_extends _ (validateRule_extends field fieldVal) r2 _ _ _ Hb)
      as [after Ha].
    exists before, after. by rewrite Ha, <- (assoc_L (++)). }
  destruct (foldl_extends _ validateField_extends fs2 _ _ _ Hv) as [more Hm].
  exists before, (after ++ more). by rewrite Hm, <- !(assoc_L (++)).
Qed.

End ValidateAppends.

(** ** The [required] rule *)

(** The values [required] flags: the empty string, a signed integer 0, a
    float equal to 0, a slice or array of length 0. *)
Definition missing (v : Value) : Prop :=
  v = VString ""
  ∨ (∃ k, v = VInt k 0)
  ∨ (∃ k f, v = VFloat k f ∧ SFeqb f (S754_zero false) = true)
  ∨ v = VSlice [] ∨ v = VArray [].

Lemma requiredRule_cases (v : Value) (field : StructField) :
  (missing v ∧ requiredRule v field = ["field is required"])
  ∨ (¬ missing v ∧ requiredRule v field = []).
Proof.
  assert (∀ P Q : Prop, P → Q → P ∧ Q) as both by tauto.
  unfold missing.
  destruct v as [b|k i|k u|k f|s|p|fs|es|es|k]; cbn;
    try (right; apply both; [|done];
         by intros [?|[[??]|[(?&?&?&?)|[?|?]]]]).
  - destruct (decide (i = 0)) as [->|Hi]; [left|right]; apply both; try done.
    + right; left. by exists k.
    + intros [?|[[? [= ??]]|[(?&?&?&?)|[?|?]]]]; done.
  - destruct (SFeqb f (S754_zero false)) eqn:Hf; [left|right]; apply both; try done.
    + right; right; left. by exists k, f.
    + intros [?|[[??]|[(?&?&[= ??]&?)|[?|?]]]]; try done. congruence.
  - destruct (decide (s = "")) as [->|Hs]; [left|right]; apply both; try done.
    + by left.
    + intros [[= ?]|[[??]|[(?&?&?&?)|[?|?]]]]; done.
  - destruct es; [left|right]; apply both; try done.
    + by right; right; right; left.
    + by intros [?|[[??]|[(?&?&?&?)|[?|?]]]].
  - destruct es; [left|right]; apply both; try done.
    + by right; right; right; right.
    + by intros [?|[[??]|[(?&?&?&?)|[?|?]]]].
Qed.

(** A Go float equals 0 exactly when it is one of the two zeros. *)
Lemma float_zero (f : spec_float) : SFeqb f (S754_zero false) = true ↔ ∃ s, f = S754_zero s.
Proof.
  split.
  - destruct f as [s|s| |s m e]; cbn; try destruct s; try done; eauto.
  - by intros [s ->].
Qed.

Section Required.
Context `{Strings.Unicode}.

(** C10: [required] returns the one message "field is required" exactly on
    the empty string, a signed integer 0, a float equal to 0 (either zero)
    and a slice or array of length 0, and no message on any other value; so
    none on a bool, a pointer (nil or not), a struct, an unsigned integer or
    a map.  With [required] registered, a field that is missing in this
    sense and carries the token makes [Validate] fail with the message under
    the field's name: Age = 0 always fails. *)
Theorem C10_required_zero_values :
  (∀ v field,
      (requiredRule v field = ["field is required"] ↔ missing v)
      ∧ (requiredRule v field = [] ↔ ¬ missing v))
  ∧ (∀ k f, missing (VFloat k f) ↔ ∃ s, f = S754_zero s)
  ∧ (∀ v field,
        kindOf v ∈ [Bool; Pointer; Struct; Map; Interface; Chan; Func;
                    Uint; Uint8; Uint16; Uint32; Uint64; Uintptr;
                    Complex64; Complex128; UnsafePointer] →
        requiredRule v field = [])
  ∧ (∀ rules dto fs field v rule,
        rules !! "required" = Some requiredRule →
        structShaped dto = Some fs → (field, v) ∈ fs →
        rule ∈ Strings.Fields (Tag_Get field "validator") → ruleName rule = "required" →
        missing v →
        ∃ msgs, Validate rules dto
                = (false, Some (NewErr "validation failed" (validateViolations rules fs)))
                ∧ validateViolations rules fs !! Name field = Some msgs
                ∧ "field is required" ∈ msgs)
  ∧ Validate (addRequiredRule ∅)
      (Some (VPointer (Some (VStruct
         [(exported "Age" [("validator", "required")], VInt KInt 0)]))))
    = (false, Some (NewErr "validation failed" {[ "Age" := ["field is required"] ]}))
  ∧ Validate (addRequiredRule ∅)
      (Some (VPointer (Some (VStruct
         [(exported "Next" [("validator", "required")], VPointer None)]))))
    = (true, None).
Proof.
  split; [|split; [|split; [|split; [|split]]]].
  - intros v field. destruct (requiredRule_cases v field) as [[Hm ->]|[Hm ->]];
      split; split; try done; intros Hx; by destruct Hm.
  - intros k f. rewrite <- float_zero. unfold missing. split.
    + intros [?|[[??]|[(?&?&[= <- <-]&?)|[?|?]]]]; done.
    + intros Hf. right; right; left. by exists k, f.
  - intros v field Hk.
    destruct v as [b|k i|k u|k f|s|p|fs|es|es|k]; try done; exfalso;
      [destruct k|destruct k|..];
      repeat (apply elem_of_cons in Hk as [Hk|Hk]; [discriminate|]);
      by apply elem_of_nil in Hk.
  - intros rules dto fs field v rule Hreq Hs Hf Hrule Hname Hmiss.
    destruct (requiredRule_cases v field) as [[_ Hr]|[Hm _]]; [|done].
    destruct (validateViolations_records rules fs field v rule requiredRule)
      as (before & after & Hv); try done.
    { by rewrite Hname. }
    { by rewrite Hr. }
    exists (before ++ requiredRule v field ++ after). split; [|split; [done|]].
    + rewrite (Validate_struct _ _ _ Hs). rewrite decide_False; [done|].
      intros He. by rewrite He, lookup_empty in Hv.
    + rewrite Hr. apply elem_of_app; right. by left.
  - reflexivity.
  - reflexivity.
Qed.

End Required.

(** ** Unregistered names *)

Section Unregistered.
Context `{Strings.Unicode}.

Lemma validateRule_unregistered (rules : gmap string ValidationRule) (field : StructField)
    (fieldVal : Value) (g : gmap string (list string)) (rule : string) :
  rules !! ruleName rule = None → validateRule rules field fieldVal g rule = g.
Proof. unfold validateRule. by intros ->. Qed.

Lemma validateRules_registered_only (rules : gmap string ValidationRule)
    (field : StructField) (fieldVal : Value) (tokens : list string) :
  ∀ g,
    foldl (validateRule rules field fieldVal) g tokens
    = foldl (validateRule rules field fieldVal) g
        (filter (λ rule, is_Some (rules !! ruleName rule)) tokens).
Proof.
  induction tokens as [|rule tokens IH]; intros g; [done|].
  destruct (rules !! ruleName rule) as [ruleFunc|] eqn:Hr.
  - rewrite filter_cons_True by (by rewrite Hr). cbn. apply IH.
  - rewrite filter_cons_False by (rewrite Hr; by intros [??]). cbn.
    rewrite validateRule_unregistered by done. apply IH.
Qed.

Lemma runTransforms_registered_only (transformers : gmap string TransformFunc)
    (names : list string) :
  ∀ v,
    runTransforms transformers v names
    = runTransforms transformers v (filter (λ t, is_Some (transformers !! t)) names).
Proof.
  induction names as [|t names IH]; intros v; [done|].
  destruct (transformers !! t) as [fn|] eqn:Ht.
  - rewrite filter_cons_True by (by rewrite Ht). cbn. rewrite Ht.
    destruct (fn v) as [v' [err|]]; [done|apply IH].
  - rewrite filter_cons_False by (rewrite Ht; by intros [??]). cbn. rewrite Ht. apply IH.
Qed.

Lemma runTransforms_none_registered (transformers : gmap string TransformFunc)
    (names : list string) (v : Value) :
  (∀ t, t ∈ names → transformers !! t = None) → runTransforms transformers v names = (v, None).
Proof.
  intros Hn. induction names as [|t names IH]; [done|]. cbn.
  rewrite (Hn t) by left. apply IH. intros t' Ht'. apply Hn. by right.
Qed.

(** A record with the single exported field [F] holding [v], tagged
    [validator:"vtag"] and [transform:"ttag"], passed by pointer. *)
Definition oneField (vtag ttag : string) (v : Value) : option Value :=
  Some (VPointer (Some (VStruct
    [(exported "F" [("validator", vtag); ("transform", ttag)], v)]))).

(** C7: a token whose name is not registered is passed over.  In
    [Validate] it leaves the violations as they are, the violations of a
    field are those of its registered tokens, and a record none of whose
    tokens is registered validates.  In [Transform] the loop over the
    ordered names gives what it gives on the registered names alone, and a
    field none of whose names is registered is left as it is, without
    error.  The token foobar123 is not among the built-ins: alone it does
    nothing, and next to a built-in it changes nothing. *)
Theorem C7_unregistered_names_skipped :
  (∀ rules field fieldVal g rule,
      rules !! ruleName rule = None → validateRule rules field fieldVal g rule = g)
  ∧ (∀ rules field fieldVal g tokens,
        foldl (validateRule rules field fieldVal) g tokens
        = foldl (validateRule rules field fieldVal) g
            (filter (λ rule, is_Some (rules !! ruleName rule)) tokens))
  ∧ (∀ rules dto fs,
        structShaped dto = Some fs →
        (∀ field fieldVal rule,
            (field, fieldVal) ∈ fs → rule ∈ Strings.Fields (Tag_Get field "validator") →
            rules !! ruleName rule = None) →
        Validate rules dto = (true, None))
  ∧ (∀ transformers v names,
        runTransforms transformers v names
        = runTransforms transformers v (filter (λ t, is_Some (transformers !! t)) names))
  ∧ (∀ transformers fl v field,
        (∀ t, t ∈ Strings.Fields (Tag_Get field "transform") → transformers !! t = None) →
        applyTransformations transformers fl v field = (v, None))
  ∧ builtinTransformers !! "foobar123" = None
  ∧ (∀ s, Transform builtinTransformers (oneField "" "foobar123" (VString s))
          = (oneField "" "foobar123" (VString s), None))
  ∧ (∀ s, Transform builtinTransformers (oneField "" "foobar123 trim" (VString s))
          = (oneField "" "foobar123 trim" (VString (Strings.TrimSpace s)), None))
  ∧ (∀ v, Validate (addRequiredRule ∅) (oneField "foobar123" "" v) = (true, None))
  ∧ (∀ v, Validate (addRequiredRule ∅) (oneField "foobar123 required" "" v)
          = Validate (addRequiredRule ∅) (oneField "required" "" v)).
Proof.
  split_and!.
  - apply validateRule_unregistered.
  - intros. apply validateRules_registered_only.
  - intros rules dto fs Hs Hun. rewrite (Validate_struct _ _ _ Hs).
    rewrite decide_True; [done|]. apply validateViolations_empty_iff.
    apply Forall_forall. intros [field fieldVal] Hf _. apply Forall_forall.
    intros rule Hrule ruleFunc Hr. cbn in *. by rewrite (Hun _ _ _ Hf Hrule) in Hr.
  - intros. apply runTransforms_registered_only.
  - intros transformers fl v field Hun. unfold applyTransformations.
    destruct (negb (CanSet fl)); [done|]. case_decide; [done|].
    apply runTransforms_none_registered. intros t Ht. apply Hun.
    by rewrite <- (orderTransforms_perm _).
  - reflexivity.
  - intros s. reflexivity.
  - intros s. reflexivity.
  - intros v. reflexivity.
  - intros v. vm_compute. reflexivity.
Qed.

End Unregistered.

(** ** [Validate] is shallow *)

(** Two field values that differ at most inside a nested aggregate: inside
    a struct, behind a pointer to a struct, or inside the structs of a slice
    of the same length. *)
Inductive sameTop : Value → Value → Prop :=
| sameTop_refl v : sameTop v v
| sameTop_struct fs fs' : sameTop (VStruct fs) (VStruct fs')
| sameTop_pointer fs fs' :
    sameTop (VPointer (Some (VStruct fs))) (VPointer (Some (VStruct fs')))
| sameTop_slice es es' :
    length es = length es' →
    Forall (λ e, kindOf e = Struct) es → Forall (λ e, kindOf e = Struct) es' →
    sameTop (VSlice es) (VSlice es').

(** A rule that does not look inside nested aggregates. *)
Definition shallowRule (rule : ValidationRule) : Prop :=
  ∀ v v' field, sameTop v v' → rule v field = rule v' field.

Lemma requiredRule_shallow : shallowRule requiredRule.
Proof.
  intros v v' field Hs. destruct Hs as [v|fs fs'|fs fs'|es es' Hlen _ _]; try done.
  cbn. destruct es, es'; done.
Qed.

Section Shallow.
Context `{Strings.Unicode}.
Variable rules : gmap string ValidationRule.

Lemma validateRule_keys (field : StructField) (fieldVal : Value)
    (g : gmap string (list string)) (rule name : string) :
  is_Some (validateRule rules field fieldVal g rule !! name) →
  is_Some (g !! name) ∨ name = Name field.
Proof.
  unfold validateRule. destruct (rules !! ruleName rule); [|by left].
  destruct (0 <? length _)%nat; [|by left].
  destruct (decide (Name field = name)) as [->|Hne]; [by right|].
  rewrite lookup_insert_ne by done. by left.
Qed.

Lemma validateField_keys (g : gmap string (list string)) (f : StructField * Value)
    (name : string) :
  is_Some (validateField rules g f !! name) → is_Some (g !! name) ∨ name = Name f.1.
Proof.
  destruct f as [field fieldVal]. unfold validateField. cbn. case_decide; [by left|].
  generalize (Strings.Fields (Tag_Get field "validator")). intros tokens. revert g.
  induction tokens as [|rule tokens IH]; intros g; cbn; [by left|].
  intros [Hk|Hk]%IH; [|by right]. by apply validateRule_keys in Hk.
Qed.

Lemma validateViolations_keys (fs : list (StructField * Value)) (name : string) :
  is_Some (validateViolations rules fs !! name) → ∃ f, f ∈ fs ∧ Name f.1 = name.
Proof.
  unfold validateViolations.
  assert (∀ g, is_Some (foldl (validateField rules) g fs !! name) →
               is_Some (g !! name) ∨ ∃ f, f ∈ fs ∧ Name f.1 = name) as Hg.
  { induction fs as [|f fs IH]; intros g; cbn; [by left|].
    intros [[Hk|Hk]%validateField_keys|(f' & Hf' & Hn)]%IH.
    - by left.
    - right. exists f. split; [left|done].
    - right. exists f'. split; [by right|done]. }
  intros [Hk|Hk]%Hg; [|done]. rewrite lookup_empty in Hk. by destruct Hk.
Qed.

(** With shallow rules the violations of a field do not depend on what is
    nested in it. *)
Lemma validateField_shallow (g : gmap string (list string)) (field : StructField)
    (v v' : Value) :
  (∀ name rule, rules !! name = Some rule → shallowRule rule) →
  sameTop v v' → validateField rules g (field, v) = validateField rules g (field, v').
Proof.
  intros Hsh Hs. unfold validateField. case_decide; [done|].
  generalize (Strings.Fields (Tag_Get field "validator")). intros tokens. revert g.
  induction tokens as [|rule tokens IH]; intros g; cbn; [done|].
  rewrite <- IH. f_equal. unfold validateRule.
  destruct (rules !! ruleName rule) as [ruleFunc|] eqn:Hr; [|done].
  by rewrite (Hsh _ _ Hr v v' field Hs).
Qed.

Lemma validateViolations_shallow (fs fs' : list (StructField * Value)) :
  (∀ name rule, rules !! name = Some rule → shallowRule rule) →
  Forall2 (λ f f', f.1 = f'.1 ∧ sameTop f.2 f'.2) fs fs' →
  validateViolations rules fs = validateViolations rules fs'.
Proof.
  intros Hsh Hfs. unfold validateViolations. generalize (∅ : gmap string (list string)).
  induction Hfs as [|[field v] [field' v'] fs fs' [Hf Hv] _ IH]; intros g; cbn; [done|].
  cbn in Hf, Hv. subst field'. rewrite <- IH. f_equal.
  by apply validateField_shallow.
Qed.

End Shallow.

(** A struct with one field [Name], tagged [validator:"required"], empty. *)
Definition innerEmpty : Value :=
  VStruct [(exported "Name" [("validator", "required")], VString "")].

(** C6: [Validate] looks at the top-level fields only.  The keys of its
    violations are names of top-level fields; it succeeds as soon as no rule
    of a top-level field returns a message; and with rules that, like
    [required], do not look inside nested aggregates, its result is the same
    for two records that differ only inside a nested struct, behind a
    pointer to a struct, or inside the structs of a slice.  A record whose
    struct, pointer-to-struct and slice-of-structs fields hold a struct that
    fails on its own validates. *)
Theorem C6_validate_is_shallow `{Strings.Unicode} :
  (∀ rules fs name,
      is_Some (validateViolations rules fs !! name) → ∃ f, f ∈ fs ∧ Name f.1 = name)
  ∧ (∀ rules dto fs,
        structShaped dto = Some fs → Forall (validateQuiet rules) fs →
        Validate rules dto = (true, None))
  ∧ shallowRule requiredRule
  ∧ (∀ rules fs fs',
        (∀ name rule, rules !! name = Some rule → shallowRule rule) →
        Forall2 (λ f f', f.1 = f'.1 ∧ sameTop f.2 f'.2) fs fs' →
        Validate rules (Some (VStruct fs)) = Validate rules (Some (VStruct fs'))
        ∧ Validate rules (Some (VPointer (Some (VStruct fs))))
          = Validate rules (Some (VPointer (Some (VStruct fs')))))
  ∧ Validate (addRequiredRule ∅) (Some innerEmpty)
    = (false, Some (NewErr "validation failed" {[ "Name" := ["field is required"] ]}))
  ∧ Validate (addRequiredRule ∅)
      (Some (VStruct [(exported "Inner" [("validator", "required")], innerEmpty);
                      (exported "Ptr" [("validator", "required")],
                         VPointer (Some innerEmpty));
                      (exported "Items" [("validator", "required")],
                         VSlice [innerEmpty; innerEmpty])]))
    = (true, None).
Proof.
  split_and!.
  - apply validateViolations_keys.
  - intros rules dto fs Hs Hq. rewrite (Validate_struct _ _ _ Hs).
    rewrite decide_True; [done|]. by apply validateViolations_empty_iff.
  - apply requiredRule_shallow.
  - intros rules fs fs' Hsh Hfs.
    rewrite (Validate_struct rules (Some (VStruct fs)) fs eq_refl),
      (Validate_struct rules (Some (VStruct fs')) fs' eq_refl),
      (Validate_struct rules (Some (VPointer (Some (VStruct fs)))) fs eq_refl),
      (Validate_struct rules (Some (VPointer (Some (VStruct fs')))) fs' eq_refl).
    rewrite (validateViolations_shallow rules fs fs' Hsh Hfs). by split.
  - reflexivity.
  - reflexivity.
Qed.

(** ** What [Transform] does to a field *)

(** An instance for the examples: their strings are ASCII and never reach
    the slow paths. *)
Definition asciiOnly : Strings.Unicode :=
  {| Strings.TrimFunc_IsSpace := id;
     Strings.TrimRightFunc_IsSpace := id;
     Strings.Map_ToLower := id;
     Strings.Map_ToUpper := id;
     Strings.FieldsFunc_IsSpace := λ s, [s] |}.

(** [Transform]'s argument with the fields of its struct replaced. *)
Definition withFields (dto : option Value) (fs' : list (StructField * Value)) : option Value :=
  match dto with
  | Some (VStruct _) => Some (VStruct fs')
  | Some (VPointer (Some (VStruct _))) => Some (VPointer (Some (VStruct fs')))
  | _ => dto
  end.

Section Fields.
Context `{Strings.Unicode}.
Variable transformers : gmap string TransformFunc.

Lemma transformStruct_val (fl : flag) (fs : list (StructField * Value)) :
  (transformStruct transformers fl (VStruct fs)).1
  = VStruct (transformFields transformers fl fs ∅).1.
Proof. rewrite transformStruct_unfold. by destruct transformFields. Qed.

Lemma Transform_struct_val (dto : option Value) (fs : list (StructField * Value)) :
  structShaped dto = Some fs →
  (Transform transformers dto).1
  = withFields dto (transformFields transformers (topFlag dto) fs ∅).1.
Proof.
  intros Hs.
  destruct dto as [[| | | | |[[]|]| | | |]|]; try discriminate; injection Hs as <-;
    unfold Transform; cbn [topFlag withFields]; rewrite <- transformStruct_val;
    by destruct transformStruct.
Qed.

(** The loop over the fields leaves every field in its place, with the
    value its own iteration gives it. *)
Lemma transformFields_lookup (fl : flag) (fs : list (StructField * Value)) (i : nat)
    (field : StructField) (fieldVal : Value) :
  fs !! i = Some (field, fieldVal) →
  ∀ g, (transformFields transformers fl fs g).1 !! i
       = Some (field, (transformField transformers fl field fieldVal ∅).1).
Proof.
  revert i. induction fs as [|[field0 fv0] rest IH]; intros i Hi g; [done|].
  cbn. pose proof (transformField_frame transformers fl field0 fv0 g) as [Hfr _].
  destruct (transformField transformers fl field0 fv0 g) as [fv' g'].
  specialize (IH (pred i)).
  destruct i as [|i]; cbn in *.
  - injection Hi as -> ->. destruct transformFields. cbn. by rewrite Hfr.
  - specialize (IH Hi g'). by destruct transformFields.
Qed.

(** Without a transform tag nothing is applied to the field itself. *)
Lemma transformOwn_untagged (ffl : flag) (field : StructField) (fv : Value)
    (g : gmap string (list string)) :
  Tag_Get field "transform" = "" → transformOwn transformers ffl field fv g = (fv, g).
Proof.
  intros Ht. unfold transformOwn, applyTransformations. rewrite Ht.
  by destruct (negb (CanSet ffl)).
Qed.

End Fields.

Lemma string_app_ne_self (s r : string) (c : ascii) : s +:+ String c r ≠ s.
Proof. induction s as [|a s IH]; [done|]. intros [= Hs]. by apply IH. Qed.

Lemma string_app_assoc (a b c : string) : (a +:+ b) +:+ c = a +:+ (b +:+ c).
Proof.
  induction a as [|x a IH]; [done|].
  change (String x ((a +:+ b) +:+ c) = String x (a +:+ (b +:+ c))). by rewrite IH.
Qed.

(** Case analysis on a value known to be of kind [Struct]. *)
Ltac struct_kind v Hk :=
  destruct v as [|[] ?|[] ?|[] ?| | | | | |[]]; try discriminate Hk.

Section OwnTag.
Context `{Strings.Unicode}.
Variable transformers : gmap string TransformFunc.

(** A slice none of whose elements is a struct is left alone by the loop
    over its elements. *)
Lemma transformElems_no_struct (ffl : flag) (field : StructField) (es : list Value) :
  Forall (λ e, kindOf e ≠ Struct) es →
  ∀ j g, transformElems transformers ffl field es j g = (es, g).
Proof.
  induction 1 as [|e es He _ IH]; intros j g; [done|]. cbn.
  assert (transformElem transformers ffl field e j g = (e, g)) as ->
    by (by destruct e).
  by rewrite IH.
Qed.

(** Merging a nested error writes nothing under the field's own name. *)
Lemma mergeNested_own_name (name rest : string) (c : ascii)
    (fields g : gmap string (list string)) :
  mergeNested (name +:+ String c rest) fields g !! name = g !! name.
Proof.
  rewrite mergeNested_union, lookup_union_r; [done|].
  apply (lookup_kmap_None (String.app (name +:+ String c rest))).
  intros k Hk. exfalso. rewrite string_app_assoc in Hk.
  change (String c rest +:+ k) with (String c (rest +:+ k)) in Hk.
  symmetry in Hk. by apply string_app_ne_self in Hk.
Qed.

(** The value [Transform] leaves in a field that has no transform tag: what
    the recursion into it leaves. *)
Definition recursedOnly (fl : flag) (field : StructField) (fieldVal : Value) : Value :=
  let ffl := Field_flag fl field in
  match fieldVal with
  | VStruct _ => (transformStruct transformers ffl fieldVal).1
  | VPointer (Some (VStruct _ as elem)) =>
      VPointer (Some (transformStruct transformers (Elem_flag ffl) elem).1)
  | VSlice es => VSlice (transformElems transformers ffl field es 0 ∅).1
  | _ => fieldVal
  end.

Lemma transformField_untagged (fl : flag) (field : StructField) (fieldVal : Value) :
  Tag_Get field "transform" = "" →
  (transformField transformers fl field fieldVal ∅).1 = recursedOnly fl field fieldVal.
Proof.
  intros Ht. unfold transformField, recursedOnly.
  destruct fieldVal as [| | | | |[[]|]| |es| |];
    rewrite ?transformOwn_untagged by done; try done.
  - destruct transformStruct as [fv' [vErr|]]; [done|]. by rewrite transformOwn_untagged.
  - destruct transformStruct as [fv' [vErr|]]; [done|]. by rewrite transformOwn_untagged.
  - destruct transformElems as [es' g1]. by rewrite transformOwn_untagged.
Qed.

(** C5, amended: nothing is applied to a field without a transform tag
    itself, and [Transform] leaves in it what the recursion into it leaves:
    the field is unchanged unless it is a struct, a non-nil pointer to a
    struct or a slice, and a slice without a struct element is unchanged
    too. *)
Theorem C5_untagged_field_only_recursed (dto : option Value)
    (fs : list (StructField * Value)) (i : nat) (field : StructField) (fieldVal : Value) :
  structShaped dto = Some fs → fs !! i = Some (field, fieldVal) →
  Tag_Get field "transform" = "" →
  (∀ fl v g, transformOwn transformers fl field v g = (v, g))
  ∧ ∃ fs',
      (Transform transformers dto).1 = withFields dto fs'
      ∧ fs' !! i = Some (field, recursedOnly (topFlag dto) field fieldVal)
      ∧ (kindOf fieldVal ∉ [Struct; Pointer; Slice] → fs' !! i = Some (field, fieldVal))
      ∧ (∀ es, fieldVal = VSlice es → Forall (λ e, kindOf e ≠ Struct) es →
               fs' !! i = Some (field, fieldVal)).
Proof.
  intros Hs Hi Ht. split; [intros; by apply transformOwn_untagged|].
  exists (transformFields transformers (topFlag dto) fs ∅).1.
  split; [by apply Transform_struct_val|].
  rewrite (transformFields_lookup _ _ _ _ _ _ Hi), transformField_untagged by done.
  split_and!; [done| |].
  - intros Hk. do 2 f_equal.
    destruct fieldVal as [| | | | |[[]|]| |es| |]; try done; exfalso; apply Hk; cbn;
      solve [left | right; left | right; right; left].
  - intros es -> Hes. cbn. by rewrite transformElems_no_struct.
Qed.

(** C4, amended: for a slice the field's own transforms are applied after
    the loop over its elements, whatever that loop recorded; for a struct
    and for a non-nil pointer to a struct they are applied when the
    recursion returned no error, and when it returned one the iteration ends
    with the merge of the nested error: the field keeps the value the
    recursion left and nothing is recorded under the field's own name. *)
Theorem C4_own_tag_after_recursion (fl : flag) (field : StructField) (fieldVal : Value)
    (g : gmap string (list string)) :
  let ffl := Field_flag fl field in
  (∀ es, fieldVal = VSlice es →
         transformField transformers fl field fieldVal g
         = transformOwn transformers ffl field
             (VSlice (transformElems transformers ffl field es 0 g).1)
             (transformElems transformers ffl field es 0 g).2)
  ∧ (∀ fv', kindOf fieldVal = Struct →
            transformStruct transformers ffl fieldVal = (fv', None) →
            transformField transformers fl field fieldVal g
            = transformOwn transformers ffl field fv' g)
  ∧ (∀ fv' vErr, kindOf fieldVal = Struct →
            transformStruct transformers ffl fieldVal = (fv', Some vErr) →
            transformField transformers fl field fieldVal g
            = (fv', mergeNested (Name field +:+ ".") (Fields vErr) g)
            ∧ (transformField transformers fl field fieldVal g).2 !! Name field
              = g !! Name field)
  ∧ (∀ elem elem', fieldVal = VPointer (Some elem) → kindOf elem = Struct →
            transformStruct transformers (Elem_flag ffl) elem = (elem', None) →
            transformField transformers fl field fieldVal g
            = transformOwn transformers ffl field (VPointer (Some elem')) g)
  ∧ (∀ elem elem' vErr, fieldVal = VPointer (Some elem) → kindOf elem = Struct →
            transformStruct transformers (Elem_flag ffl) elem = (elem', Some vErr) →
            transformField transformers fl field fieldVal g
            = (VPointer (Some elem'), mergeNested (Name field +:+ ".") (Fields vErr) g)
            ∧ (transformField transformers fl field fieldVal g).2 !! Name field
              = g !! Name field).
Proof.
  intros ffl. split_and!.
  - intros es ->. cbn. by destruct transformElems.
  - intros fv' Hk Hr. struct_kind fieldVal Hk. cbn. fold ffl. by rewrite Hr.
  - intros fv' vErr Hk Hr. struct_kind fieldVal Hk. cbn. fold ffl. rewrite Hr.
    split; [done|]. cbn. apply mergeNested_own_name.
  - intros elem elem' -> Hk Hr. struct_kind elem Hk. cbn. fold ffl. by rewrite Hr.
  - intros elem elem' vErr -> Hk Hr. struct_kind elem Hk. cbn. fold ffl. rewrite Hr.
    split; [done|]. cbn. apply mergeNested_own_name.
Qed.

End OwnTag.

(** ** What makes [Transform] fail *)

(** The registered transformers named in [names] are applied one after the
    other, each to what the one before it left; every one returns nil, and
    the last leaves [v']. *)
Inductive passes (transformers : gmap string TransformFunc)
  : Value → list string → Value → Prop :=
| passes_nil v : passes transformers v [] v
| passes_skip v t names v' :
    transformers !! t = None → passes transformers v names v' →
    passes transformers v (t :: names) v'
| passes_run v t names fn v1 v' :
    transformers !! t = Some fn → fn v = (v1, None) → passes transformers v1 names v' →
    passes transformers v (t :: names) v'.

(** Some transformer named in [names] returns the error [msg], on what
    those named before it left, all of which passed. *)
Definition failsWith (transformers : gmap string TransformFunc) (v : Value)
    (names : list string) (msg : string) : Prop :=
  ∃ pre t post fn v1 v2,
    names = pre ++ t :: post ∧ passes transformers v pre v1
    ∧ transformers !! t = Some fn ∧ fn v1 = (v2, Some msg).

Section Failures.
Context `{Strings.Unicode}.
Variable transformers : gmap string TransformFunc.
Variable rules : gmap string ValidationRule.

Lemma runTransforms_outcome (names : list string) :
  ∀ v, match runTransforms transformers v names with
       | (v', None) => passes transformers v names v'
       | (_, Some msg) => failsWith transformers v names msg
       end.
Proof.
  induction names as [|t names IH]; intros v; cbn; [constructor|].
  destruct (transformers !! t) as [fn|] eqn:Ht.
  - destruct (fn v) as [v1 [msg|]] eqn:Hfn.
    + exists [], t, names, fn, v, v1. split_and!; [done|constructor|done|done].
    + specialize (IH v1). destruct (runTransforms transformers v1 names) as [v' [msg|]].
      * destruct IH as (pre & t' & post & fn' & w1 & w2 & -> & Hpre & Ht' & Hfn').
        exists (t :: pre), t', post, fn', w1, w2. split_and!; try done.
        by eapply passes_run.
      * by eapply passes_run.
  - specialize (IH v). destruct (runTransforms transformers v names) as [v' [msg|]].
    + destruct IH as (pre & t' & post & fn' & w1 & w2 & -> & Hpre & Ht' & Hfn').
      exists (t :: pre), t', post, fn', w1, w2. split_and!; try done.
      by apply passes_skip.
    + by apply passes_skip.
Qed.

Lemma passes_runTransforms (v : Value) (names : list string) (v' : Value) :
  passes transformers v names v' → runTransforms transformers v names = (v', None).
Proof.
  induction 1 as [v|v t names v' Ht _ IH|v t names fn v1 v' Ht Hfn _ IH]; cbn.
  - done.
  - by rewrite Ht.
  - by rewrite Ht, Hfn.
Qed.

Lemma runTransforms_app (pre post : list string) :
  ∀ v, runTransforms transformers v (pre ++ post)
       = match runTransforms transformers v pre with
         | (v1, None) => runTransforms transformers v1 post
         | failed => failed
         end.
Proof.
  induction pre as [|t pre IH]; intros v; cbn; [done|].
  destruct (transformers !! t) as [fn|]; [|apply IH].
  destruct (fn v) as [v1 [msg|]]; [done|apply IH].
Qed.

Lemma failsWith_runTransforms (v : Value) (names : list string) (msg : string) :
  failsWith transformers v names msg ↔ (runTransforms transformers v names).2 = Some msg.
Proof.
  split.
  - intros (pre & t & post & fn & v1 & v2 & -> & Hpre & Ht & Hfn).
    rewrite runTransforms_app, (passes_runTransforms _ _ _ Hpre). cbn. by rewrite Ht, Hfn.
  - intros Hr. pose proof (runTransforms_outcome names v) as Ho.
    destruct (runTransforms transformers v names) as [v' [msg'|]]; [|done].
    cbn in Hr. by injection Hr as <-.
Qed.

(** The field's own transforms fail with [msg] on [v]: the field can be
    set, it has a transform tag, and a transformer named in it, taken in the
    order of the priorities, returns [msg]. *)
Definition ownFails (ffl : flag) (field : StructField) (v : Value) (msg : string) : Prop :=
  CanSet ffl = true ∧ Tag_Get field "transform" ≠ ""
  ∧ failsWith transformers v
      (orderTransforms (Strings.Fields (Tag_Get field "transform"))) msg.

Lemma applyTransformations_fails (ffl : flag) (field : StructField) (v : Value)
    (msg : string) :
  (applyTransformations transformers ffl v field).2 = Some msg ↔ ownFails ffl field v msg.
Proof.
  unfold applyTransformations, ownFails. rewrite failsWith_runTransforms.
  destruct (CanSet ffl); cbn; [|by split; [|intros [? _]]].
  case_decide as Ht; [by split; [|intros (_ & ? & _)]|]. tauto.
Qed.

(** The errors of the calls of [transformStruct] that the loop makes for
    the field: on the field when it is a struct, on what it points to when
    it is a pointer to a struct, on every struct among its elements when it
    is a slice. *)
Definition nestedErrors (fl : flag) (field : StructField) (fieldVal : Value)
  : list (option Err) :=
  let ffl := Field_flag fl field in
  match fieldVal with
  | VStruct _ => [(transformStruct transformers ffl fieldVal).2]
  | VPointer (Some (VStruct _ as elem)) => [(transformStruct transformers (Elem_flag ffl) elem).2]
  | VSlice es =>
      map (λ elem, match elem with
                   | VStruct _ => (transformStruct transformers (Index_flag ffl) elem).2
                   | _ => None
                   end) es
  | _ => []
  end.

(** The field causes no failure: no call of [transformStruct] made for it
    returns an error, and no transformer of its own tag returns one on what
    these calls left in the field. *)
Definition transformQuiet (fl : flag) (f : StructField * Value) : Prop :=
  Forall (λ err, err = None) (nestedErrors fl f.1 f.2)
  ∧ ∀ msg, ¬ ownFails (Field_flag fl f.1) f.1 (recursedOnly transformers fl f.1 f.2) msg.

Lemma transformOwn_quiet (ffl : flag) (field : StructField) (v : Value) :
  (transformOwn transformers ffl field v ∅).2 = ∅ ↔ ∀ msg, ¬ ownFails ffl field v msg.
Proof.
  unfold transformOwn. setoid_rewrite <- applyTransformations_fails.
  destruct (applyTransformations transformers ffl v field) as [v' [msg|]]; cbn.
  - split; [by intros ?%appendViolation_nonempty|]. intros Hno. by destruct (Hno msg).
  - split; [by intros _ msg|done].
Qed.

Lemma transformElems_quiet (ffl : flag) (field : StructField) (es : list Value) :
  ∀ j g,
    (transformElems transformers ffl field es j g).2 = ∅
    ↔ g = ∅
      ∧ Forall (λ err, err = None)
          (map (λ elem, match elem with
                        | VStruct _ => (transformStruct transformers (Index_flag ffl) elem).2
                        | _ => None
                        end) es).
Proof.
  induction es as [|e es IH]; intros j g; cbn.
  - split; [intros ->; by split|by intros [-> _]].
  - assert ((transformElem transformers ffl field e j g).2 = ∅
            ↔ g = ∅ ∧ match e with
                      | VStruct _ => (transformStruct transformers (Index_flag ffl) e).2
                      | _ => None
                      end = None) as He.
    { unfold transformElem. destruct e; try (cbn; tauto).
      pose proof (transformStruct_err_nonempty transformers (Index_flag ffl) (VStruct fs)) as Hne.
      destruct transformStruct as [e' [vErr|]]; cbn in *; [|tauto].
      rewrite mergeNested_empty_iff. split; [intros [Hf _]; by destruct (Hne vErr)|].
      by intros [_ ?]. }
    destruct (transformElem transformers ffl field e j g) as [e' g1].
    specialize (IH (S j) g1). destruct (transformElems transformers ffl field es (S j) g1).
    cbn in *. rewrite IH, He, Forall_cons. tauto.
Qed.

Lemma fieldQuiet_transformQuiet (fl : flag) (f : StructField * Value) :
  fieldQuiet transformers fl f ↔ transformQuiet fl f.
Proof.
  destruct f as [field fv]. unfold fieldQuiet, transformQuiet, transformField, nestedErrors,
    recursedOnly. cbn [fst snd].
  destruct fv as [| | | | |[[]|]|fs|es| |];
    try (rewrite transformOwn_quiet; split; [by split|by intros [_ ?]]).
  - (* a pointer to a struct *)
    pose proof (transformStruct_err_nonempty transformers
                  (Elem_flag (Field_flag fl field)) (VStruct fs)) as Hne.
    destruct transformStruct as [e' [vErr|]]; cbn in *.
    + rewrite mergeNested_empty_iff. split; [intros [Hf _]; by destruct (Hne vErr)|].
      intros [Hall _]. by apply Forall_inv in Hall.
    + rewrite transformOwn_quiet. split; [by split; [repeat constructor|]|by intros [_ ?]].
  - (* a struct *)
    pose proof (transformStruct_err_nonempty transformers (Field_flag fl field) (VStruct fs))
      as Hne.
    destruct transformStruct as [e' [vErr|]]; cbn in *.
    + rewrite mergeNested_empty_iff. split; [intros [Hf _]; by destruct (Hne vErr)|].
      intros [Hall _]. by apply Forall_inv in Hall.
    + rewrite transformOwn_quiet. split; [by split; [repeat constructor|]|by intros [_ ?]].
  - (* a slice *)
    pose proof (transformElems_quiet (Field_flag fl field) field es 0 ∅) as Hes.
    destruct (transformElems transformers (Field_flag fl field) field es 0 ∅) as [es' g1].
    cbn in *.
    destruct (transformOwn_frame transformers (Field_flag fl field) field (VSlice es') g1)
      as [_ ->].
    rewrite Hes, transformOwn_quiet. tauto.
Qed.

(** C2: on a struct-shaped argument, [Validate] returns [false] with the
    error holding the gathered violations exactly when these are not empty,
    and [true] with no error exactly when they are empty, which is when no
    registered rule of a tagged field returns a message.  [Transform]
    returns no error exactly when the violations it gathers are empty, and
    otherwise the error holding them; they are empty exactly when no field
    causes a failure: no call of [transformStruct] made for a field returns
    an error, and no transformer named in a field's own tag returns one.
    So a transformer that fails on a field that can be set, and a failure
    in a nested struct, each make [Transform] fail; and the same holds of
    every nested call, at every depth. *)
Theorem C2_failure_iff_violations (dto : option Value) (fs : list (StructField * Value)) :
  structShaped dto = Some fs →
  (Validate rules dto
   = (false, Some (NewErr "validation failed" (validateViolations rules fs)))
   ↔ validateViolations rules fs ≠ ∅)
  ∧ (Validate rules dto = (true, None) ↔ validateViolations rules fs = ∅)
  ∧ (validateViolations rules fs = ∅ ↔ Forall (validateQuiet rules) fs)
  ∧ ((Transform transformers dto).2 = None
     ↔ transformViolations transformers (topFlag dto) fs = ∅)
  ∧ ((Transform transformers dto).2
       = Some (NewErr "transformation failed"
                 (transformViolations transformers (topFlag dto) fs))
     ↔ transformViolations transformers (topFlag dto) fs ≠ ∅)
  ∧ (transformViolations transformers (topFlag dto) fs = ∅
     ↔ Forall (fieldQuiet transformers (topFlag dto)) fs)
  ∧ (∀ f, fieldQuiet transformers (topFlag dto) f ↔ transformQuiet (topFlag dto) f)
  ∧ ((Transform transformers dto).2 = None ↔ Forall (transformQuiet (topFlag dto)) fs)
  ∧ (∀ i field fieldVal msg,
       fs !! i = Some (field, fieldVal) →
       ownFails (Field_flag (topFlag dto) field) field
         (recursedOnly transformers (topFlag dto) field fieldVal) msg
       ∨ Exists (λ err, err ≠ None) (nestedErrors (topFlag dto) field fieldVal) →
       ∃ err, (Transform transformers dto).2 = Some err
              ∧ Msg err = "transformation failed" ∧ Fields err ≠ ∅)
  ∧ (∀ fl nested,
       (transformStruct transformers fl (VStruct nested)).2 = None
       ↔ Forall (transformQuiet fl) nested).
Proof.
  intros Hs.
  destruct (violations_empty_iff_quiet transformers rules dto fs Hs)
    as (Hv1 & Hv2 & Hv3 & Ht1 & Ht2 & Ht3).
  assert (∀ fl nested,
            (transformStruct transformers fl (VStruct nested)).2 = None
            ↔ Forall (transformQuiet fl) nested) as Hdeep.
  { intros fl nested. rewrite transformStruct_err. unfold transformViolations.
    split.
    - case_decide as He; [intros _|done].
      apply transformFields_empty_iff in He as [_ He].
      eapply Forall_impl; [exact He|]. intros f. apply fieldQuiet_transformQuiet.
    - intros Hall. rewrite decide_True; [done|]. apply transformFields_empty_iff.
      split; [done|]. eapply Forall_impl; [exact Hall|].
      intros f. apply fieldQuiet_transformQuiet. }
  assert ((Transform transformers dto).2 = None ↔ Forall (transformQuiet (topFlag dto)) fs)
    as Hquiet.
  { rewrite Ht1, Ht3. apply Forall_iff. intros f. apply fieldQuiet_transformQuiet. }
  split_and!; try done.
  - intros f. apply fieldQuiet_transformQuiet.
  - intros i field fieldVal msg Hi Hfail.
    assert (¬ Forall (transformQuiet (topFlag dto)) fs) as Hnot.
    { intros Hall. rewrite Forall_forall in Hall.
      destruct (Hall (field, fieldVal)) as [Hnested Hown].
      { by eapply list_elem_of_lookup_2. }
      cbn in *. destruct Hfail as [Hfail|Hfail]; [by destruct (Hown msg)|].
      apply Exists_exists in Hfail as (err & Hin & Herr).
      rewrite Forall_forall in Hnested. by apply Herr, Hnested. }
    rewrite <- Hquiet, Ht1 in Hnot. apply Ht2 in Hnot.
    eexists. split; [exact Hnot|]. split; [done|]. cbn. by apply Ht2.
Qed.

End Failures.

(** *** The two claims as the specification words them, on concrete records *)

(** A transformer that fails with [msg] and leaves the value alone. *)
Definition failing (msg : string) : TransformFunc := λ v, (v, Some msg).

(** The built-ins and two registered transformers that always fail. *)
Definition failingTransformers : gmap string TransformFunc :=
  AddTransformer "mark" (failing "marked")
    (AddTransformer "boom" (failing "boom") (builtinTransformers (H:=asciiOnly))).

(** A struct with one field [Name], tagged [transform:"ttag"], holding [s]. *)
Definition inner (ttag s : string) : Value :=
  VStruct [(exported "Name" [("transform", ttag)], VString s)].

(** [Outer{Inner Inner}], the field untagged, and its [Name] to be trimmed. *)
Definition untaggedOuter (s : string) : option Value :=
  Some (VPointer (Some (VStruct [(exported "Inner" [], inner "trim" s)]))).

(** The untagged field [Inner] does not keep its value: the recursion trims
    the [Name] nested in it. *)
Lemma C5_counterexample :
  Tag_Get (exported "Inner" []) "transform" = ""
  ∧ Transform (H:=asciiOnly) (builtinTransformers (H:=asciiOnly)) (untaggedOuter "  x  ")
    = (untaggedOuter "x", None)
  ∧ untaggedOuter "x" ≠ untaggedOuter "  x  ".
Proof. split_and!; [reflexivity|reflexivity|discriminate]. Qed.

(** [Outer{Inner Inner `transform:"mark"`}] with [Inner.Name] tagged
    [transform:"boom"]. *)
Definition markedOuter : option Value :=
  Some (VPointer (Some (VStruct
    [(exported "Inner" [("transform", "mark")], inner "boom" "x")]))).

(** The recursion into [Inner] fails; the field's own transform [mark],
    which would fail too and be recorded under [Inner], is not run: the
    error has the nested failure only. *)
Lemma C4_counterexample :
  Tag_Get (exported "Inner" [("transform", "mark")]) "transform" = "mark"
  ∧ (applyTransformations (H:=asciiOnly) failingTransformers
       (Field_flag (Elem_flag ValueOf_flag) (exported "Inner" [("transform", "mark")]))
       (inner "boom" "x") (exported "Inner" [("transform", "mark")])).2
    = Some "marked"
  ∧ Transform (H:=asciiOnly) failingTransformers markedOuter
    = (markedOuter,
       Some (NewErr "transformation failed" {[ "Inner.Name" := ["boom"] ]}))
  ∧ ({[ "Inner.Name" := ["boom"] ]} : gmap string (list string)) !! "Inner" = None.
Proof. split_and!; reflexivity. Qed.

(** The same field as a slice: the elements fail and the field's own
    transform is run all the same. *)
Example own_tag_on_slice :
  Transform (H:=asciiOnly) failingTransformers
    (Some (VPointer (Some (VStruct
       [(exported "Items" [("transform", "mark")], VSlice [inner "boom" "x"])]))))
  = (Some (VPointer (Some (VStruct
       [(exported "Items" [("transform", "mark")], VSlice [inner "boom" "x"])]))),
     Some (NewErr "transformation failed"
             {[ "Items[0].Name" := ["boom"]; "Items" := ["marked"] ]})).
Proof. reflexivity. Qed.

(** ** The built-in transforms on ASCII strings *)

Module ASCII.
Import Strings.

Lemma str_bytes (s : string) : str (bytes s) = s.
Proof. apply String.string_of_list_ascii_of_string. Qed.

Lemma bytes_str (l : list ascii) : bytes (str l) = l.
Proof. apply String.list_ascii_of_string_of_list_ascii. Qed.

(** Every byte is below [utf8.RuneSelf]. *)
Definition allASCII (l : list ascii) : Prop := Forall (λ c, nonASCII c = false) l.

Lemma isASCII_allASCII (s : string) : isASCII s = true ↔ allASCII (bytes s).
Proof.
  unfold isASCII, allASCII. rewrite forallb_forall, Forall_forall.
  setoid_rewrite <- list_elem_of_In. setoid_rewrite negb_true_iff. done.
Qed.

(** The bytes [remove_whitespace] keeps. *)
Definition kept (c : ascii) : Prop :=
  c ≠ " "%char ∧ c ≠ "009"%char ∧ c ≠ "010"%char ∧ c ≠ "013"%char.

(** Facts about single bytes, each checked on the 256 of them. *)
Ltac by_cases_on_byte c := destruct c as [[] [] [] [] [] [] [] []]; vm_compute; intuition congruence.

Lemma lowerByte_nonASCII c : nonASCII (lowerByte c) = nonASCII c.
Proof. by_cases_on_byte c. Qed.
Lemma upperByte_nonASCII c : nonASCII (upperByte c) = nonASCII c.
Proof. by_cases_on_byte c. Qed.
Lemma lowerByte_space c : asciiSpace (lowerByte c) = asciiSpace c.
Proof. by_cases_on_byte c. Qed.
Lemma upperByte_space c : asciiSpace (upperByte c) = asciiSpace c.
Proof. by_cases_on_byte c. Qed.
Lemma lowerByte_idemp c : lowerByte (lowerByte c) = lowerByte c.
Proof. by_cases_on_byte c. Qed.
Lemma upperByte_idemp c : upperByte (upperByte c) = upperByte c.
Proof. by_cases_on_byte c. Qed.
Lemma lowerByte_kept c : kept c → kept (lowerByte c).
Proof. unfold kept. by_cases_on_byte c. Qed.
Lemma upperByte_kept c : kept c → kept (upperByte c).
Proof. unfold kept. by_cases_on_byte c. Qed.
Lemma space_not_kept c : asciiSpace c = false → kept c.
Proof. unfold kept. by_cases_on_byte c. Qed.

(** *** [TrimSpace] on ASCII bytes *)

Fixpoint dropSpaces (l : list ascii) : list ascii :=
  match l with
  | [] => []
  | c :: l' => if asciiSpace c then dropSpaces l' else l
  end.

Definition trimBytes (l : list ascii) : list ascii :=
  reverse (dropSpaces (reverse (dropSpaces l))).

(** The first byte, if any, is not a space. *)
Definition headKept (l : list ascii) : Prop :=
  match l with
  | [] => True
  | c :: _ => asciiSpace c = false
  end.

(** Trimming would remove nothing. *)
Definition trimmed (l : list ascii) : Prop := headKept l ∧ headKept (reverse l).

Lemma trimScan_ascii (l : list ascii) : allASCII l → trimScan l = inl (dropSpaces l).
Proof.
  induction 1 as [|c l Hc _ IH]; [done|]. cbn. rewrite Hc.
  by destruct (asciiSpace c).
Qed.

Lemma dropSpaces_suffix (l : list ascii) : ∃ sp, l = sp ++ dropSpaces l.
Proof.
  induction l as [|c l [sp IH]]; [by exists []|]. cbn.
  destruct (asciiSpace c); [|by exists []]. exists (c :: sp). cbn. by f_equal.
Qed.

Lemma dropSpaces_headKept (l : list ascii) : headKept (dropSpaces l).
Proof. induction l as [|c l IH]; [done|]. cbn. by destruct (asciiSpace c) eqn:Hc. Qed.

Lemma headKept_dropSpaces (l : list ascii) : headKept l → dropSpaces l = l.
Proof. destruct l as [|c l]; [done|]. cbn. by intros ->. Qed.

Lemma headKept_prefix (l1 l2 : list ascii) : headKept (l1 ++ l2) → headKept l1.
Proof. by destruct l1. Qed.

Lemma allASCII_dropSpaces (l : list ascii) : allASCII l → allASCII (dropSpaces l).
Proof.
  intros Hl. destruct (dropSpaces_suffix l) as [sp Hsp].
  rewrite Hsp in Hl. by apply Forall_app in Hl as [_ ?].
Qed.

Lemma allASCII_reverse (l : list ascii) : allASCII l → allASCII (reverse l).
Proof. unfold allASCII. by rewrite Forall_reverse. Qed.

Lemma allASCII_trimBytes (l : list ascii) : allASCII l → allASCII (trimBytes l).
Proof.
  intros Hl. unfold trimBytes.
  by apply allASCII_reverse, allASCII_dropSpaces, allASCII_reverse, allASCII_dropSpaces.
Qed.

Lemma trimBytes_trimmed (l : list ascii) : trimmed (trimBytes l).
Proof.
  unfold trimmed, trimBytes. rewrite reverse_involutive.
  split; [|apply dropSpaces_headKept].
  destruct (dropSpaces_suffix (reverse (dropSpaces l))) as [sp Hsp].
  apply (headKept_prefix _ (reverse sp)).
  rewrite <- reverse_app, <- Hsp, reverse_involutive. apply dropSpaces_headKept.
Qed.

Lemma trimmed_trimBytes (l : list ascii) : trimmed l → trimBytes l = l.
Proof.
  intros [H1 H2]. unfold trimBytes.
  by rewrite (headKept_dropSpaces l), (headKept_dropSpaces (reverse l)), reverse_involutive.
Qed.

Lemma trimmed_fmap (f : ascii → ascii) (l : list ascii) :
  (∀ c, asciiSpace (f c) = asciiSpace c) → trimmed l → trimmed (f <$> l).
Proof.
  intros Hf. assert (∀ k, headKept k → headKept (f <$> k)) as Hh.
  { intros [|c k]; [done|]. cbn. by rewrite Hf. }
  intros [H1 H2]. split; [by apply Hh|]. rewrite <- fmap_reverse. by apply Hh.
Qed.

Lemma trimmed_filter (P : ascii → Prop) `{∀ c, Decision (P c)} (l : list ascii) :
  (∀ c, asciiSpace c = false → P c) → trimmed l → trimmed (filter P l).
Proof.
  intros HP. assert (∀ k, headKept k → headKept (filter P k)) as Hh.
  { intros [|c k]; [done|]. intros Hc. by rewrite filter_cons_True by auto. }
  intros [H1 H2]. split; [by apply Hh|]. rewrite <- filter_reverse. by apply Hh.
Qed.

(** *** The four built-ins as functions on ASCII byte lists *)

Definition removeBytes (l : list ascii) : list ascii :=
  filter (λ c, c ≠ "013"%char) (filter (λ c, c ≠ "010"%char)
    (filter (λ c, c ≠ "009"%char) (filter (λ c, c ≠ " "%char) l))).

Lemma removeBytes_kept (l : list ascii) : Forall kept (removeBytes l).
Proof.
  unfold removeBytes, kept. apply Forall_forall. intros c.
  rewrite !list_elem_of_filter. tauto.
Qed.

Lemma kept_removeBytes (l : list ascii) : Forall kept l → removeBytes l = l.
Proof.
  unfold removeBytes. induction 1 as [|c l (?&?&?&?) _ IH]; [done|].
  rewrite !filter_cons_True by done. by f_equal.
Qed.

Lemma removeBytes_sublist (P : ascii → Prop) (l : list ascii) :
  Forall P l → Forall P (removeBytes l).
Proof.
  unfold removeBytes. intros Hl. rewrite Forall_forall in Hl |- *. intros c.
  rewrite !list_elem_of_filter. intros (_&_&_&_&Hc). auto.
Qed.

Lemma trimmed_removeBytes (l : list ascii) : trimmed l → trimmed (removeBytes l).
Proof.
  intros Hl. unfold removeBytes.
  repeat (apply trimmed_filter; [intros c Hc; by apply space_not_kept in Hc as (?&?&?&?)|]).
  done.
Qed.

Lemma trimBytes_sublist (P : ascii → Prop) (l : list ascii) :
  Forall P l → Forall P (trimBytes l).
Proof.
  assert (∀ k, Forall P k → Forall P (dropSpaces k)) as Hd.
  { intros k Hk. destruct (dropSpaces_suffix k) as [sp Hsp].
    rewrite Hsp in Hk. by apply Forall_app in Hk as [_ ?]. }
  intros Hl. unfold trimBytes. by apply Forall_reverse, Hd, Forall_reverse, Hd.
Qed.

Section Strings.
Context `{Unicode}.

Lemma TrimSpace_ascii (s : string) :
  isASCII s = true → TrimSpace s = str (trimBytes (bytes s)).
Proof.
  intros Hs%isASCII_allASCII. unfold TrimSpace, trimBytes.
  rewrite (trimScan_ascii _ Hs).
  by rewrite (trimScan_ascii _ (allASCII_reverse _ (allASCII_dropSpaces _ Hs))).
Qed.

Lemma ToLower_ascii (s : string) :
  isASCII s = true → ToLower s = str (lowerByte <$> bytes s).
Proof. unfold ToLower. by intros ->. Qed.

Lemma ToUpper_ascii (s : string) :
  isASCII s = true → ToUpper s = str (upperByte <$> bytes s).
Proof. unfold ToUpper. by intros ->. Qed.

End Strings.

Lemma removeWhitespace_bytes (s : string) : removeWhitespace s = str (removeBytes (bytes s)).
Proof. unfold removeWhitespace, removeByte, removeBytes. by rewrite !bytes_str. Qed.

End ASCII.

(** ** The built-in pipeline *)

Inductive Builtin := Trim | RemoveWhitespace | Lowercase | Uppercase.

#[global] Instance Builtin_eq_dec : EqDecision Builtin.
Proof. solve_decision. Defined.

Definition nameOf (b : Builtin) : string :=
  match b with
  | Trim => "trim"
  | RemoveWhitespace => "remove_whitespace"
  | Lowercase => "lowercase"
  | Uppercase => "uppercase"
  end.

Definition builtinOf (name : string) : option Builtin :=
  if decide (name = "trim") then Some Trim
  else if decide (name = "remove_whitespace") then Some RemoveWhitespace
  else if decide (name = "lowercase") then Some Lowercase
  else if decide (name = "uppercase") then Some Uppercase
  else None.

Definition priorityOf (b : Builtin) : Z :=
  match b with Trim => 1 | RemoveWhitespace => 2 | Lowercase => 3 | Uppercase => 4 end.

Lemma builtinOf_nameOf (b : Builtin) : builtinOf (nameOf b) = Some b.
Proof. by destruct b. Qed.

Lemma builtinOf_Some (name : string) (b : Builtin) : builtinOf name = Some b → name = nameOf b.
Proof. unfold builtinOf. repeat case_decide; intros [= <-]; done. Qed.

Lemma priority_builtinOf (name : string) :
  priority name = match builtinOf name with Some b => priorityOf b | None => 0 end.
Proof.
  unfold builtinOf. repeat case_decide; subst; try reflexivity.
  apply priority_unlisted. unfold priorityLookup. cbn.
  by rewrite !lookup_insert_ne, lookup_empty.
Qed.

Section Pipeline.
Context `{Strings.Unicode}.

Definition applyBuiltin (b : Builtin) : string → string :=
  match b with
  | Trim => Strings.TrimSpace
  | RemoveWhitespace => removeWhitespace
  | Lowercase => Strings.ToLower
  | Uppercase => Strings.ToUpper
  end.

Lemma builtinTransformers_lookup (name : string) :
  builtinTransformers !! name = (λ b, onString (applyBuiltin b)) <$> builtinOf name.
Proof.
  unfold builtinTransformers, addStringTransformers, AddTransformer, builtinOf.
  repeat case_decide; subst; try reflexivity.
  by rewrite !lookup_insert_ne, lookup_empty.
Qed.

(** The loop of [applyTransformations] with the built-in registry, on the
    string of a string value. *)
Definition runBuiltins (names : list string) (s : string) : string :=
  foldl (λ s t, match builtinOf t with Some b => applyBuiltin b s | None => s end) s names.

Lemma runTransforms_builtin_string (names : list string) :
  ∀ s, runTransforms builtinTransformers (VString s) names
       = (VString (runBuiltins names s), None).
Proof.
  induction names as [|t names IH]; intros s; [done|]. cbn.
  rewrite builtinTransformers_lookup. destruct (builtinOf t) as [b|]; cbn; apply IH.
Qed.

Lemma runTransforms_builtin_other (names : list string) (v : Value) :
  kindOf v ≠ String_ → runTransforms builtinTransformers v names = (v, None).
Proof.
  intros Hv. induction names as [|t names IH]; [done|]. cbn.
  rewrite builtinTransformers_lookup. destruct (builtinOf t) as [b|]; cbn; [|done].
  by destruct v.
Qed.

(** *** What each built-in establishes, and what keeps it *)

Import Strings ASCII.

(** [applyBuiltin b] would change nothing. *)
Definition settled (b : Builtin) (s : string) : Prop :=
  match b with
  | Trim => trimmed (bytes s)
  | RemoveWhitespace => Forall kept (bytes s)
  | Lowercase => lowerByte <$> bytes s = bytes s
  | Uppercase => upperByte <$> bytes s = bytes s
  end.

(** The two built-ins that undo each other's work. *)
Definition conflict (b b' : Builtin) : Prop :=
  (b = Lowercase ∧ b' = Uppercase) ∨ (b = Uppercase ∧ b' = Lowercase).

Lemma applyBuiltin_bytes (b : Builtin) (s : string) :
  isASCII s = true →
  applyBuiltin b s
  = str (match b with
         | Trim => trimBytes (bytes s)
         | RemoveWhitespace => removeBytes (bytes s)
         | Lowercase => lowerByte <$> bytes s
         | Uppercase => upperByte <$> bytes s
         end).
Proof.
  intros Hs. destruct b; cbn.
  - by apply TrimSpace_ascii.
  - apply removeWhitespace_bytes.
  - by apply ToLower_ascii.
  - by apply ToUpper_ascii.
Qed.

Lemma applyBuiltin_ascii (b : Builtin) (s : string) :
  isASCII s = true → isASCII (applyBuiltin b s) = true.
Proof.
  intros Hs. rewrite applyBuiltin_bytes by done. apply isASCII_allASCII in Hs.
  apply isASCII_allASCII. rewrite bytes_str. destruct b.
  - by apply allASCII_trimBytes.
  - by apply removeBytes_sublist.
  - unfold allASCII. rewrite Forall_fmap. eapply Forall_impl; [exact Hs|].
    intros c Hc. cbn. by rewrite lowerByte_nonASCII.
  - unfold allASCII. rewrite Forall_fmap. eapply Forall_impl; [exact Hs|].
    intros c Hc. cbn. by rewrite upperByte_nonASCII.
Qed.

Lemma applyBuiltin_settles (b : Builtin) (s : string) :
  isASCII s = true → settled b (applyBuiltin b s).
Proof.
  intros Hs. rewrite applyBuiltin_bytes by done. unfold settled. rewrite bytes_str.
  destruct b.
  - apply trimBytes_trimmed.
  - apply removeBytes_kept.
  - rewrite <- list_fmap_compose. apply list_fmap_ext. intros _ c _. apply lowerByte_idemp.
  - rewrite <- list_fmap_compose. apply list_fmap_ext. intros _ c _. apply upperByte_idemp.
Qed.

Lemma settled_noop (b : Builtin) (s : string) :
  isASCII s = true → settled b s → applyBuiltin b s = s.
Proof.
  intros Hs Hb. rewrite applyBuiltin_bytes by done. rewrite <- (str_bytes s) at 5.
  f_equal. destruct b; cbn in Hb.
  - by apply trimmed_trimBytes.
  - by apply kept_removeBytes.
  - done.
  - done.
Qed.

Lemma fmap_fixed_sublist (f : ascii → ascii) (l k : list ascii) :
  f <$> l = l → (∀ c, c ∈ k → c ∈ l) → f <$> k = k.
Proof.
  intros Hl Hk. rewrite <- (list_fmap_id k) at 2. apply list_fmap_ext.
  intros i c Hc. apply list_elem_of_lookup_2, Hk, list_elem_of_lookup in Hc as [j Hj].
  apply (f_equal (.!! j)) in Hl. rewrite list_lookup_fmap, Hj in Hl. by injection Hl.
Qed.

Lemma settled_preserved (b b' : Builtin) (s : string) :
  isASCII s = true → settled b s → ¬ conflict b b' → settled b (applyBuiltin b' s).
Proof.
  intros Hs Hb Hc. rewrite applyBuiltin_bytes by done. unfold settled. rewrite bytes_str.
  destruct b, b'; cbn in Hb;
    try (exfalso; apply Hc; unfold conflict; by auto).
  - apply trimBytes_trimmed.
  - by apply trimmed_removeBytes.
  - apply trimmed_fmap; [apply lowerByte_space|done].
  - apply trimmed_fmap; [apply upperByte_space|done].
  - by apply trimBytes_sublist.
  - apply removeBytes_kept.
  - rewrite Forall_fmap. eapply Forall_impl; [exact Hb|]. apply lowerByte_kept.
  - rewrite Forall_fmap. eapply Forall_impl; [exact Hb|]. apply upperByte_kept.
  - apply (fmap_fixed_sublist _ _ _ Hb), Forall_forall, trimBytes_sublist.
    by apply Forall_forall.
  - apply (fmap_fixed_sublist _ _ _ Hb), Forall_forall, removeBytes_sublist.
    by apply Forall_forall.
  - rewrite <- list_fmap_compose. apply list_fmap_ext. intros _ c _. apply lowerByte_idemp.
  - apply (fmap_fixed_sublist _ _ _ Hb), Forall_forall, trimBytes_sublist.
    by apply Forall_forall.
  - apply (fmap_fixed_sublist _ _ _ Hb), Forall_forall, removeBytes_sublist.
    by apply Forall_forall.
  - rewrite <- list_fmap_compose. apply list_fmap_ext. intros _ c _. apply upperByte_idemp.
Qed.


(** *** One run of the ordered pipeline *)

Lemma runBuiltins_cons (t : string) (names : list string) (s : string) :
  runBuiltins (t :: names) s
  = runBuiltins names (match builtinOf t with Some b => applyBuiltin b s | None => s end).
Proof. reflexivity. Qed.


Lemma runBuiltins_preserves (b : Builtin) (names : list string) :
  (∀ t b', t ∈ names → builtinOf t = Some b' → ¬ conflict b b') →
  ∀ s, isASCII s = true → settled b s → settled b (runBuiltins names s).
Proof.
  induction names as [|t names IH]; intros Hnc s Hs Hb; [done|]. cbn.
  apply IH.
  - intros t' b' Ht'. apply Hnc. by right.
  - destruct (builtinOf t); [by apply applyBuiltin_ascii|done].
  - destruct (builtinOf t) as [b'|] eqn:Ht; [|done].
    apply settled_preserved; [done..|]. eapply Hnc; [left|done].
Qed.

(** In a list sorted by priority, what follows a name has no smaller
    priority. *)
Lemma sorted_tail_priority (t t' : string) (names : list string) :
  StronglySorted byPriority (t :: names) → t' ∈ names → priority t ≤ priority t'.
Proof.
  intros [_ Hall]%StronglySorted_inv Ht'. rewrite Forall_forall in Hall. by apply Hall.
Qed.

(** After one run of the sorted pipeline every built-in named in it is
    settled, except [lowercase] when [uppercase] is named too. *)
Lemma runBuiltins_settles (b : Builtin) (names : list string) :
  StronglySorted byPriority names → nameOf b ∈ names →
  (b = Lowercase → "uppercase" ∉ names) →
  ∀ s, isASCII s = true → settled b (runBuiltins names s).
Proof.
  induction names as [|t names IH]; intros Hsort Hin Hup s Hs.
  { by apply elem_of_nil in Hin. }
  cbn. destruct (decide (nameOf b ∈ names)) as [Hrest|Hrest].
  - apply IH; [by apply StronglySorted_inv in Hsort as [? _]|done| |].
    + intros Hb Hu. apply (Hup Hb). by right.
    + destruct (builtinOf t); [by apply applyBuiltin_ascii|done].
  - apply elem_of_cons in Hin as [Ht|?]; [|done]. subst t.
    rewrite builtinOf_nameOf. apply runBuiltins_preserves.
    + intros t' b' Ht' Hb' [[-> ->]|[-> ->]].
      * apply (Hup eq_refl). right. by rewrite (builtinOf_Some _ _ Hb') in Ht'.
      * pose proof (sorted_tail_priority _ _ _ Hsort Ht') as Hp.
        rewrite (priority_builtinOf t'), Hb' in Hp. cbn [nameOf priorityOf] in Hp.
        assert (priority "uppercase" = 4) by reflexivity. lia.
    + by apply applyBuiltin_ascii.
    + by apply applyBuiltin_settles.
Qed.




End Pipeline.

(** ** Induction on values *)

Section ValueInduction.
Variable P : Value → Prop.
Hypothesis HBool : ∀ b, P (VBool b).
Hypothesis HInt : ∀ k i, P (VInt k i).
Hypothesis HUint : ∀ k u, P (VUint k u).
Hypothesis HFloat : ∀ k f, P (VFloat k f).
Hypothesis HString : ∀ s, P (VString s).
Hypothesis HNil : P (VPointer None).
Hypothesis HPointer : ∀ elem, P elem → P (VPointer (Some elem)).
Hypothesis HStruct : ∀ fs, Forall (λ f, P f.2) fs → P (VStruct fs).
Hypothesis HSlice : ∀ es, Forall P es → P (VSlice es).
Hypothesis HArray : ∀ es, Forall P es → P (VArray es).
Hypothesis HOpaque : ∀ k, P (VOpaque k).

Fixpoint Value_nested_ind (v : Value) : P v :=
  match v with
  | VBool b => HBool b
  | VInt k i => HInt k i
  | VUint k u => HUint k u
  | VFloat k f => HFloat k f
  | VString s => HString s
  | VPointer None => HNil
  | VPointer (Some elem) => HPointer elem (Value_nested_ind elem)
  | VStruct fs =>
      HStruct fs
        ((fix fields (fs : list (StructField * Value)) : Forall (λ f, P f.2) fs :=
            match fs with
            | [] => @List.Forall_nil _ _
            | (field, x) :: rest =>
                @List.Forall_cons _ (λ f, P f.2) (field, x) rest
                  (Value_nested_ind x) (fields rest)
            end) fs)
  | VSlice es =>
      HSlice es
        ((fix elems (es : list Value) : Forall P es :=
            match es with
            | [] => @List.Forall_nil _ _
            | e :: rest => @List.Forall_cons _ P e rest (Value_nested_ind e) (elems rest)
            end) es)
  | VArray es =>
      HArray es
        ((fix elems (es : list Value) : Forall P es :=
            match es with
            | [] => @List.Forall_nil _ _
            | e :: rest => @List.Forall_cons _ P e rest (Value_nested_ind e) (elems rest)
            end) es)
  | VOpaque k => HOpaque k
  end.

End ValueInduction.




(** ** A second [Transform] with the built-ins changes nothing *)

Section Idempotence.
Context `{Strings.Unicode}.

(** What [applyTransformations] with the built-in registry makes of the
    string of a string field. *)
Definition ownString (fl : flag) (field : StructField) (s : string) : string :=
  if negb (CanSet fl) then s
  else if decide (Tag_Get field "transform" = "") then s
  else runBuiltins (orderTransforms (Strings.Fields (Tag_Get field "transform"))) s.

Lemma applyTransformations_builtin_string (fl : flag) (field : StructField) (s : string) :
  applyTransformations builtinTransformers fl (VString s) field
  = (VString (ownString fl field s), None).
Proof.
  unfold applyTransformations, ownString. destruct (negb (CanSet fl)); [done|].
  case_decide; [done|]. apply runTransforms_builtin_string.
Qed.

Lemma applyTransformations_builtin_other (fl : flag) (field : StructField) (v : Value) :
  kindOf v ≠ String_ → applyTransformations builtinTransformers fl v field = (v, None).
Proof.
  intros Hv. unfold applyTransformations. destruct (negb (CanSet fl)); [done|].
  case_decide; [done|]. by apply runTransforms_builtin_other.
Qed.


Lemma transformOwn_builtin_other (ffl : flag) (field : StructField) (v : Value)
    (g : gmap string (list string)) :
  kindOf v ≠ String_ → transformOwn builtinTransformers ffl field v g = (v, g).
Proof. intros Hv. unfold transformOwn. by rewrite applyTransformations_builtin_other. Qed.












End Idempotence.

(** *** Beyond ASCII

    [remove_whitespace] takes single bytes out of the string, and two bytes
    it brings together can form a code point that [trim] removes: the bytes
    [C2 20 A0] are no space to [trim] (the byte [C2] and the byte [A0] are
    not valid UTF-8 where they stand), [remove_whitespace] leaves [C2 A0],
    which is U+00A0, and a second [trim] removes it. *)




(** ** The keys of nested failures *)

(** The string has no byte [c]. *)
Fixpoint lacks (c : ascii) (s : string) : Prop :=
  match s with
  | EmptyString => True
  | String x s' => x ≠ c ∧ lacks c s'
  end.

(** What the name of a Go field is made of rules out the two bytes that
    separate the parts of a path. *)
Definition identifier (name : string) : Prop := lacks "." name ∧ lacks "[" name.

(** The keys an iteration on the field [name] may write: the name itself,
    and the name followed by a part that starts with [.] or [[]. *)
Definition touches (name key : string) : Prop :=
  key = name ∨ ∃ r, key = name +:+ String "." r ∨ key = name +:+ String "[" r.

Lemma lacks_app_inj (c : ascii) (d d' x x' : string) :
  lacks c d → lacks c d' → d +:+ String c x = d' +:+ String c x' → d = d' ∧ x = x'.
Proof.
  revert d'. induction d as [|a d IH]; intros [|a' d'] Hd Hd'; cbn.
  - by intros [= ->].
  - intros [= <- _]. by destruct Hd' as [? _].
  - intros [= -> _]. by destruct Hd as [? _].
  - intros [= -> Heq]. destruct Hd as [_ Hd], Hd' as [_ Hd'].
    destruct (IH d' Hd Hd' Heq) as [-> ->]. done.
Qed.

Lemma identifier_touches (a b key : string) :
  identifier a → identifier b → touches a key → touches b key → a = b.
Proof.
  intros [Ha1 Ha2] [Hb1 Hb2] Hta Htb.
  assert (∀ a b r, lacks "." a → lacks "[" a → lacks "." b → lacks "[" b →
            (a = b +:+ String "." r ∨ a = b +:+ String "[" r) → False) as Hlong.
  { clear. intros a. induction a as [|x a IH]; intros [|y b] r Ha1 Ha2 Hb1 Hb2 [Heq|Heq];
      cbn in *; try discriminate; injection Heq as -> Heq;
      try (by destruct Ha1); try (by destruct Ha2);
      destruct Ha1, Ha2, Hb1, Hb2; eapply IH; eauto. }
  destruct Hta as [->|[r Hr]], Htb as [Hb|[r' Hr']]; [done|..].
  - exfalso. by apply (Hlong a b r').
  - subst key. exfalso. by apply (Hlong b a r).
  - assert (∀ c c' r r', (c = "."%char ∨ c = "["%char) → (c' = "."%char ∨ c' = "["%char) →
              a +:+ String c r = b +:+ String c' r' → a = b) as Hsame.
    { clear Hlong Hr Hr' key r r'. revert b Hb1 Hb2.
      induction a as [|x a IH]; intros [|y b] Hb1 Hb2 c c' r r' Hc Hc'; cbn.
      - done.
      - intros [= <- _]. destruct Hb1 as [? _], Hb2 as [? _]. by destruct Hc.
      - intros [= -> _]. destruct Ha1 as [? _], Ha2 as [? _]. by destruct Hc'.
      - intros [= -> Heq]. f_equal.
        destruct Ha1 as [_ Ha1], Ha2 as [_ Ha2], Hb1 as [_ Hb1], Hb2 as [_ Hb2].
        by apply (IH Ha1 Ha2 b Hb1 Hb2 c c' r r'). }
    destruct Hr as [Hr|Hr], Hr' as [Hr'|Hr']; rewrite Hr in Hr';
      [apply (Hsame "."%char "."%char r r')|apply (Hsame "."%char "["%char r r')
      |apply (Hsame "["%char "."%char r r')|apply (Hsame "["%char "["%char r r')]; auto.
Qed.

(** The decimal digits of an index have no [']']. *)
Lemma pretty_N_lacks (n : N) : lacks "]" (pretty n).
Proof.
  assert (∀ x s, lacks "]" s → lacks "]" (pretty_N_go x s)) as Hgo.
  { intros x. induction (N.lt_wf_0 x) as [x _ IH]. intros s Hs.
    destruct (decide (x = 0)%N) as [->|Hx]; [by rewrite pretty_N_go_0|].
    rewrite pretty_N_go_step by lia. apply IH.
    - apply N.div_lt; lia.
    - split; [|done]. unfold pretty_N_char. by repeat case_match. }
  unfold pretty, pretty_N. case_decide; [by split|]. by apply Hgo.
Qed.

Lemma string_app_cons (c : ascii) (s t : string) : String c s +:+ t = String c (s +:+ t).
Proof. reflexivity. Qed.

Lemma string_app_nil (t : string) : "" +:+ t = t.
Proof. reflexivity. Qed.

Lemma indexPrefix_inj (name : string) (j j' : nat) (k k' : string) :
  indexPrefix name j +:+ k = indexPrefix name j' +:+ k' → j = j' ∧ k = k'.
Proof.
  unfold indexPrefix. rewrite !string_app_assoc, !string_app_cons, !string_app_nil.
  intros Heq%(inj (String.app name)). injection Heq as Heq.
  apply lacks_app_inj in Heq as [Hj Hk]; try apply pretty_N_lacks.
  apply (inj pretty), Nat2N.inj in Hj. by injection Hk as ->.
Qed.

Section Paths.
Context `{Strings.Unicode}.
Variable transformers : gmap string TransformFunc.

Lemma mergeNested_other (prefix key : string) (fields g : gmap string (list string)) :
  (∀ k, key ≠ prefix +:+ k) → mergeNested prefix fields g !! key = g !! key.
Proof.
  intros Hk. rewrite mergeNested_union, lookup_union_r; [done|].
  apply (lookup_kmap_None (String.app prefix)). intros k Hkey. by destruct (Hk k).
Qed.

Lemma transformOwn_other (ffl : flag) (field : StructField) (fv : Value)
    (g : gmap string (list string)) (key : string) :
  key ≠ Name field → (transformOwn transformers ffl field fv g).2 !! key = g !! key.
Proof.
  intros Hk. unfold transformOwn. destruct applyTransformations as [fv' [err|]]; [|done].
  cbn. unfold appendViolation. by rewrite lookup_insert_ne.
Qed.

Lemma transformElem_other (ffl : flag) (field : StructField) (e : Value) (j : nat)
    (g : gmap string (list string)) (key : string) :
  (∀ k, key ≠ indexPrefix (Name field) j +:+ k) →
  (transformElem transformers ffl field e j g).2 !! key = g !! key.
Proof.
  intros Hk. unfold transformElem. destruct e; try done.
  destruct transformStruct as [e' [vErr|]]; [|done]. cbn. by apply mergeNested_other.
Qed.

Lemma transformElems_other (ffl : flag) (field : StructField) (es : list Value)
    (key : string) :
  ∀ j g,
    (∀ j' k, (j ≤ j')%nat → key ≠ indexPrefix (Name field) j' +:+ k) →
    (transformElems transformers ffl field es j g).2 !! key = g !! key.
Proof.
  induction es as [|e es IH]; intros j g Hk; [done|]. cbn.
  pose proof (transformElem_other ffl field e j g key (λ k, Hk j k (le_n j))) as He.
  destruct (transformElem transformers ffl field e j g) as [e' g1].
  specialize (IH (S j) g1). destruct (transformElems transformers ffl field es (S j) g1).
  cbn in *. rewrite IH; [done|]. intros j' k Hj'. apply Hk. lia.
Qed.

Lemma indexPrefix_touches (name : string) (j : nat) (k : string) :
  touches name (indexPrefix name j +:+ k).
Proof.
  right. eexists. right. unfold indexPrefix.
  by rewrite !string_app_assoc, !string_app_cons, !string_app_nil.
Qed.

Lemma dotted_touches (name k : string) : touches name ((name +:+ ".") +:+ k).
Proof. right. exists k. left. by rewrite string_app_assoc. Qed.

Lemma transformField_other (fl : flag) (field : StructField) (fieldVal : Value)
    (g : gmap string (list string)) (key : string) :
  ¬ touches (Name field) key →
  (transformField transformers fl field fieldVal g).2 !! key = g !! key.
Proof.
  intros Hk.
  assert (key ≠ Name field) as Hown by (intros ->; apply Hk; by left).
  assert (∀ k, key ≠ (Name field +:+ ".") +:+ k) as Hdot
    by (intros k ->; apply Hk, dotted_touches).
  unfold transformField.
  destruct fieldVal as [| | | | |[[]|]| |es| |]; try by apply transformOwn_other.
  - destruct transformStruct as [e' [vErr|]]; [|by apply transformOwn_other].
    cbn. by apply mergeNested_other.
  - destruct transformStruct as [e' [vErr|]]; [|by apply transformOwn_other].
    cbn. by apply mergeNested_other.
  - pose proof (transformElems_other (Field_flag fl field) field es key 0 g) as He.
    destruct transformElems as [es' g1]. rewrite transformOwn_other by done.
    apply He. intros j' k _ ->. apply Hk, indexPrefix_touches.
Qed.

Lemma transformFields_other (fl : flag) (fs : list (StructField * Value)) (key : string) :
  Forall (λ f, ¬ touches (Name f.1) key) fs →
  ∀ g, (transformFields transformers fl fs g).2 !! key = g !! key.
Proof.
  induction 1 as [|[field fv] fs Hf _ IH]; intros g; [done|]. cbn.
  pose proof (transformField_other fl field fv g key Hf) as Hstep.
  destruct (transformField transformers fl field fv g) as [fv' g1].
  specialize (IH g1). destruct (transformFields transformers fl fs g1). cbn in *.
  by rewrite IH.
Qed.

Lemma transformFields_app (fl : flag) (fs1 fs2 : list (StructField * Value)) :
  ∀ g, (transformFields transformers fl (fs1 ++ fs2) g).2
       = (transformFields transformers fl fs2 (transformFields transformers fl fs1 g).2).2.
Proof.
  induction fs1 as [|[field fv] fs1 IH]; intros g; [done|]. cbn.
  destruct (transformField transformers fl field fv g) as [fv' g1].
  specialize (IH g1).
  destruct (transformFields transformers fl (fs1 ++ fs2) g1).
  destruct (transformFields transformers fl fs1 g1). done.
Qed.

(** What the iteration on a field records under a key is still there at the
    end, if no later field touches that key. *)
Lemma transformViolations_field (fl : flag) (fs1 fs2 : list (StructField * Value))
    (field : StructField) (fieldVal : Value) (key : string) (msgs : list string) :
  Forall (λ f, ¬ touches (Name f.1) key) fs2 →
  (∀ g, (transformField transformers fl field fieldVal g).2 !! key = Some msgs) →
  transformViolations transformers fl (fs1 ++ (field, fieldVal) :: fs2) !! key = Some msgs.
Proof.
  intros Hlater Hstep. unfold transformViolations. rewrite transformFields_app. cbn.
  specialize (Hstep (transformFields transformers fl fs1 ∅).2).
  destruct (transformField transformers fl field fieldVal _) as [fv' g1].
  pose proof (transformFields_other fl fs2 key Hlater g1) as Ho.
  destruct (transformFields transformers fl fs2 g1). cbn in *. by rewrite Ho.
Qed.

Lemma transformElems_lookup (ffl : flag) (field : StructField) (es1 es2 : list Value)
    (e e' : Value) (vErr : Err) (k : string) (msgs : list string) :
  kindOf e = Struct →
  transformStruct transformers (Index_flag ffl) e = (e', Some vErr) →
  Fields vErr !! k = Some msgs →
  ∀ j g,
    (transformElems transformers ffl field (es1 ++ e :: es2) j g).2
      !! (indexPrefix (Name field) (j + length es1) +:+ k) = Some msgs.
Proof.
  intros Hk Hr Hmsgs. induction es1 as [|e1 es1 IH]; intros j g; cbn.
  - replace (j + 0)%nat with j by lia.
    assert ((transformElem transformers ffl field e j g).2
              !! (indexPrefix (Name field) j +:+ k) = Some msgs) as He.
    { struct_kind e Hk. cbn. rewrite Hr. cbn. by apply mergeNested_lookup. }
    destruct (transformElem transformers ffl field e j g) as [e0 g1].
    pose proof (transformElems_other ffl field es2
                  (indexPrefix (Name field) j +:+ k) (S j) g1) as Ho.
    destruct (transformElems transformers ffl field es2 (S j) g1). cbn in *.
    rewrite Ho; [done|]. intros j' k' Hj' [Hjj _]%indexPrefix_inj. lia.
  - destruct (transformElem transformers ffl field e1 j g) as [e0 g1].
    specialize (IH (S j) g1).
    destruct (transformElems transformers ffl field (es1 ++ e :: es2) (S j) g1).
    cbn in *. by replace (j + S (length es1))%nat with (S j + length es1)%nat by lia.
Qed.

End Paths.

(** A field [Transform] does not recurse into. *)
Definition notRecursed (v : Value) : Prop :=
  match v with
  | VStruct _ | VSlice _ | VPointer (Some (VStruct _)) => False
  | _ => True
  end.

Section NestedPaths.
Context `{Strings.Unicode}.
Variable transformers : gmap string TransformFunc.

Lemma transformStruct_fails (fl : flag) (fs : list (StructField * Value)) (k : string)
    (msgs : list string) :
  transformViolations transformers fl fs !! k = Some msgs →
  ∃ v', transformStruct transformers fl (VStruct fs)
        = (v', Some (NewErr "transformation failed" (transformViolations transformers fl fs))).
Proof.
  intros Hk. exists (transformStruct transformers fl (VStruct fs)).1.
  pose proof (transformStruct_err transformers fl fs) as He.
  rewrite decide_False in He by (intros Hv; by rewrite Hv, lookup_empty in Hk).
  destruct transformStruct. cbn in *. by subst.
Qed.

Lemma later_fields_apart (name key : string) (fs2 : list (StructField * Value)) :
  identifier name → touches name key →
  Forall (λ f, identifier (Name f.1) ∧ Name f.1 ≠ name) fs2 →
  Forall (λ f, ¬ touches (Name f.1) key) fs2.
Proof.
  intros Hid Ht Hfs. eapply Forall_impl; [exact Hfs|]. intros f [Hf Hne] Htf.
  apply Hne. by apply (identifier_touches _ _ key).
Qed.

(** C3: a failure met in the recursion into a field is recorded under the
    path of the nested failure prefixed with the field's name.  Let the
    names of the field and of the fields after it be Go identifiers, no
    later field having the same name.  Then a nested violation under [k]
    of a struct field or of the struct behind a pointer field is reported
    under [Name.k], one of element [i] of a slice field under
    [Name[i].k], and the failure of the own transforms of a field that is
    not recursed into under [Name].  As [k] is the path inside the nested
    struct, built the same way, the prefixes add up level after level. *)
Theorem C3_nested_paths_prefixed (fl : flag) (fs1 fs2 : list (StructField * Value))
    (field : StructField) (fieldVal : Value) :
  identifier (Name field) →
  Forall (λ f, identifier (Name f.1) ∧ Name f.1 ≠ Name field) fs2 →
  let fs := fs1 ++ (field, fieldVal) :: fs2 in
  let ffl := Field_flag fl field in
  (∀ inner k msgs,
      fieldVal = VStruct inner →
      transformViolations transformers ffl inner !! k = Some msgs →
      transformViolations transformers fl fs !! (Name field +:+ "." +:+ k) = Some msgs)
  ∧ (∀ inner k msgs,
        fieldVal = VPointer (Some (VStruct inner)) →
        transformViolations transformers (Elem_flag ffl) inner !! k = Some msgs →
        transformViolations transformers fl fs !! (Name field +:+ "." +:+ k) = Some msgs)
  ∧ (∀ es i inner k msgs,
        fieldVal = VSlice es → es !! i = Some (VStruct inner) →
        transformViolations transformers (Index_flag ffl) inner !! k = Some msgs →
        transformViolations transformers fl fs
          !! (Name field +:+ "[" +:+ pretty (N.of_nat i) +:+ "]." +:+ k) = Some msgs)
  ∧ (∀ v' err,
        notRecursed fieldVal →
        applyTransformations transformers ffl fieldVal field = (v', Some err) →
        ∃ before,
          transformViolations transformers fl fs !! Name field = Some (before ++ [err])).
Proof.
  intros Hid Hlater fs ffl. split_and!.
  - intros inner k msgs -> Hk. destruct (transformStruct_fails _ _ _ _ Hk) as [v' Hr].
    rewrite <- string_app_assoc. apply transformViolations_field.
    + eapply later_fields_apart; [done|apply dotted_touches|done].
    + intros g. cbn. fold ffl. rewrite Hr. cbn. by apply mergeNested_lookup.
  - intros inner k msgs -> Hk. destruct (transformStruct_fails _ _ _ _ Hk) as [v' Hr].
    rewrite <- string_app_assoc. apply transformViolations_field.
    + eapply later_fields_apart; [done|apply dotted_touches|done].
    + intros g. cbn. fold ffl. rewrite Hr. cbn. by apply mergeNested_lookup.
  - intros es i inner k msgs -> Hi Hk.
    destruct (transformStruct_fails _ _ _ _ Hk) as [v' Hr].
    replace (Name field +:+ "[" +:+ pretty (N.of_nat i) +:+ "]." +:+ k)
      with (indexPrefix (Name field) i +:+ k)
      by (unfold indexPrefix; by rewrite !string_app_assoc).
    apply transformViolations_field.
    + eapply later_fields_apart; [done|apply indexPrefix_touches|done].
    + intros g. cbn. fold ffl.
      pose proof (take_drop_middle es i _ Hi) as Hes.
      pose proof (transformElems_lookup transformers ffl field (take i es) (drop (S i) es)
                    (VStruct inner) v' _ k msgs eq_refl Hr Hk 0 g) as Hl.
      rewrite Hes in Hl. rewrite length_take_le in Hl
        by (apply lookup_lt_Some in Hi; lia).
      destruct transformElems as [es' g1]. rewrite transformOwn_other; [done|].
      intros Heq. pose proof (indexPrefix_touches (Name field) i k) as Ht.
      rewrite Heq in Ht. unfold indexPrefix in Heq.
      rewrite !string_app_assoc, !string_app_cons in Heq.
      by apply string_app_ne_self in Heq.
  - intros v' err Hnr Ha.
    assert (∀ g, (transformField transformers fl field fieldVal g).2 !! Name field
                 = Some (default [] (g !! Name field) ++ [err])) as Hstep.
    { intros g.
      assert (transformField transformers fl field fieldVal g
              = transformOwn transformers ffl field fieldVal g) as ->
        by (by destruct fieldVal as [| | | | |[[]|]| | | |]).
      unfold transformOwn. rewrite Ha. cbn. unfold appendViolation.
      by rewrite lookup_insert_eq. }
    unfold fs, transformViolations. rewrite transformFields_app. cbn.
    specialize (Hstep (transformFields transformers fl fs1 ∅).2).
    destruct (transformField transformers fl field fieldVal _) as [fv' g1].
    pose proof (transformFields_other transformers fl fs2 (Name field)
                  (later_fields_apart _ _ _ Hid (or_introl eq_refl) Hlater) g1) as Ho.
    destruct (transformFields transformers fl fs2 g1). cbn in *. rewrite Ho. eauto.
Qed.

End NestedPaths.

(** Three levels: [Top{A Mid}], [Mid{B Leaf}], [Leaf{C string}] with [C]
    tagged with a transformer that fails, as a struct, behind a pointer and
    in a slice. *)
Definition leaf : Value := VStruct [(exported "C" [("transform", "boom")], VString "x")].
Definition mid : Value := VStruct [(exported "B" [], leaf)].

Example three_levels :
  (Transform (H:=asciiOnly) failingTransformers
     (Some (VPointer (Some (VStruct [(exported "A" [], mid)]))))).2
  = Some (NewErr "transformation failed" {[ "A.B.C" := ["boom"] ]})
  ∧ (Transform (H:=asciiOnly) failingTransformers
       (Some (VPointer (Some (VStruct [(exported "A" [], VPointer (Some mid))]))))).2
    = Some (NewErr "transformation failed" {[ "A.B.C" := ["boom"] ]})
  ∧ (Transform (H:=asciiOnly) failingTransformers
       (Some (VPointer (Some (VStruct
          [(exported "Items" [], VSlice [VStruct []; mid; mid])]))))).2
    = Some (NewErr "transformation failed"
              {[ "Items[1].B.C" := ["boom"]; "Items[2].B.C" := ["boom"] ]}).
Proof. split_and!; reflexivity. Qed.

(** * The theorems on concrete records *)

Lemma C1_witness :
  ("lowercase trim" = "trim lowercase" ∨ "lowercase trim" = "lowercase trim")
  ∧ Transform (H:=asciiOnly) (builtinTransformers (H:=asciiOnly))
      (oneString "lowercase trim" "  ABC  ")
    = (oneString "lowercase trim" "abc", None).
Proof.
  split; [right; reflexivity|].
  destruct (C1_trim_before_lowercase (H:=asciiOnly)) as (_ & _ & _ & _ & _ & Habc).
  apply Habc. right; reflexivity.
Defined.

Lemma C2_witness :
  structShaped (oneField "required" "trim" (VString ""))
  = Some [(exported "F" [("validator", "required"); ("transform", "trim")], VString "")]
  ∧ (Validate (H:=asciiOnly) (addRequiredRule ∅) (oneField "required" "trim" (VString ""))
     = (true, None)
     ↔ validateViolations (H:=asciiOnly) (addRequiredRule ∅)
         [(exported "F" [("validator", "required"); ("transform", "trim")], VString "")]
       = ∅)
  ∧ ∃ err, (Transform (H:=asciiOnly) failingTransformers (oneString "trim boom" " x ")).2
           = Some err
           ∧ Msg err = "transformation failed" ∧ Fields err ≠ ∅.
Proof.
  split; [reflexivity|]. split.
  - destruct (C2_failure_iff_violations (H:=asciiOnly)
                (builtinTransformers (H:=asciiOnly)) (addRequiredRule ∅)
                (oneField "required" "trim" (VString "")) _ eq_refl)
      as (_ & Hok & _).
    exact Hok.
  - destruct (C2_failure_iff_violations (H:=asciiOnly) failingTransformers ∅
                (oneString "trim boom" " x ") _ eq_refl)
      as (_ & _ & _ & _ & _ & _ & _ & _ & Hfails & _).
    apply (Hfails 0%nat (exported "F" [("transform", "trim boom")]) (VString " x ") "boom");
      [reflexivity|].
    left. split; [reflexivity|]. split; [discriminate|].
    exists [], "boom", ["trim"], (failing "boom"), (VString " x "), (VString " x ").
    split_and!; [reflexivity|constructor|reflexivity|reflexivity].
Defined.

Lemma C3_witness :
  identifier "A"
  ∧ mid = VStruct [(exported "B" [], leaf)]
  ∧ transformViolations (H:=asciiOnly) failingTransformers
      (Field_flag (Elem_flag ValueOf_flag) (exported "A" []))
      [(exported "B" [], leaf)] !! "B.C" = Some ["boom"]
  ∧ transformViolations (H:=asciiOnly) failingTransformers (Elem_flag ValueOf_flag)
      [(exported "A" [], mid)] !! "A.B.C" = Some ["boom"].
Proof.
  assert (identifier "A") as Hid by (repeat split; discriminate).
  split; [exact Hid|]. split; [reflexivity|]. split; [reflexivity|].
  destruct (C3_nested_paths_prefixed (H:=asciiOnly) failingTransformers
              (Elem_flag ValueOf_flag) [] [] (exported "A" []) mid Hid (Forall_nil_2 _))
    as (Hstruct & _).
  apply (Hstruct [(exported "B" [], leaf)] "B.C" ["boom"]); reflexivity.
Defined.

Lemma C4_witness :
  kindOf (inner "boom" "x") = Struct
  ∧ transformStruct (H:=asciiOnly) failingTransformers
      (Field_flag (Elem_flag ValueOf_flag) (exported "Inner" [("transform", "mark")]))
      (inner "boom" "x")
    = (inner "boom" "x", Some (NewErr "transformation failed" {[ "Name" := ["boom"] ]}))
  ∧ transformField (H:=asciiOnly) failingTransformers (Elem_flag ValueOf_flag)
      (exported "Inner" [("transform", "mark")]) (inner "boom" "x") ∅
    = (inner "boom" "x",
       mergeNested ("Inner" +:+ ".") {[ "Name" := ["boom"] ]} ∅).
Proof.
  split; [reflexivity|]. split; [reflexivity|].
  destruct (C4_own_tag_after_recursion (H:=asciiOnly) failingTransformers
              (Elem_flag ValueOf_flag) (exported "Inner" [("transform", "mark")])
              (inner "boom" "x") ∅)
    as (_ & _ & Hfail & _).
  destruct (Hfail (inner "boom" "x")
              (NewErr "transformation failed" {[ "Name" := ["boom"] ]})
              eq_refl eq_refl) as [Hstep _].
  exact Hstep.
Defined.

Lemma C5_witness :
  structShaped (untaggedOuter "  x  ") = Some [(exported "Inner" [], inner "trim" "  x  ")]
  ∧ [(exported "Inner" [], inner "trim" "  x  ")] !! 0%nat
    = Some (exported "Inner" [], inner "trim" "  x  ")
  ∧ Tag_Get (exported "Inner" []) "transform" = ""
  ∧ ∃ fs',
      (Transform (H:=asciiOnly) (builtinTransformers (H:=asciiOnly))
         (untaggedOuter "  x  ")).1
      = withFields (untaggedOuter "  x  ") fs'
      ∧ fs' !! 0%nat
        = Some (exported "Inner" [],
                recursedOnly (H:=asciiOnly) (builtinTransformers (H:=asciiOnly))
                  (topFlag (untaggedOuter "  x  ")) (exported "Inner" [])
                  (inner "trim" "  x  ")).
Proof.
  split; [reflexivity|]. split; [reflexivity|]. split; [reflexivity|].
  destruct (C5_untagged_field_only_recursed (H:=asciiOnly)
              (builtinTransformers (H:=asciiOnly)) (untaggedOuter "  x  ")
              [(exported "Inner" [], inner "trim" "  x  ")] 0
              (exported "Inner" []) (inner "trim" "  x  ") eq_refl eq_refl eq_refl)
    as (_ & fs' & Hval & Hi & _).
  exists fs'. split; [exact Hval|exact Hi].
Defined.

Lemma C6_witness :
  is_Some (validateViolations (H:=asciiOnly) (addRequiredRule ∅)
             [(exported "Name" [("validator", "required")], VString "")] !! "Name")
  ∧ ∃ f, f ∈ [(exported "Name" [("validator", "required")], VString "")]
         ∧ Name f.1 = "Name".
Proof.
  assert (is_Some (validateViolations (H:=asciiOnly) (addRequiredRule ∅)
             [(exported "Name" [("validator", "required")], VString "")] !! "Name"))
    as Hsome by (eexists; reflexivity).
  split; [exact Hsome|].
  destruct (C6_validate_is_shallow (H:=asciiOnly)) as (Hkeys & _).
  exact (Hkeys _ _ _ Hsome).
Defined.

Lemma C7_witness :
  addRequiredRule ∅ !! ruleName "foobar123" = None
  ∧ validateRule (addRequiredRule ∅) (exported "F" [("validator", "foobar123")])
      (VString "") ∅ "foobar123" = ∅.
Proof.
  split; [reflexivity|].
  destruct (C7_unregistered_names_skipped (H:=asciiOnly)) as (Hskip & _).
  apply Hskip. reflexivity.
Defined.



Lemma C10_witness :
  addRequiredRule ∅ !! "required" = Some requiredRule
  ∧ missing (VInt KInt 0)
  ∧ ∃ msgs,
      Validate (H:=asciiOnly) (addRequiredRule ∅)
        (Some (VStruct [(exported "Age" [("validator", "required min_value=18")],
                         VInt KInt 0)]))
      = (false,
         Some (NewErr "validation failed"
                 (validateViolations (H:=asciiOnly) (addRequiredRule ∅)
                    [(exported "Age" [("validator", "required min_value=18")],
                      VInt KInt 0)])))
      ∧ validateViolations (H:=asciiOnly) (addRequiredRule ∅)
          [(exported "Age" [("validator", "required min_value=18")], VInt KInt 0)]
          !! "Age" = Some msgs
      ∧ "field is required" ∈ msgs.
Proof.
  assert (missing (VInt KInt 0)) as Hm by (right; left; exists KInt; reflexivity).
  split; [reflexivity|]. split; [exact Hm|].
  destruct (C10_required_zero_values (H:=asciiOnly)) as (_ & _ & _ & Hfails & _).
  apply (Hfails (addRequiredRule ∅)
           (Some (VStruct [(exported "Age" [("validator", "required min_value=18")],
                            VInt KInt 0)]))
           [(exported "Age" [("validator", "required min_value=18")], VInt KInt 0)]
           (exported "Age" [("validator", "required min_value=18")]) (VInt KInt 0)
           "required");
    try reflexivity; try exact Hm; left.
Defined.

(** * Further properties of the engine *)

(** ** [orderTransforms] is a stable sort *)

Lemma priority_nonneg (name : string) : 0 ≤ priority name.
Proof. rewrite priority_builtinOf. destruct (builtinOf name) as [[]|]; cbn; lia. Qed.

(** The pass exchanges nothing when the entry held is no greater than the
    entries after it. *)
Lemma exchange_least (x : string) (rest : list string) :
  Forall (byPriority x) rest → exchange x rest = (x, rest).
Proof.
  induction 1 as [|y r Hy _ IH]; [done|]. cbn. unfold byPriority in Hy.
  destruct (priority y <? priority x) eqn:Hlt; [apply Z.ltb_lt in Hlt; lia|].
  by rewrite IH.
Qed.

Lemma exchangeSort_sorted_id (n : nat) (l : list string) :
  StronglySorted byPriority l → exchangeSort n l = l.
Proof.
  revert l. induction n as [|n IH]; intros [|x rest] Hs; try done. cbn.
  apply StronglySorted_inv in Hs as [Hs Hx]. rewrite exchange_least by done.
  by rewrite IH.
Qed.

(** The pass keeps the names of priority 0 in their order: such a name is
    never exchanged when held, and only the first of them can be taken to
    the front. *)
Lemma exchange_stable_0 (x : string) (rest : list string) :
  filter (λ t, priority t = 0) ((exchange x rest).1 :: (exchange x rest).2)
  = filter (λ t, priority t = 0) (x :: rest).
Proof.
  revert x. induction rest as [|y r IH]; intros x; [done|]. cbn [exchange].
  destruct (priority y <? priority x) eqn:Hlt.
  - apply Z.ltb_lt in Hlt. pose proof (priority_nonneg y).
    specialize (IH y). destruct (exchange y r) as [m r']. cbn [fst snd] in *.
    rewrite (filter_cons_False _ x (y :: r)) by lia. rewrite <- IH.
    rewrite !(filter_cons _ m). rewrite (filter_cons_False _ x r') by lia. done.
  - apply Z.ltb_ge in Hlt. destruct (decide (priority x = 0)) as [Hx|Hx].
    + rewrite exchange_least; [done|].
      apply Forall_forall. intros t _. unfold byPriority. pose proof (priority_nonneg t). lia.
    + pose proof (priority_nonneg x).
      specialize (IH x). destruct (exchange x r) as [m r']. cbn [fst snd] in *.
      rewrite (filter_cons_False _ x (y :: r)) by done.
      rewrite (filter_cons_False _ y r) by lia.
      rewrite (filter_cons_False _ x r) in IH by done. rewrite <- IH.
      rewrite !(filter_cons _ m). rewrite (filter_cons_False _ y r') by lia. done.
Qed.

Lemma exchangeSort_stable_0 (n : nat) (l : list string) :
  filter (λ t, priority t = 0) (exchangeSort n l) = filter (λ t, priority t = 0) l.
Proof.
  revert l. induction n as [|n IH]; intros [|x rest]; try done. cbn [exchangeSort].
  pose proof (exchange_stable_0 x rest) as Hs. destruct (exchange x rest) as [m r'].
  cbn [fst snd] in Hs. rewrite <- Hs, !(filter_cons _ m), IH. done.
Qed.

(** Two arrangements of the same names agree on a class of names that has
    one member at most. *)
Lemma filter_single_class (P : string → Prop) `{∀ t, Decision (P t)} (l l' : list string) :
  (∀ a b, P a → P b → a = b) → l ≡ₚ l' → filter P l = filter P l'.
Proof.
  intros Hone Hp.
  assert (∀ k k' : list string, Forall P k → Forall P k' → length k = length k' → k = k')
    as Heq.
  { induction k as [|a k IH]; intros [|b k'] Hk Hk' Hlen; try done.
    apply Forall_cons in Hk as [Ha Hk], Hk' as [Hb Hk'].
    f_equal; [by apply Hone|]. apply IH; [done..|]. by injection Hlen. }
  apply Heq.
  - apply Forall_forall. by intros t [? _]%list_elem_of_filter.
  - apply Forall_forall. by intros t [? _]%list_elem_of_filter.
  - by rewrite Hp.
Qed.

(** X1: [orderTransforms] sorts stably: besides leaving the names in
    ascending priority, it keeps the names of any one priority in the order
    of the tag.  So the transforms without an entry in [priorityLookup] run
    in the order they are written, before the listed ones. *)
Theorem orderTransforms_stable (transforms : list string) (p : Z) :
  filter (λ t, priority t = p) (orderTransforms transforms)
  = filter (λ t, priority t = p) transforms.
Proof.
  destruct (decide (p = 0)) as [->|Hp].
  - rewrite orderTransforms_exchangeSort. apply exchangeSort_stable_0.
  - apply filter_single_class; [|apply orderTransforms_perm].
    intros a b Ha Hb. apply priority_listed_inj; [| |congruence].
    + destruct (priorityLookup !! a) eqn:Hl; [done|].
      apply priority_unlisted in Hl. congruence.
    + destruct (priorityLookup !! b) eqn:Hl; [done|].
      apply priority_unlisted in Hl. congruence.
Qed.

(** X2: the lists [orderTransforms] leaves as they are, are the lists in
    ascending priority; so ordering twice is ordering once. *)
Theorem orderTransforms_fixed_iff_sorted (transforms : list string) :
  (orderTransforms transforms = transforms ↔ StronglySorted byPriority transforms)
  ∧ orderTransforms (orderTransforms transforms) = orderTransforms transforms.
Proof.
  assert (∀ l, StronglySorted byPriority l → orderTransforms l = l) as Hfix.
  { intros l Hl. rewrite orderTransforms_exchangeSort. by apply exchangeSort_sorted_id. }
  split; [split|].
  - intros <-. apply orderTransforms_sorted.
  - apply Hfix.
  - apply Hfix, orderTransforms_sorted.
Qed.

(** ** Arguments that are not structs *)

(** X3: an argument that is neither a struct nor a non-nil pointer to a
    struct (a nil interface, a nil pointer, a pointer to a pointer, a scalar,
    a slice) is refused by both entry points with an error without fields,
    "invalid payload" for the nil interface and "input must be a struct"
    otherwise, and [Transform] leaves it as it is; every other argument gets
    past that check. *)
Theorem invalid_input_refused `{Strings.Unicode}
    (rules : gmap string ValidationRule) (transformers : gmap string TransformFunc)
    (dto : option Value) :
  let refusal := NewErr (if dto is None then "invalid payload" else "input must be a struct") ∅ in
  (structShaped dto = None →
     Validate rules dto = (false, Some refusal)
     ∧ Transform transformers dto = (dto, Some refusal))
  ∧ (is_Some (structShaped dto) →
       Validate rules dto ≠ (false, Some refusal)
       ∧ (Transform transformers dto).2 ≠ Some refusal).
Proof.
  intros refusal. split.
  - intros Hs. destruct dto as [[| | | | |[[]|]| | | |]|]; try discriminate; done.
  - intros [fs Hs].
    rewrite (Validate_struct rules dto fs Hs), (Transform_struct_err transformers dto fs Hs).
    split.
    + case_decide; [done|]. intros [= Hm Hv]. destruct dto; discriminate.
    + case_decide; [done|]. intros [= Hm Hv]. destruct dto; discriminate.
Qed.

Lemma invalid_input_refused_witness :
  structShaped (Some (VPointer (Some (VPointer (Some (VStruct [])))))) = None
  ∧ Transform (H:=asciiOnly) (builtinTransformers (H:=asciiOnly))
      (Some (VPointer (Some (VPointer (Some (VStruct []))))))
    = (Some (VPointer (Some (VPointer (Some (VStruct []))))),
       Some (NewErr "input must be a struct" ∅)).
Proof.
  split; [reflexivity|].
  destruct (invalid_input_refused (H:=asciiOnly) ∅ (builtinTransformers (H:=asciiOnly))
              (Some (VPointer (Some (VPointer (Some (VStruct [])))))))
    as [Hrefused _].
  destruct (Hrefused eq_refl) as [_ Ht]. exact Ht.
Defined.

(** ** Values that cannot be set *)

Section ReadOnly.
Context `{Strings.Unicode}.
Variable transformers : gmap string TransformFunc.

Lemma transformOwn_not_settable (ffl : flag) (field : StructField) (fv : Value)
    (g : gmap string (list string)) :
  CanSet ffl = false → transformOwn transformers ffl field fv g = (fv, g).
Proof. intros Hs. unfold transformOwn, applyTransformations. by rewrite Hs. Qed.

(** [transformStruct] changes nothing and fails nowhere. *)
Definition untouched (fl : flag) (v : Value) : Prop :=
  transformStruct transformers fl v = (v, None).

Lemma transformFields_untouched (fl : flag) (fs : list (StructField * Value)) :
  Forall (λ f, ∀ g, transformField transformers fl f.1 f.2 g = (f.2, g)) fs →
  ∀ g, transformFields transformers fl fs g = (fs, g).
Proof.
  induction 1 as [|[field fv] fs Hf _ IH]; intros g; [done|]. cbn in *.
  by rewrite Hf, IH.
Qed.

Lemma transformElems_untouched (ffl : flag) (field : StructField) (es : list Value) :
  Forall (untouched (Index_flag ffl)) es →
  ∀ j g, transformElems transformers ffl field es j g = (es, g).
Proof.
  induction 1 as [|e es He _ IH]; intros j g; [done|]. cbn.
  assert (transformElem transformers ffl field e j g = (e, g)) as ->.
  { unfold transformElem. destruct e; try done. by rewrite He. }
  by rewrite IH.
Qed.

(** Everything reached through a value that is read-only for good stays as
    it is. *)
Lemma sticky_untouched_deep (v : Value) :
  (∀ fl, flagStickyRO fl = true → untouched fl v)
  ∧ match v with
    | VPointer (Some elem) => ∀ fl, flagStickyRO fl = true → untouched fl elem
    | VSlice es => Forall (λ e, ∀ fl, flagStickyRO fl = true → untouched fl e) es
    | _ => True
    end.
Proof.
  induction v as [b|k i|k u|k f|s| |elem IH|fs IH|es IH|es IH|k] using Value_nested_ind;
    try done.
  - split; [done|]. apply IH.
  - split; [|done]. intros fl Hro.
    unfold untouched. rewrite transformStruct_unfold.
    rewrite transformFields_untouched; [done|].
    eapply Forall_impl; [exact IH|]. intros [field fv] [Hfv Hin] g. cbn in *.
    assert (flagStickyRO (Field_flag fl field) = true) as Hf by (cbn; by rewrite Hro).
    assert (CanSet (Field_flag fl field) = false) as Hset.
    { unfold CanSet. rewrite Hf. cbn. by rewrite andb_false_r. }
    unfold transformField.
    destruct fv as [| | | | |[[]|]| |es| |]; try by apply transformOwn_not_settable.
    + rewrite (Hin (Elem_flag (Field_flag fl field)) Hf).
      by apply transformOwn_not_settable.
    + rewrite (Hfv _ Hf). by apply transformOwn_not_settable.
    + rewrite transformElems_untouched.
      * by apply transformOwn_not_settable.
      * eapply Forall_impl; [exact Hin|]. intros e He. apply He.
        change (flagStickyRO (Field_flag fl field) || flagEmbedRO (Field_flag fl field) = true).
        by rewrite Hf.
  - split; [done|]. eapply Forall_impl; [exact IH|]. by intros e [He _].
Qed.

(** No pointer to a struct and no slice of structs stands between the
    struct [v] and any struct below it: all of them are held by value. *)
Fixpoint heldByValue (v : Value) : Prop :=
  match v with
  | VStruct fs =>
      (fix fields (fs : list (StructField * Value)) : Prop :=
         match fs with
         | [] => True
         | f :: rest =>
             match f.2 with
             | VPointer (Some (VStruct _)) => False
             | VSlice es => Forall (λ e, kindOf e ≠ Struct) es
             | _ => heldByValue f.2
             end ∧ fields rest
         end) fs
  | _ => True
  end.

Lemma heldByValue_struct (fs : list (StructField * Value)) :
  heldByValue (VStruct fs)
  ↔ Forall (λ f, match f.2 with
                 | VPointer (Some (VStruct _)) => False
                 | VSlice es => Forall (λ e, kindOf e ≠ Struct) es
                 | _ => heldByValue f.2
                 end) fs.
Proof.
  cbn [heldByValue]. induction fs as [|f rest IH]; [by split; [constructor|]|].
  rewrite Forall_cons, <- IH. done.
Qed.

(** What cannot be addressed stays as it is. *)
Lemma not_addressable_untouched (v : Value) :
  ∀ fl, flagAddr fl = false → heldByValue v → untouched fl v.
Proof.
  induction v as [b|k i|k u|k f|s| |elem IH|fs IH|es IH|es IH|k] using Value_nested_ind;
    intros fl Haddr Hv; try done.
  unfold untouched. rewrite transformStruct_unfold.
  rewrite transformFields_untouched; [done|].
  apply heldByValue_struct in Hv.
  eapply Forall_impl; [apply Forall_and; split; [exact IH|exact Hv]|].
  intros [field fv] [Hfv Hheld] g. cbn in *.
  assert (CanSet (Field_flag fl field) = false) as Hset.
  { unfold CanSet. cbn. by rewrite Haddr. }
  unfold transformField.
  destruct fv as [| | | | |[[]|]| |es| |]; try done;
    try by apply transformOwn_not_settable.
  - rewrite (Hfv (Field_flag fl field)) by done. by apply transformOwn_not_settable.
  - rewrite transformElems_no_struct by done. by apply transformOwn_not_settable.
Qed.

End ReadOnly.

(** X4: a struct reached through an unexported field that is not embedded
    is never changed, however deep the engine recurses below it (through
    struct fields, pointers and slices) and whatever the tags there name:
    the call on it returns it as it was, with no error. *)
Theorem unexported_subtree_untouched `{Strings.Unicode}
    (transformers : gmap string TransformFunc) (fl : flag) (field : StructField)
    (fs : list (StructField * Value)) :
  IsExported field = false → Anonymous field = false →
  transformStruct transformers (Field_flag fl field) (VStruct fs) = (VStruct fs, None)
  ∧ transformStruct transformers (Elem_flag (Field_flag fl field)) (VStruct fs)
    = (VStruct fs, None)
  ∧ transformStruct transformers (Index_flag (Field_flag fl field)) (VStruct fs)
    = (VStruct fs, None).
Proof.
  intros Hex Han.
  destruct (sticky_untouched_deep transformers (VStruct fs)) as [Hs _].
  split_and!; apply Hs; cbn; rewrite Hex, Han; cbn; by rewrite ?orb_true_r.
Qed.

Lemma unexported_subtree_untouched_witness :
  transformStruct (H:=asciiOnly) (builtinTransformers (H:=asciiOnly))
    (Field_flag (Elem_flag ValueOf_flag)
       {| Name := "secret"; PkgPath := "main"; Anonymous := false; Tag := ∅ |})
    (VStruct [(exported "Token" [("transform", "trim")], VString " a ")])
  = (VStruct [(exported "Token" [("transform", "trim")], VString " a ")], None).
Proof.
  destruct (unexported_subtree_untouched (H:=asciiOnly) (builtinTransformers (H:=asciiOnly))
              (Elem_flag ValueOf_flag)
              {| Name := "secret"; PkgPath := "main"; Anonymous := false; Tag := ∅ |}
              [(exported "Token" [("transform", "trim")], VString " a ")]
              eq_refl eq_refl) as [Hfield _].
  exact Hfield.
Defined.

(** X5: a struct passed to [Transform] by value, and not through a pointer,
    comes back as it was and without an error, whatever its tags and the
    registry, as long as every struct in it is held by value too: no field
    of it can be set. *)
Theorem struct_by_value_unchanged `{Strings.Unicode}
    (transformers : gmap string TransformFunc) (fs : list (StructField * Value)) :
  heldByValue (VStruct fs) →
  Transform transformers (Some (VStruct fs)) = (Some (VStruct fs), None).
Proof.
  intros Hv. unfold Transform.
  by rewrite (not_addressable_untouched transformers (VStruct fs) ValueOf_flag eq_refl Hv).
Qed.

Lemma struct_by_value_unchanged_witness :
  Transform (H:=asciiOnly) (builtinTransformers (H:=asciiOnly))
    (Some (VStruct [(exported "Name" [("transform", "trim uppercase")], VString " a ");
                    (exported "Inner" [],
                     VStruct [(exported "City" [("transform", "lowercase")], VString "X")])]))
  = (Some (VStruct [(exported "Name" [("transform", "trim uppercase")], VString " a ");
                    (exported "Inner" [],
                     VStruct [(exported "City" [("transform", "lowercase")], VString "X")])]),
     None).
Proof.
  apply (struct_by_value_unchanged (H:=asciiOnly)). cbn. done.
Defined.

(** ** What [Validate] reports, in full *)

Section ValidateReport.
Context `{Strings.Unicode}.
Variable rules : gmap string ValidationRule.

(** The messages of one rule token: those of the rule registered under its
    name, if any. *)
Definition ruleMessages (field : StructField) (fieldVal : Value) (rule : string)
  : list string :=
  match rules !! ruleName rule with
  | Some ruleFunc => ruleFunc fieldVal field
  | None => []
  end.

(** The messages of a field: those of its tokens, in the order of the tag. *)
Definition fieldMessages (f : StructField * Value) : list string :=
  concat (map (ruleMessages f.1 f.2) (Strings.Fields (Tag_Get f.1 "validator"))).

(** The messages of the fields called [name], in the order of the fields;
    no entry when there is none. *)
Definition messagesUnder (name : string) (fs : list (StructField * Value))
  : option (list string) :=
  let msgs := concat (map fieldMessages (filter (λ f, Name f.1 = name) fs)) in
  if decide (msgs = []) then None else Some msgs.

(** An entry after more messages have been appended to it. *)
Definition appended (entry : option (list string)) (msgs : list string)
  : option (list string) :=
  match entry with
  | Some before => Some (before ++ msgs)
  | None => if decide (msgs = []) then None else Some msgs
  end.

Lemma appended_nil (entry : option (list string)) : appended entry [] = entry.
Proof. destruct entry as [before|]; [|done]. cbn. by rewrite (right_id_L [] (++)). Qed.

Lemma appended_app (entry : option (list string)) (m1 m2 : list string) :
  appended (appended entry m1) m2 = appended entry (m1 ++ m2).
Proof.
  destruct entry as [before|]; cbn; [by rewrite (assoc_L (++))|].
  destruct m1 as [|a m1]; [done|]. cbn. done.
Qed.

Lemma validateRule_lookup (field : StructField) (fieldVal : Value)
    (g : gmap string (list string)) (rule name : string) :
  validateRule rules field fieldVal g rule !! name
  = if decide (Name field = name)
    then appended (g !! name) (ruleMessages field fieldVal rule)
    else g !! name.
Proof.
  unfold validateRule, ruleMessages.
  destruct (rules !! ruleName rule) as [ruleFunc|];
    [|case_decide; by rewrite ?appended_nil].
  destruct (ruleFunc fieldVal field) as [|e errs]; cbn -[appended];
    [case_decide; by rewrite ?appended_nil|].
  case_decide as Hn.
  - subst name. rewrite lookup_insert_eq. by destruct (g !! Name field).
  - by rewrite lookup_insert_ne.
Qed.

Lemma validateRules_lookup (field : StructField) (fieldVal : Value) (name : string)
    (tokens : list string) :
  ∀ g, foldl (validateRule rules field fieldVal) g tokens !! name
       = if decide (Name field = name)
         then appended (g !! name) (concat (map (ruleMessages field fieldVal) tokens))
         else g !! name.
Proof.
  induction tokens as [|rule tokens IH]; intros g; cbn -[appended].
  - case_decide; by rewrite ?appended_nil.
  - rewrite IH, validateRule_lookup. case_decide; [|done]. by rewrite appended_app.
Qed.

Lemma validateField_lookup (g : gmap string (list string)) (f : StructField * Value)
    (name : string) :
  validateField rules g f !! name
  = if decide (Name f.1 = name) then appended (g !! name) (fieldMessages f) else g !! name.
Proof.
  destruct f as [field fieldVal]. unfold validateField, fieldMessages. cbn [fst snd].
  case_decide as Ht; [|apply validateRules_lookup].
  rewrite Ht, Fields_empty. cbn -[appended]. case_decide; by rewrite ?appended_nil.
Qed.

Lemma validateFields_lookup (name : string) (fs : list (StructField * Value)) :
  ∀ g, foldl (validateField rules) g fs !! name
       = appended (g !! name)
           (concat (map fieldMessages (filter (λ f, Name f.1 = name) fs))).
Proof.
  induction fs as [|f fs IH]; intros g; cbn [foldl]; [by rewrite appended_nil|].
  rewrite IH, validateField_lookup. case_decide as Hn.
  - rewrite filter_cons_True by done. cbn [map concat]. by rewrite appended_app.
  - by rewrite filter_cons_False by done.
Qed.

(** X6: the error of [Validate] on a struct holds, under each field name,
    the messages that the registered rules named in the field's tag return,
    rule after rule in the order of the tag (not of any priority), and one
    field after the other when several carry the name; a name without a
    message has no entry, and [Validate] passes exactly when no name has
    one. *)
Theorem Validate_reports_in_tag_order (dto : option Value)
    (fs : list (StructField * Value)) :
  structShaped dto = Some fs →
  ∃ report : gmap string (list string),
    (∀ name, report !! name = messagesUnder name fs)
    ∧ Validate rules dto
      = if decide (report = ∅) then (true, None)
        else (false, Some (NewErr "validation failed" report)).
Proof.
  intros Hs. exists (validateViolations rules fs). split.
  - intros name. unfold validateViolations. by rewrite validateFields_lookup, lookup_empty.
  - by apply Validate_struct.
Qed.

End ValidateReport.

Lemma Validate_reports_in_tag_order_witness :
  ∃ report : gmap string (list string),
    (∀ name, report !! name
             = messagesUnder (H:=asciiOnly) (addRequiredRule ∅) name
                 [(exported "A" [("validator", "required")], VString "")])
    ∧ Validate (H:=asciiOnly) (addRequiredRule ∅)
        (Some (VStruct [(exported "A" [("validator", "required")], VString "")]))
      = if decide (report = ∅) then (true, None)
        else (false, Some (NewErr "validation failed" report)).
Proof.
  apply (Validate_reports_in_tag_order (H:=asciiOnly) (addRequiredRule ∅)
           (Some (VStruct [(exported "A" [("validator", "required")], VString "")]))).
  reflexivity.
Defined.

(** ** Registering a rule *)

(** X7: registering a rule under a name that no token of the struct's
    validator tags carries leaves the outcome of [Validate] as it was.  A
    rule registered under a name replaces the one registered under it
    before: the outcome of [Validate] is the one without the earlier
    registration, on every argument, and a token of that name reports what
    the rule registered last returns. *)
Theorem AddRule_frame_and_replace `{Strings.Unicode} (rules : gmap string ValidationRule)
    (key : string) (rule earlier : ValidationRule) (dto : option Value) :
  (Forall (λ f, Forall (λ token, ruleName token ≠ key)
                  (Strings.Fields (Tag_Get f.1 "validator")))
     (default [] (structShaped dto)) →
   Validate (AddRule key rule rules) dto = Validate rules dto)
  ∧ Validate (AddRule key rule (AddRule key earlier rules)) dto
    = Validate (AddRule key rule rules) dto
  ∧ (∀ field fieldVal token,
       Strings.Fields (Tag_Get field "validator") = [token] → ruleName token = key →
       Validate (AddRule key rule (AddRule key earlier rules))
         (Some (VStruct [(field, fieldVal)]))
       = if decide (rule fieldVal field = []) then (true, None)
         else (false,
               Some (NewErr "validation failed" {[Name field := rule fieldVal field]}))).
Proof.
  split_and!.
  - intros Hunused. destruct (structShaped dto) as [fs|] eqn:Hs; cbn in Hunused.
    + rewrite !(Validate_struct _ _ fs Hs).
      assert (validateViolations (AddRule key rule rules) fs = validateViolations rules fs)
        as ->; [|done].
      apply map_eq. intros name. unfold validateViolations.
      rewrite !validateFields_lookup. f_equal. f_equal.
      apply map_ext_Forall, Forall_forall.
      intros [field fieldVal] [_ Hin]%list_elem_of_filter.
      rewrite Forall_forall in Hunused. specialize (Hunused _ Hin).
      unfold fieldMessages. cbn [fst snd] in *. f_equal.
      apply map_ext_Forall. eapply Forall_impl; [exact Hunused|].
      intros token Ht. unfold ruleMessages, AddRule. cbn. by rewrite lookup_insert_ne.
    + destruct dto as [[| | | | |[[]|]| | | |]|]; try discriminate; done.
  - unfold AddRule. by rewrite insert_insert_eq.
  - intros field fieldVal token Htokens Hname.
    rewrite (Validate_struct _ (Some (VStruct [(field, fieldVal)])) [(field, fieldVal)] eq_refl).
    assert (validateViolations (AddRule key rule (AddRule key earlier rules))
              [(field, fieldVal)]
            = if decide (rule fieldVal field = []) then ∅
              else {[Name field := rule fieldVal field]}) as ->.
    { unfold validateViolations. cbn [foldl]. unfold validateField.
      rewrite decide_False by (intros Ht; by rewrite Ht, Fields_empty in Htokens).
      rewrite Htokens. cbn [foldl]. unfold validateRule, AddRule.
      rewrite Hname, lookup_insert_eq.
      destruct (rule fieldVal field) as [|e errs]; [by rewrite decide_True|].
      rewrite decide_False by done. cbn. rewrite lookup_empty. cbn.
      by rewrite insert_empty. }
    destruct (decide (rule fieldVal field = [])) as [Hr|Hr]; [by rewrite decide_True|].
    rewrite decide_False; [done|]. apply map_non_empty_singleton.
Qed.

Lemma AddRule_frame_and_replace_witness :
  Validate (H:=asciiOnly) (AddRule "even" (λ _ _, ["must be even"]) (addRequiredRule ∅))
    (Some (VStruct [(exported "A" [("validator", "required odd")], VString "")]))
  = Validate (H:=asciiOnly) (addRequiredRule ∅)
      (Some (VStruct [(exported "A" [("validator", "required odd")], VString "")]))
  ∧ Validate (H:=asciiOnly)
      (AddRule "even" (λ _ _, ["must be even"]) (AddRule "even" (λ _ _, []) ∅))
      (Some (VStruct [(exported "N" [("validator", "even")], VInt KInt 3)]))
    = (false, Some (NewErr "validation failed" {["N" := ["must be even"]]})).
Proof.
  split.
  - destruct (AddRule_frame_and_replace (H:=asciiOnly) (addRequiredRule ∅) "even"
                (λ _ _, ["must be even"]) (λ _ _, [])
                (Some (VStruct [(exported "A" [("validator", "required odd")], VString "")])))
      as [Hsame _].
    apply Hsame. vm_compute. repeat constructor; discriminate.
  - destruct (AddRule_frame_and_replace (H:=asciiOnly) ∅ "even"
                (λ _ _, ["must be even"]) (λ _ _, []) None) as (_ & _ & Hlast).
    apply (Hlast (exported "N" [("validator", "even")]) (VInt KInt 3) "even");
      reflexivity.
Defined.

(** ** Fields are transformed one by one *)

(** X8: [Transform] keeps the fields of the struct, their number, order,
    names and tags, and what it leaves in a field depends on that field
    alone: a failure in one field neither stops nor changes the
    transformation of the others. *)
Theorem fields_transformed_independently `{Strings.Unicode}
    (transformers : gmap string TransformFunc) (dto : option Value)
    (fs : list (StructField * Value)) :
  structShaped dto = Some fs →
  ∃ fs', (Transform transformers dto).1 = withFields dto fs'
         ∧ fs'.*1 = fs.*1
         ∧ ∀ i field fieldVal,
             fs !! i = Some (field, fieldVal) →
             fs' !! i
             = Some (field, (transformField transformers (topFlag dto) field fieldVal ∅).1).
Proof.
  intros Hs. exists (transformFields transformers (topFlag dto) fs ∅).1.
  split_and!.
  - by apply Transform_struct_val.
  - generalize (∅ : gmap string (list string)). generalize (topFlag dto). clear Hs.
    intros fl. induction fs as [|[field fieldVal] rest IH]; intros g; [done|]. cbn.
    destruct transformField as [fv' g']. specialize (IH g').
    destruct transformFields as [rest' g'']. cbn in *. by rewrite IH.
  - intros i field fieldVal Hi. by apply transformFields_lookup.
Qed.

Lemma fields_transformed_independently_witness :
  ∃ fs', (Transform (H:=asciiOnly) (builtinTransformers (H:=asciiOnly))
            (Some (VPointer (Some (VStruct
               [(exported "A" [("transform", "trim")], VString " a ");
                (exported "B" [("transform", "uppercase")], VString "b")]))))).1
         = Some (VPointer (Some (VStruct fs')))
         ∧ fs' !! 1%nat = Some (exported "B" [("transform", "uppercase")], VString "B").
Proof.
  destruct (fields_transformed_independently (H:=asciiOnly)
              (builtinTransformers (H:=asciiOnly))
              (Some (VPointer (Some (VStruct
                 [(exported "A" [("transform", "trim")], VString " a ");
                  (exported "B" [("transform", "uppercase")], VString "b")]))))
              _ eq_refl) as (fs' & Hval & _ & Hfield).
  exists fs'. split; [exact Hval|]. exact (Hfield 1%nat _ _ eq_refl).
Defined.

(** ** Where the errors of [Transform] come from *)

Section NeverFails.
Context `{Strings.Unicode}.
Variable transformers : gmap string TransformFunc.

(** No registered transformer ever returns an error. *)
Definition neverFails : Prop :=
  ∀ t fn v, transformers !! t = Some fn → (fn v).2 = None.

Hypothesis Hnever : neverFails.

Lemma runTransforms_never_fails (names : list string) :
  ∀ v, (runTransforms transformers v names).2 = None.
Proof.
  induction names as [|t names IH]; intros v; [done|]. cbn.
  destruct (transformers !! t) as [fn|] eqn:Ht; [|apply IH].
  pose proof (Hnever t fn v Ht) as Hfn. destruct (fn v) as [v' [err|]]; [done|apply IH].
Qed.

Lemma transformOwn_never_fails (ffl : flag) (field : StructField) (fv : Value)
    (g : gmap string (list string)) :
  (transformOwn transformers ffl field fv g).2 = g.
Proof.
  unfold transformOwn, applyTransformations.
  destruct (negb (CanSet ffl)); [done|]. case_decide; [done|].
  pose proof (runTransforms_never_fails
                (orderTransforms (Strings.Fields (Tag_Get field "transform"))) fv) as Hr.
  by destruct runTransforms as [fv' [err|]].
Qed.

(** [transformStruct] returns no error. *)
Definition succeeds (v : Value) : Prop :=
  ∀ fl, (transformStruct transformers fl v).2 = None.

Lemma transformElems_never_fail (ffl : flag) (field : StructField) (es : list Value) :
  Forall succeeds es →
  ∀ j g, (transformElems transformers ffl field es j g).2 = g.
Proof.
  induction 1 as [|e es He _ IH]; intros j g; [done|]. cbn.
  assert ((transformElem transformers ffl field e j g).2 = g) as He'.
  { unfold transformElem. destruct e; try done.
    specialize (He (Index_flag ffl)). by destruct transformStruct as [e' [vErr|]]. }
  destruct transformElem as [e' g']. cbn in He'. subst g'.
  specialize (IH (S j) g). by destruct transformElems.
Qed.

Lemma transformFields_never_fail (fl : flag) (fs : list (StructField * Value)) :
  Forall (λ f, ∀ g, (transformField transformers fl f.1 f.2 g).2 = g) fs →
  ∀ g, (transformFields transformers fl fs g).2 = g.
Proof.
  induction 1 as [|[field fv] fs Hf _ IH]; intros g; [done|]. cbn in *.
  specialize (Hf g). destruct transformField as [fv' g']. cbn in Hf. subst g'.
  specialize (IH g). by destruct transformFields.
Qed.

Lemma succeeds_deep (v : Value) :
  succeeds v
  ∧ match v with
    | VPointer (Some elem) => succeeds elem
    | VSlice es => Forall succeeds es
    | _ => True
    end.
Proof.
  induction v as [b|k i|k u|k f|s| |elem IH|fs IH|es IH|es IH|k] using Value_nested_ind;
    try done.
  - split; [done|]. apply IH.
  - split; [|done]. intros fl. rewrite transformStruct_unfold.
    assert ((transformFields transformers fl fs ∅).2 = ∅) as Hfs;
      [|destruct transformFields as [fs' g]; cbn in Hfs; by subst g].
    apply transformFields_never_fail.
    eapply Forall_impl; [exact IH|]. intros [field fv] [Hfv Hin] g0. cbn in *.
    unfold transformField.
    destruct fv as [| | | | |[[]|]| |es| |]; try apply transformOwn_never_fails.
    + specialize (Hin (Elem_flag (Field_flag fl field))).
      destruct transformStruct as [e' [vErr|]]; [done|apply transformOwn_never_fails].
    + specialize (Hfv (Field_flag fl field)).
      destruct transformStruct as [e' [vErr|]]; [done|apply transformOwn_never_fails].
    + pose proof (transformElems_never_fail (Field_flag fl field) field es Hin 0%nat g0) as He.
      destruct transformElems as [es' g1]. cbn in He. subst g1.
      apply transformOwn_never_fails.
  - split; [done|]. eapply Forall_impl; [exact IH|]. by intros e [He _].
Qed.

End NeverFails.

(** X9: an error of [Transform] on a struct can only come from a
    transformer: when no registered transformer ever returns an error,
    [Transform] returns none on any struct or pointer to a struct. *)
Theorem Transform_fails_only_by_transformer `{Strings.Unicode}
    (transformers : gmap string TransformFunc) (dto : option Value) :
  neverFails transformers → is_Some (structShaped dto) →
  (Transform transformers dto).2 = None.
Proof.
  intros Hnever [fs Hs].
  destruct dto as [[| | | | |[[]|]| | | |]|]; try discriminate; unfold Transform.
  - destruct (succeeds_deep transformers Hnever (VStruct fs0)) as [Hok _].
    specialize (Hok (Elem_flag ValueOf_flag)). by destruct transformStruct.
  - destruct (succeeds_deep transformers Hnever (VStruct fs0)) as [Hok _].
    specialize (Hok ValueOf_flag). by destruct transformStruct.
Qed.

Lemma builtins_neverFail `{Strings.Unicode} : neverFails builtinTransformers.
Proof.
  intros t fn v Ht. rewrite builtinTransformers_lookup in Ht.
  destruct (builtinOf t) as [b|]; [|done]. injection Ht as <-. by destruct v.
Qed.

(** X10: with the built-in transformers alone, [Transform] returns an error
    exactly when its argument is not a struct or a non-nil pointer to a
    struct: the built-ins never fail, on any string. *)
Theorem builtin_Transform_error_iff `{Strings.Unicode} (dto : option Value) :
  (Transform builtinTransformers dto).2 = None ↔ is_Some (structShaped dto).
Proof.
  split.
  - intros Herr. destruct dto as [[| | | | |[[]|]| | | |]|]; try discriminate; by eexists.
  - intros [fs Hs].
    destruct dto as [[| | | | |[[]|]| | | |]|]; try discriminate; unfold Transform.
    + destruct (succeeds_deep builtinTransformers builtins_neverFail (VStruct fs0)) as [Hok _].
      specialize (Hok (Elem_flag ValueOf_flag)). by destruct transformStruct.
    + destruct (succeeds_deep builtinTransformers builtins_neverFail (VStruct fs0)) as [Hok _].
      specialize (Hok ValueOf_flag). by destruct transformStruct.
Qed.

Lemma Transform_fails_only_by_transformer_witness :
  (Transform (H:=asciiOnly) (AddTransformer "noop" (λ v, (v, None)) ∅)
     (Some (VPointer (Some (VStruct
        [(exported "A" [("transform", "noop")], VString "a")]))))).2 = None.
Proof.
  apply (Transform_fails_only_by_transformer (H:=asciiOnly)).
  - intros t fn v Ht. unfold AddTransformer in Ht.
    destruct (decide (t = "noop")) as [->|Hne].
    + rewrite lookup_insert_eq in Ht. by injection Ht as <-.
    + by rewrite lookup_insert_ne, lookup_empty in Ht.
  - by eexists.
Defined.

(** * The rules *)

(** ** Prefixes *)

Lemma HasPrefix_app (prefix rest : string) : Strings.HasPrefix (prefix +:+ rest) prefix = true.
Proof.
  unfold Strings.HasPrefix. induction prefix as [|c prefix IH]; cbn.
  - by destruct rest.
  - rewrite string_app_cons. cbn. by destruct (Ascii.ascii_dec c c).
Qed.

Lemma HasPrefix_spec (s prefix : string) :
  Strings.HasPrefix s prefix = true ↔ ∃ rest, s = prefix +:+ rest.
Proof.
  split; [|intros [rest ->]; apply HasPrefix_app].
  unfold Strings.HasPrefix. revert s. induction prefix as [|c prefix IH]; intros s Hs.
  - by exists s.
  - destruct s as [|c' s]; [done|]. cbn in Hs.
    destruct (Ascii.ascii_dec c c') as [->|]; [|done].
    destruct (IH s Hs) as [rest ->]. by exists rest.
Qed.

Lemma dropBytes_app (prefix rest : string) :
  Strings.dropBytes (String.length prefix) (prefix +:+ rest) = rest.
Proof. induction prefix as [|c prefix IH]; [by destruct rest|done]. Qed.

Lemma TrimPrefix_app (prefix rest : string) : Strings.TrimPrefix (prefix +:+ rest) prefix = rest.
Proof. unfold Strings.TrimPrefix. by rewrite HasPrefix_app, dropBytes_app. Qed.

(** ** [strconv.Atoi] reads what [%d] prints *)

Lemma digit_pretty_N_char (x : N) :
  (x < 10)%N → Strconv.digit (pretty_N_char x) = Some (Z.of_N x).
Proof.
  intros Hx. do 10 (destruct x as [|x] using N.peano_ind; [done|]). lia.
Qed.

Lemma digits_pretty_N_go (x : N) :
  ∀ acc s, ∃ k : Z,
    0 ≤ k
    ∧ Strconv.digits acc (Strings.bytes (pretty_N_go x s))
      = Strconv.digits (acc * 10 ^ k + Z.of_N x) (Strings.bytes s).
Proof.
  induction (N.lt_wf_0 x) as [x _ IH]. intros acc s.
  destruct (decide (x = 0)%N) as [->|Hx].
  { exists 0. rewrite pretty_N_go_0. split; [done|]. f_equal. lia. }
  rewrite pretty_N_go_step by lia.
  destruct (IH (x `div` 10)%N (N.div_lt x 10 ltac:(lia) eq_refl) acc
              (String (pretty_N_char (x `mod` 10)) s)) as (k & Hk & ->).
  exists (k + 1). split; [lia|]. cbn [Strings.bytes list_ascii_of_string Strconv.digits].
  rewrite digit_pretty_N_char by (apply N.mod_lt; lia).
  change (list_ascii_of_string s) with (Strings.bytes s). f_equal.
  rewrite Z.pow_add_r by lia.
  pose proof (N.div_mod x 10 ltac:(lia)) as Hdm. lia.
Qed.

Lemma digits_pretty_N (x : N) : Strconv.digits 0 (Strings.bytes (pretty x)) = Some (Z.of_N x).
Proof.
  unfold pretty, pretty_N. case_decide as Hx; [by subst x|].
  destruct (digits_pretty_N_go x 0 "") as (k & _ & ->). done.
Qed.

Lemma int_range (n : Z) :
  - 2 ^ 63 ≤ n < 2 ^ 63 →
  (- 2 ^ (Strconv.intSize - 1) <=? n) && (n <? 2 ^ (Strconv.intSize - 1)) = true.
Proof.
  intros Hn. change (Strconv.intSize - 1) with 63.
  apply andb_true_iff. split; [apply Z.leb_le|apply Z.ltb_lt]; lia.
Qed.

Lemma Atoi_digits (c : ascii) (l : list ascii) (n : Z) :
  Strconv.digits 0 (c :: l) = Some n → - 2 ^ 63 ≤ n < 2 ^ 63 →
  Strconv.Atoi (Strings.str (c :: l)) = Some n.
Proof.
  intros Hd Hn. unfold Strconv.Atoi. rewrite ASCII.bytes_str.
  assert (c ≠ "-"%char ∧ c ≠ "+"%char) as [Hm Hp].
  { split; intros ->; cbn in Hd; done. }
  rewrite !decide_False by done. rewrite Hd. by rewrite int_range.
Qed.

(** [strconv.Atoi(fmt.Sprintf("%d", n))] gives [n] back, for an [int]. *)
Lemma Atoi_pretty (n : Z) :
  - 2 ^ 63 ≤ n < 2 ^ 63 → Strconv.Atoi (pretty n) = Some n.
Proof.
  intros Hn. destruct n as [|p|p].
  - reflexivity.
  - change (pretty (Z.pos p)) with (pretty (N.pos p)).
    pose proof (digits_pretty_N (N.pos p)) as Hd.
    rewrite <- (ASCII.str_bytes (pretty (N.pos p))).
    destruct (Strings.bytes (pretty (N.pos p))) as [|c l]; [done|].
    by apply Atoi_digits.
  - change (pretty (Z.neg p)) with ("-" +:+ pretty (N.pos p)).
    pose proof (digits_pretty_N (N.pos p)) as Hd.
    unfold Strconv.Atoi. rewrite string_app_cons, string_app_nil.
    cbn [Strings.bytes list_ascii_of_string].
    change (list_ascii_of_string (pretty (N.pos p))) with (Strings.bytes (pretty (N.pos p))).
    rewrite decide_True by done.
    destruct (Strings.bytes (pretty (N.pos p))) as [|c l]; [done|].
    rewrite Hd. by rewrite int_range.
Qed.

(** ** The size rules *)

(** The size [min] and [max] measure: the bytes of a string, the elements
    of a slice or an array; other kinds have none. *)
Definition sizeOf (v : Value) : option Z :=
  match v with
  | VString s => Some (Z.of_nat (String.length s))
  | VSlice es | VArray es => Some (Z.of_nat (length es))
  | _ => None
  end.

Section SizeRuleFacts.
Context `{Strings.Unicode}.

(** No token before the parameter starts with the prefix. *)
Definition firstWith (prefix token : string) (tokens : list string) : Prop :=
  ∃ pre post, tokens = pre ++ token :: post
              ∧ Forall (λ t, Strings.HasPrefix t prefix = false) pre.

Lemma sizeParam_absent (prefix : string) (tokens : list string) :
  Forall (λ t, Strings.HasPrefix t prefix = false) tokens → sizeParam prefix tokens = inr 0.
Proof. induction 1 as [|t tokens Ht _ IH]; [done|]. cbn. by rewrite Ht. Qed.

Lemma sizeParam_first (prefix valStr : string) (tokens : list string) :
  firstWith prefix (prefix +:+ valStr) tokens →
  sizeParam prefix tokens
  = match Strconv.Atoi valStr with Some val => inr val | None => inl valStr end.
Proof.
  intros (pre & post & -> & Hpre). induction Hpre as [|t pre Ht _ IH]; cbn.
  - by rewrite HasPrefix_app, TrimPrefix_app.
  - by rewrite Ht.
Qed.

(** X11: when the first token of the validator tag that starts with [min=]
    is [min=lo] and the first that starts with [max=] is [max=hi], in
    decimal, the two rules report the size of a string (in bytes), a slice
    or an array against these bounds with the messages below, and never
    report on a value of another kind; so the value passes both exactly
    when its size, if it has one, lies between [lo] and [hi]. *)
Theorem size_rules_window (field : StructField) (lo hi : Z) (v : Value) :
  let tokens := Strings.Fields (Tag_Get field "validator") in
  firstWith "min=" ("min=" +:+ pretty lo) tokens →
  firstWith "max=" ("max=" +:+ pretty hi) tokens →
  - 2 ^ 63 ≤ lo < 2 ^ 63 → - 2 ^ 63 ≤ hi < 2 ^ 63 →
  minRule v field
  = match v with
    | VString s =>
        if Z.of_nat (String.length s) <? lo
        then ["length must be at least " +:+ pretty lo] else []
    | VSlice es | VArray es =>
        if Z.of_nat (length es) <? lo
        then ["must have at least " +:+ pretty lo +:+ " items"] else []
    | _ => []
    end
  ∧ maxRule v field
    = match v with
      | VString s =>
          if hi <? Z.of_nat (String.length s)
          then ["length must not exceed " +:+ pretty hi] else []
      | VSlice es | VArray es =>
          if hi <? Z.of_nat (length es)
          then ["must not exceed " +:+ pretty hi +:+ " items"] else []
      | _ => []
      end
  ∧ (minRule v field = [] ∧ maxRule v field = []
     ↔ ∀ n, sizeOf v = Some n → lo ≤ n ≤ hi).
Proof.
  intros tokens Hmin Hmax Hlo Hhi.
  assert (sizeParam "min=" tokens = inr lo) as Hpmin
    by (by rewrite (sizeParam_first _ _ _ Hmin), Atoi_pretty).
  assert (sizeParam "max=" tokens = inr hi) as Hpmax
    by (by rewrite (sizeParam_first _ _ _ Hmax), Atoi_pretty).
  unfold minRule, maxRule. fold tokens. rewrite Hpmin, Hpmax.
  split; [done|]. split; [done|].
  destruct v as [b|k i|k u|k f|s|p|fs|es|es|k]; cbn;
    try (split; [by intros _ n [=]|done]).
  - destruct (Z.ltb_spec (Z.of_nat (String.length s)) lo),
      (Z.ltb_spec hi (Z.of_nat (String.length s)));
      (split; [intros [??]; try done; intros n [= <-]; lia
              |intros Hn; specialize (Hn _ eq_refl); try lia; done]).
  - destruct (Z.ltb_spec (Z.of_nat (length es)) lo),
      (Z.ltb_spec hi (Z.of_nat (length es)));
      (split; [intros [??]; try done; intros n [= <-]; lia
              |intros Hn; specialize (Hn _ eq_refl); try lia; done]).
  - destruct (Z.ltb_spec (Z.of_nat (length es)) lo),
      (Z.ltb_spec hi (Z.of_nat (length es)));
      (split; [intros [??]; try done; intros n [= <-]; lia
              |intros Hn; specialize (Hn _ eq_refl); try lia; done]).
Qed.

(** X12: a parameter that [strconv.Atoi] refuses is reported on every
    value, of whatever kind and size; and without a token that starts with
    [min=] or [max=] (the bare token [min] or [max]) the bound is zero:
    [min] never reports, and [max] reports on every string, slice or array
    that is not empty. *)
Theorem size_rules_without_bound (field : StructField) (v : Value) :
  let tokens := Strings.Fields (Tag_Get field "validator") in
  (∀ valStr, firstWith "min=" ("min=" +:+ valStr) tokens → Strconv.Atoi valStr = None →
             minRule v field = ["invalid min: " +:+ valStr])
  ∧ (∀ valStr, firstWith "max=" ("max=" +:+ valStr) tokens → Strconv.Atoi valStr = None →
               maxRule v field = ["invalid max: " +:+ valStr])
  ∧ (Forall (λ t, Strings.HasPrefix t "min=" = false) tokens → minRule v field = [])
  ∧ (Forall (λ t, Strings.HasPrefix t "max=" = false) tokens →
     (maxRule v field = [] ↔ ∀ n, sizeOf v = Some n → n = 0)).
Proof.
  intros tokens. split_and!.
  - intros valStr Hfirst Hbad. unfold minRule. fold tokens.
    by rewrite (sizeParam_first _ _ _ Hfirst), Hbad.
  - intros valStr Hfirst Hbad. unfold maxRule. fold tokens.
    by rewrite (sizeParam_first _ _ _ Hfirst), Hbad.
  - intros Hno. unfold minRule. fold tokens. rewrite sizeParam_absent by done.
    destruct v as [b|k i|k u|k f|s|p|fs|es|es|k]; try done.
    + by destruct (Z.ltb_spec (Z.of_nat (String.length s)) 0); [lia|].
    + by destruct (Z.ltb_spec (Z.of_nat (length es)) 0); [lia|].
    + by destruct (Z.ltb_spec (Z.of_nat (length es)) 0); [lia|].
  - intros Hno. unfold maxRule. fold tokens. rewrite sizeParam_absent by done.
    destruct v as [b|k i|k u|k f|s|p|fs|es|es|k]; cbn;
      try (split; [by intros _ n [=]|done]).
    + destruct (Z.ltb_spec 0 (Z.of_nat (String.length s)));
        (split; [try done; intros _ n [= <-]; lia
                |intros Hn; specialize (Hn _ eq_refl); try lia; done]).
    + destruct (Z.ltb_spec 0 (Z.of_nat (length es)));
        (split; [try done; intros _ n [= <-]; lia
                |intros Hn; specialize (Hn _ eq_refl); try lia; done]).
    + destruct (Z.ltb_spec 0 (Z.of_nat (length es)));
        (split; [try done; intros _ n [= <-]; lia
                |intros Hn; specialize (Hn _ eq_refl); try lia; done]).
Qed.

End SizeRuleFacts.

Lemma size_rules_window_witness :
  minRule (H:=asciiOnly) (VString "jo")
    (exported "Username" [("validator", "required min=3 max=20 alphanum")])
  = ["length must be at least 3"].
Proof.
  destruct (size_rules_window (H:=asciiOnly)
              (exported "Username" [("validator", "required min=3 max=20 alphanum")])
              3 20 (VString "jo")) as [Hmin _].
  - exists ["required"], ["max=20"; "alphanum"]. split; [reflexivity|].
    repeat constructor.
  - exists ["required"; "min=3"], ["alphanum"]. split; [reflexivity|].
    repeat constructor.
  - lia.
  - lia.
  - exact Hmin.
Defined.

Lemma size_rules_without_bound_witness :
  minRule (H:=asciiOnly) (VInt KInt 5) (exported "Age" [("validator", "required min=18+")])
  = ["invalid min: 18+"].
Proof.
  destruct (size_rules_without_bound (H:=asciiOnly)
              (exported "Age" [("validator", "required min=18+")]) (VInt KInt 5))
    as [Hbad _].
  apply (Hbad "18+"); [|reflexivity].
  exists ["required"], []. split; [reflexivity|]. repeat constructor.
Defined.

(** ** [no_whitespace] after [remove_whitespace] *)

Lemma ContainsAny_whitespace (s : string) :
  Strings.ContainsAny s whitespaceChars = false ↔ Forall ASCII.kept (Strings.bytes s).
Proof.
  unfold Strings.ContainsAny. induction (Strings.bytes s) as [|c l IH]; cbn.
  - split; [constructor|done].
  - rewrite orb_false_iff, IH, Forall_cons. clear IH.
    assert (bool_decide (c ∈ Strings.bytes whitespaceChars) = false ↔ ASCII.kept c)
      as ->; [|done].
    rewrite bool_decide_eq_false. unfold ASCII.kept. cbn.
    rewrite !elem_of_cons, elem_of_nil. tauto.
Qed.

Section Whitespace.
Context `{Strings.Unicode}.

(** X13: [no_whitespace] passes a string exactly when [remove_whitespace]
    would leave it as it is, so it passes whatever [remove_whitespace]
    returns, on every string; and on an ASCII string of a settable field
    whose transform tag names [remove_whitespace], what
    [applyTransformations] leaves with the built-ins passes it, whichever
    other transforms the tag names. *)
Theorem no_whitespace_after_remove_whitespace (field : StructField) :
  (∀ s, noWhitespaceRule (VString s) field = [] ↔ removeWhitespace s = s)
  ∧ (∀ s, noWhitespaceRule (VString (removeWhitespace s)) field = [])
  ∧ (∀ fl tagged s,
       Strings.isASCII s = true → CanSet fl = true →
       "remove_whitespace" ∈ Strings.Fields (Tag_Get tagged "transform") →
       ∃ s', applyTransformations builtinTransformers fl (VString s) tagged
             = (VString s', None)
             ∧ noWhitespaceRule (VString s') field = []).
Proof.
  assert (∀ s, noWhitespaceRule (VString s) field = [] ↔ Forall ASCII.kept (Strings.bytes s))
    as Hrule.
  { intros s. rewrite <- ContainsAny_whitespace. unfold noWhitespaceRule.
    by destruct (Strings.ContainsAny s whitespaceChars). }
  split_and!.
  - intros s. rewrite Hrule, ASCII.removeWhitespace_bytes. split.
    + intros Hk. by rewrite ASCII.kept_removeBytes, ASCII.str_bytes.
    + intros Hs. rewrite <- Hs, ASCII.bytes_str. apply ASCII.removeBytes_kept.
  - intros s. rewrite Hrule, ASCII.removeWhitespace_bytes, ASCII.bytes_str.
    apply ASCII.removeBytes_kept.
  - intros fl tagged s Hs Hset Hin. eexists. split.
    { apply applyTransformations_builtin_string. }
    rewrite Hrule. unfold ownString. rewrite Hset. cbn [negb].
    rewrite decide_False by (intros Ht; by rewrite Ht, Fields_empty, elem_of_nil in Hin).
    apply (runBuiltins_settles RemoveWhitespace); [apply orderTransforms_sorted| |done|done].
    cbn [nameOf]. by rewrite orderTransforms_perm.
Qed.

End Whitespace.

Lemma no_whitespace_after_remove_whitespace_witness :
  ∃ s', applyTransformations (H:=asciiOnly) (builtinTransformers (H:=asciiOnly))
          (Field_flag (Elem_flag ValueOf_flag) (exported "Key" []))
          (VString " a b ") (exported "Key" [("transform", "uppercase remove_whitespace")])
        = (VString s', None)
        ∧ noWhitespaceRule (VString s') (exported "Key" []) = [].
Proof.
  destruct (no_whitespace_after_remove_whitespace (H:=asciiOnly) (exported "Key" []))
    as (_ & _ & Hpipe).
  apply Hpipe; [reflexivity|reflexivity|].
  vm_compute. do 2 constructor.
Defined.

(** ** [contains] and [starts_with] *)

Lemma string_app_nil_r (s : string) : s +:+ "" = s.
Proof. induction s as [|c s IH]; [done|]. by rewrite string_app_cons, IH. Qed.

Lemma Contains_spec (s sub : string) :
  Strings.Contains s sub = true ↔ ∃ a b, s = a +:+ sub +:+ b.
Proof.
  induction s as [|c s IH]; cbn [Strings.Contains]; rewrite orb_true_iff, HasPrefix_spec.
  - split.
    + intros [[b Hb]|?]; [|done]. by exists "", b.
    + intros ([|c a] & b & Hab); [left; by exists b|done].
  - rewrite IH. split.
    + intros [[b Hb]|(a & b & ->)]; [by exists "", b|]. by exists (String c a), b.
    + intros ([|c' a] & b & Hab); [left; by exists b|].
      right. rewrite string_app_cons in Hab. injection Hab as -> ->. by exists a, b.
Qed.

Section TextRuleFacts.
Context `{Strings.Unicode}.

Lemma textParam_absent (prefix : string) (tokens : list string) :
  Forall (λ t, Strings.HasPrefix t prefix = false) tokens → textParam prefix tokens = "".
Proof. induction 1 as [|t tokens Ht _ IH]; [done|]. cbn. by rewrite Ht. Qed.

Lemma textParam_first (prefix param : string) (tokens : list string) :
  firstWith prefix (prefix +:+ param) tokens → textParam prefix tokens = param.
Proof.
  intros (pre & post & -> & Hpre). induction Hpre as [|t pre Ht _ IH]; cbn.
  - by rewrite HasPrefix_app, TrimPrefix_app.
  - by rewrite Ht.
Qed.

(** X14: with [contains=sub] the first token of the validator tag that
    starts with [contains=], the rule passes a string exactly when [sub]
    occurs in it, and otherwise reports it by name; likewise
    [starts_with=pre] passes exactly the strings that start with [pre];
    without such a token both rules pass every string; and neither ever
    reports on a value that is not a string. *)
Theorem text_rules_report (field : StructField) (s : string) :
  let tokens := Strings.Fields (Tag_Get field "validator") in
  (∀ sub, firstWith "contains=" ("contains=" +:+ sub) tokens →
     (containsRule (VString s) field = [] ↔ ∃ a b, s = a +:+ sub +:+ b)
     ∧ (containsRule (VString s) field ≠ [] →
        containsRule (VString s) field = ["must contain '" +:+ sub +:+ "'"]))
  ∧ (∀ pre, firstWith "starts_with=" ("starts_with=" +:+ pre) tokens →
       (startsWithRule (VString s) field = [] ↔ ∃ b, s = pre +:+ b)
       ∧ (startsWithRule (VString s) field ≠ [] →
          startsWithRule (VString s) field = ["must start with '" +:+ pre +:+ "'"]))
  ∧ (Forall (λ t, Strings.HasPrefix t "contains=" = false) tokens →
     containsRule (VString s) field = [])
  ∧ (Forall (λ t, Strings.HasPrefix t "starts_with=" = false) tokens →
     startsWithRule (VString s) field = [])
  ∧ (∀ v, kindOf v ≠ String_ → containsRule v field = [] ∧ startsWithRule v field = []).
Proof.
  intros tokens. split_and!.
  - intros sub Hfirst. unfold containsRule. fold tokens.
    rewrite (textParam_first _ _ _ Hfirst), <- Contains_spec.
    by destruct (Strings.Contains s sub).
  - intros pre Hfirst. unfold startsWithRule. fold tokens.
    rewrite (textParam_first _ _ _ Hfirst), <- HasPrefix_spec.
    by destruct (Strings.HasPrefix s pre).
  - intros Hno. unfold containsRule. fold tokens. rewrite textParam_absent by done.
    assert (Strings.Contains s "" = true) as ->; [|done].
    apply Contains_spec. by exists "", s.
  - intros Hno. unfold startsWithRule. fold tokens. rewrite textParam_absent by done.
    assert (Strings.HasPrefix s "" = true) as ->; [|done].
    apply HasPrefix_spec. by exists s.
  - intros v Hv. by destruct v.
Qed.

End TextRuleFacts.

Lemma text_rules_report_witness :
  startsWithRule (H:=asciiOnly) (VString "pk_test")
    (exported "APIKey" [("validator", "required starts_with=sk_ no_whitespace")])
  = ["must start with 'sk_'"].
Proof.
  destruct (text_rules_report (H:=asciiOnly)
              (exported "APIKey" [("validator", "required starts_with=sk_ no_whitespace")])
              "pk_test") as (_ & Hstarts & _).
  destruct (Hstarts "sk_") as [_ Hmsg].
  - exists ["required"], ["no_whitespace"]. split; [reflexivity|]. repeat constructor.
  - apply Hmsg. vm_compute. discriminate.
Defined.

(** ** [parseParams] and the [pattern] rule *)

Lemma splitByte_nonempty (sep : ascii) (s : string) : Strings.splitByte sep s ≠ [].
Proof.
  destruct s as [|c s]; [done|]. cbn. case_decide; [done|].
  by destruct (Strings.splitByte sep s).
Qed.

(** Joining the pieces with the separator gives the string back. *)
Lemma splitByte_join (sep : ascii) (s : string) :
  Strings.Join (Strings.splitByte sep s) (String sep "") = s.
Proof.
  induction s as [|c s IH]; [done|]. cbn [Strings.splitByte].
  pose proof (splitByte_nonempty sep s) as Hne.
  destruct (Strings.splitByte sep s) as [|piece pieces]; [done|].
  case_decide as Hc.
  - subst c.
    change (Strings.Join ("" :: piece :: pieces) (String sep ""))
      with ("" +:+ String sep "" +:+ Strings.Join (piece :: pieces) (String sep "")).
    by rewrite IH.
  - rewrite <- IH. by destruct pieces.
Qed.

Lemma splitByte_lacks (sep : ascii) (s : string) :
  lacks sep s → Strings.splitByte sep s = [s].
Proof.
  induction s as [|c s IH]; [done|]. intros [Hc Hs]. cbn.
  rewrite decide_False by done. by rewrite IH.
Qed.

Lemma splitByte_app (sep : ascii) (a b : string) :
  lacks sep a →
  Strings.splitByte sep (a +:+ String sep b) = a :: Strings.splitByte sep b.
Proof.
  induction a as [|c a IH]; intros Ha.
  - rewrite string_app_nil. cbn. by rewrite decide_True.
  - destruct Ha as [Hc Ha]. rewrite string_app_cons. cbn [Strings.splitByte].
    rewrite decide_False by done. by rewrite IH.
Qed.

(** A piece that [parseParams] files under [key] starts with [key=]. *)
Lemma parseParams_piece (pieces : list string) (key : string) :
  Forall (λ piece, Strings.HasPrefix piece (key +:+ "=") = false) pieces →
  ∀ params : gmap string string,
    foldl (λ params pair,
             match Strings.splitByte "=" pair with
             | [k; v] => <[k := v]> params
             | _ => params
             end) params pieces !! key
    = params !! key.
Proof.
  induction 1 as [|piece pieces Hp _ IH]; intros params; [done|]. cbn [foldl].
  rewrite IH. pose proof (splitByte_join "=" piece) as Hj.
  destruct (Strings.splitByte "=" piece) as [|k [|v [|]]]; try done.
  destruct (decide (k = key)) as [->|Hk]; [|by rewrite lookup_insert_ne].
  cbn in Hj. rewrite <- Hj in Hp.
  by rewrite <- string_app_assoc, HasPrefix_app in Hp.
Qed.

Section PatternRuleFacts.
Variable Regexp : Type.
Variable Compile : string → option Regexp.
Variable MatchString : Regexp → string → bool.

(** X15: the [pattern] rule reads its expression with [parseParams], which
    cuts the whole tag at commas and not at spaces.  So it reports nothing,
    on any value, unless a piece of the tag between commas starts with
    [pattern=]: after another token, as in [required pattern=^a+$], the
    rule is silent.  When the tag starts with [pattern=], the expression
    is all that follows up to the end of the tag, later tokens included;
    one that does not compile passes every value. *)
Theorem pattern_rule_reads_comma_pieces (field : StructField) (v : Value) :
  let tag := Tag_Get field "validator" in
  (Forall (λ piece, Strings.HasPrefix piece "pattern=" = false) (Strings.splitByte "," tag) →
   patternRule Regexp Compile MatchString v field = [])
  ∧ (∀ pattern,
       tag = "pattern=" +:+ pattern → lacks "=" pattern → lacks "," pattern →
       patternRule Regexp Compile MatchString v field
       = match v, Compile pattern with
         | VString s, Some re => if MatchString re s then [] else ["invalid format"]
         | _, _ => []
         end).
Proof.
  intros tag. split.
  - intros Hno. unfold patternRule. fold tag. unfold parseParams.
    rewrite (parseParams_piece _ "pattern" Hno), lookup_empty. by destruct v.
  - intros pattern Htag Heq Hcomma. unfold patternRule. fold tag. rewrite Htag.
    unfold parseParams. rewrite splitByte_lacks.
    + cbn [foldl].
      change ("pattern=" +:+ pattern) with ("pattern" +:+ String "=" pattern).
      rewrite splitByte_app by (cbn; done). rewrite splitByte_lacks by done.
      rewrite lookup_insert_eq. destruct v; try done.
      destruct (Compile pattern) as [re|]; [|done]. by destruct (MatchString re s).
    + cbn. repeat (split; [done|]). done.
Qed.

End PatternRuleFacts.

Lemma pattern_rule_reads_comma_pieces_witness :
  patternRule unit (λ _, Some ()) (λ _ _, false) (VString "zzz")
    (exported "Code" [("validator", "required pattern=^a+$")])
  = [].
Proof.
  destruct (pattern_rule_reads_comma_pieces unit (λ _, Some ()) (λ _ _, false)
              (exported "Code" [("validator", "required pattern=^a+$")]) (VString "zzz"))
    as [Hsilent _].
  apply Hsilent. vm_compute. repeat constructor.
Defined.

(** ** The text of an error *)

Lemma Join_contains (elems : list string) (sep e : string) :
  e ∈ elems → ∃ a b, Strings.Join elems sep = a +:+ e +:+ b.
Proof.
  induction elems as [|x elems IH]; [by intros ?%elem_of_nil|].
  intros [->|Hin]%elem_of_cons.
  - destruct elems as [|y elems].
    + exists "", "". cbn. by rewrite string_app_nil_r.
    + exists "", (sep +:+ Strings.Join (y :: elems) sep). done.
  - destruct (IH Hin) as (a & b & Hab). destruct elems as [|y elems].
    { by apply elem_of_nil in Hin. }
    exists (x +:+ sep +:+ a), b.
    change (Strings.Join (x :: y :: elems) sep)
      with (x +:+ sep +:+ Strings.Join (y :: elems) sep).
    by rewrite Hab, !string_app_assoc.
Qed.

Lemma Contains_trans (s t u : string) :
  Strings.Contains s t = true → Strings.Contains t u = true → Strings.Contains s u = true.
Proof.
  rewrite !Contains_spec. intros (a & b & ->) (a' & b' & ->).
  exists (a +:+ a'), (b' +:+ b). by rewrite !string_app_assoc.
Qed.

(** X16: the text of an error starts with its message and is the message
    alone when the error has no fields; otherwise, in whatever order Go
    visits the fields, it holds for every field the name, a space and the
    field's messages joined by commas, and so every single message. *)
Theorem Error_text_holds_every_message (e : Err) (visited : list (string * list string)) :
  visited ≡ₚ map_to_list (Fields e) →
  (Fields e = ∅ → Err_Error e visited = Msg e)
  ∧ Strings.HasPrefix (Err_Error e visited) (Msg e) = true
  ∧ (∀ name msgs,
       Fields e !! name = Some msgs →
       Strings.Contains (Err_Error e visited) (name +:+ " " +:+ Strings.Join msgs ", ") = true
       ∧ ∀ msg, msg ∈ msgs → Strings.Contains (Err_Error e visited) msg = true).
Proof.
  intros Hvisited. split_and!.
  - intros He. unfold Err_Error. by rewrite He, map_size_empty, decide_True.
  - unfold Err_Error. case_decide.
    + apply HasPrefix_spec. exists "". by rewrite string_app_nil_r.
    + apply HasPrefix_app.
  - intros name msgs Hname.
    assert (Strings.Contains (Err_Error e visited)
              (name +:+ " " +:+ Strings.Join msgs ", ") = true) as Hfield.
    { unfold Err_Error. rewrite decide_False.
      2:{ intros Hsize%map_size_empty_inv. by rewrite Hsize, lookup_empty in Hname. }
      apply Contains_spec.
      destruct (Join_contains
                  (map (λ fm : string * list string,
                          fm.1 +:+ " " +:+ Strings.Join fm.2 ", ") visited)
                  "; " (name +:+ " " +:+ Strings.Join msgs ", ")) as (a & b & ->).
      { apply list_elem_of_In, in_map_iff. exists (name, msgs). split; [done|].
        apply list_elem_of_In. rewrite Hvisited. by apply elem_of_map_to_list. }
      exists (Msg e +:+ " - " +:+ a), b. by rewrite !string_app_assoc. }
    split; [done|]. intros msg Hmsg. apply (Contains_trans _ _ _ Hfield).
    apply Contains_spec. destruct (Join_contains msgs ", " msg Hmsg) as (a & b & ->).
    exists (name +:+ " " +:+ a), b. by rewrite !string_app_assoc.
Qed.

Lemma Error_text_holds_every_message_witness :
  Strings.Contains
    (Err_Error (NewErr "validation failed" {["Username" := ["length must be at least 3"]]})
       [("Username", ["length must be at least 3"])])
    "length must be at least 3" = true.
Proof.
  destruct (Error_text_holds_every_message
              (NewErr "validation failed" {["Username" := ["length must be at least 3"]]})
              [("Username", ["length must be at least 3"])]) as (_ & _ & Hall).
  - cbn. by rewrite map_to_list_singleton.
  - destruct (Hall "Username" ["length must be at least 3"]) as [_ Hmsg].
    + cbn. by rewrite lookup_singleton_eq.
    + apply Hmsg. by left.
Defined.

(** ** Matching *)

Module RegexpFacts.
Import Regexp.

Lemma elem_of_flat_map {A B} (f : A → list B) (l : list A) (y : B) :
  y ∈ flat_map f l ↔ ∃ x, x ∈ l ∧ y ∈ f x.
Proof.
  rewrite list_elem_of_In, in_flat_map.
  split; intros (x & Hx & Hy); exists x; by rewrite ?list_elem_of_In in *.
Qed.

Lemma rests_Class (ranges : list (ascii * ascii)) (s rest : list ascii) :
  rest ∈ rests (Class ranges) s ↔ ∃ c, s = c :: rest ∧ inClass ranges c = true.
Proof.
  cbn. destruct s as [|c s].
  - rewrite elem_of_nil. split; [done|]. by intros (c & ? & _).
  - destruct (inClass ranges c) eqn:Hc.
    + rewrite list_elem_of_singleton. split; [intros ->; by exists c|].
      by intros (c' & [= -> ->] & _).
    + rewrite elem_of_nil. split; [done|]. intros (c' & [= -> ->] & ?). congruence.
Qed.

Lemma rests_Cat (r1 r2 : Re) (s rest : list ascii) :
  rest ∈ rests (Cat r1 r2) s ↔ ∃ mid, mid ∈ rests r1 s ∧ rest ∈ rests r2 mid.
Proof. cbn [rests]. apply elem_of_flat_map. Qed.

Lemma rests_Alt (r1 r2 : Re) (s rest : list ascii) :
  rest ∈ rests (Alt r1 r2) s ↔ rest ∈ rests r1 s ∨ rest ∈ rests r2 s.
Proof. cbn [rests]. apply elem_of_app. Qed.

(** [k] matches of [r], one after the other, lead from [s] to [rest]. *)
Fixpoint rounds (r : Re) (k : nat) (s rest : list ascii) : Prop :=
  match k with
  | 0%nat => rest = s
  | S k' => ∃ mid, mid ∈ rests r s ∧ rounds r k' mid rest
  end.

(** The loop of [Repeat]. *)
Fixpoint times (r : Re) (n lo : nat) (s : list ascii) : list (list ascii) :=
  (if lo is 0%nat then [s] else [])
  ++ match n with
     | 0%nat => []
     | S n' => flat_map (times r n' (pred lo)) (rests r s)
     end.

Lemma rests_Repeat_times (r : Re) (lo : nat) (hi : option nat) (s : list ascii) :
  rests (Repeat r lo hi) s
  = times r (match hi with Some hi => hi | None => (lo + length s)%nat end) lo s.
Proof.
  cbn [rests]. generalize (match hi with Some hi => hi | None => (lo + length s)%nat end).
  intros n. revert lo s. induction n as [|n IH]; intros lo s; [done|].
  cbn [times]. f_equal. induction (rests r s) as [|mid mids IHm]; [done|].
  cbn [flat_map]. by rewrite <- IH, <- IHm.
Qed.

Lemma times_rounds (r : Re) (n : nat) :
  ∀ lo s rest,
    rest ∈ times r n lo s ↔ ∃ k, (lo ≤ k ≤ n)%nat ∧ rounds r k s rest.
Proof.
  induction n as [|n IH]; intros lo s rest; cbn [times]; rewrite elem_of_app.
  - rewrite elem_of_nil. split.
    + intros [Hin|[]]. destruct lo; [|by apply elem_of_nil in Hin].
      apply list_elem_of_singleton in Hin as ->. exists 0%nat. split; [lia|done].
    + intros (k & Hk & Hr). left. assert (k = 0%nat) as -> by lia.
      assert (lo = 0%nat) as -> by lia. cbn in Hr. subst. by left.
  - rewrite elem_of_flat_map. setoid_rewrite IH. split.
    + intros [Hin|(mid & Hmid & k & Hk & Hr)].
      * destruct lo; [|by apply elem_of_nil in Hin].
        apply list_elem_of_singleton in Hin as ->. exists 0%nat. split; [lia|done].
      * exists (S k). split; [lia|]. by exists mid.
    + intros ([|k] & Hk & Hr).
      * left. assert (lo = 0%nat) as -> by lia. cbn in Hr. subst. by left.
      * right. destruct Hr as (mid & Hmid & Hr). exists mid. split; [done|].
        exists k. split; [lia|done].
Qed.

(** A match takes bytes off the start of the string. *)
Lemma rests_suffix (r : Re) : ∀ s rest, rest ∈ rests r s → ∃ pre, s = pre ++ rest.
Proof.
  induction r as [ranges|r1 IH1 r2 IH2|r1 IH1 r2 IH2|r IH lo hi]; intros s rest.
  - intros (c & -> & _)%rests_Class. by exists [c].
  - intros (mid & [p1 ->]%IH1 & [p2 ->]%IH2)%rests_Cat. exists (p1 ++ p2).
    by rewrite (assoc_L (++)).
  - intros [?%IH1|?%IH2]%rests_Alt; done.
  - rewrite rests_Repeat_times. intros (k & _ & Hr)%times_rounds.
    revert s Hr. induction k as [|k IHk]; intros s Hr; cbn in Hr.
    + subst. by exists [].
    + destruct Hr as (mid & [p1 ->]%IH & [p2 ->]%IHk). exists (p1 ++ p2).
      by rewrite (assoc_L (++)).
Qed.

(** Rounds of a class take a run of its bytes. *)
Lemma rounds_Class (ranges : list (ascii * ascii)) (k : nat) :
  ∀ s rest,
    rounds (Class ranges) k s rest
    ↔ ∃ run, s = run ++ rest ∧ length run = k
             ∧ Forall (λ c, inClass ranges c = true) run.
Proof.
  induction k as [|k IH]; intros s rest; cbn [rounds].
  - split; [intros ->; by exists []|]. by intros ([|??] & -> & ? & _).
  - setoid_rewrite rests_Class. setoid_rewrite IH. split.
    + intros (mid & (c & -> & Hc) & run & -> & <- & Hrun). exists (c :: run).
      split_and!; [done|done|by constructor].
    + intros ([|c run] & -> & Hlen & Hrun); [done|].
      apply Forall_cons in Hrun as [Hc Hrun]. exists (run ++ rest).
      split; [by exists c|]. exists run. split_and!; [done|cbn in Hlen; lia|done].
Qed.

Lemma rests_Repeat_Class (ranges : list (ascii * ascii)) (lo : nat) (hi : option nat)
    (s rest : list ascii) :
  rest ∈ rests (Repeat (Class ranges) lo hi) s
  ↔ ∃ run, s = run ++ rest
           ∧ (lo ≤ length run)%nat ∧ (∀ h, hi = Some h → (length run ≤ h)%nat)
           ∧ Forall (λ c, inClass ranges c = true) run.
Proof.
  rewrite rests_Repeat_times, times_rounds. setoid_rewrite rounds_Class. split.
  - intros (k & Hk & run & -> & <- & Hrun). exists run. split_and!; [done|lia| |done].
    intros h ->. lia.
  - intros (run & -> & Hlo & Hhi & Hrun). exists (length run). split; [|by exists run].
    split; [done|]. destruct hi as [h|]; [by apply Hhi|]. rewrite length_app. lia.
Qed.

Lemma MatchString_spec (r : Re) (s : string) :
  MatchString r s = true ↔ [] ∈ rests r (Strings.bytes s).
Proof.
  unfold MatchString. rewrite existsb_exists. setoid_rewrite <- list_elem_of_In. split.
  - by intros ([|??] & Hin & ?).
  - intros Hin. by exists [].
Qed.

End RegexpFacts.

(** ** The rules with a fixed pattern *)

Import Regexp RegexpFacts.

Lemma bytes_app (a b : string) : Strings.bytes (a +:+ b) = Strings.bytes a ++ Strings.bytes b.
Proof. induction a as [|c a IH]; [done|]. rewrite string_app_cons. cbn. by f_equal. Qed.

Lemma str_app (a b : list ascii) : Strings.str (a ++ b) = Strings.str a +:+ Strings.str b.
Proof.
  unfold Strings.str. induction a as [|c a IH]; [done|]. cbn.
  by rewrite string_app_cons, IH.
Qed.

Lemma bytes_inj (s t : string) : Strings.bytes s = Strings.bytes t → s = t.
Proof. intros Hb. by rewrite <- (ASCII.str_bytes s), Hb, ASCII.str_bytes. Qed.

Lemma bytes_length (s : string) : length (Strings.bytes s) = String.length s.
Proof. induction s as [|c s IH]; [done|]. cbn. by f_equal. Qed.

(** A decimal digit. *)
Definition isDigit (c : ascii) : Prop := is_Some (Strconv.digit c).

Lemma inClass_range (lo hi c : ascii) :
  inClass [(lo, hi)] c = true ↔ (N_of_ascii lo ≤ N_of_ascii c ≤ N_of_ascii hi)%N.
Proof.
  unfold inClass. cbn. rewrite orb_false_r, andb_true_iff, !N.leb_le. done.
Qed.

Lemma inClass_lit (c c' : ascii) : inClass [(c, c)] c' = true ↔ c' = c.
Proof.
  rewrite inClass_range. split; [|by intros ->].
  intros Hc. rewrite <- (ascii_N_embedding c), <- (ascii_N_embedding c'). f_equal. lia.
Qed.

Lemma digit_range (c : ascii) : isDigit c ↔ (48 ≤ N_of_ascii c ≤ 57)%N.
Proof.
  unfold isDigit, Strconv.digit. cbn zeta.
  destruct (48 <=? Z.of_N (N_of_ascii c)) eqn:H1, (Z.of_N (N_of_ascii c) <=? 57) eqn:H2;
    cbn; rewrite ?Z.leb_le, ?Z.leb_gt in *;
    (split; [intros [??]; try done; lia|intros ?; try (by eexists); lia]).
Qed.

Lemma inClass_digit (c : ascii) : inClass [("0", "9")]%char c = true ↔ isDigit c.
Proof. by rewrite inClass_range, digit_range. Qed.

(** [n] decimal digits, and nothing else. *)
Definition decimal (n : nat) (p : string) : Prop :=
  String.length p = n ∧ Forall isDigit (Strings.bytes p).

Lemma rests_digits (n : nat) (s rest : list ascii) :
  rest ∈ rests (Repeat digit n (Some n)) s
  ↔ ∃ run, s = run ++ rest ∧ decimal n (Strings.str run).
Proof.
  unfold digit. rewrite rests_Repeat_Class. unfold decimal.
  setoid_rewrite ASCII.bytes_str. setoid_rewrite <- bytes_length.
  setoid_rewrite ASCII.bytes_str. split.
  - intros (run & -> & Hlo & Hhi & Hrun). exists run. split_and!; [done| |].
    + specialize (Hhi n eq_refl). lia.
    + eapply Forall_impl; [exact Hrun|]. intros c. apply inClass_digit.
  - intros (run & -> & Hlen & Hrun). exists run. split_and!; [done|lia| |].
    + intros h [= <-]. lia.
    + eapply Forall_impl; [exact Hrun|]. intros c. apply inClass_digit.
Qed.

Lemma rests_lit (c : ascii) (s rest : list ascii) :
  rest ∈ rests (lit c) s ↔ s = c :: rest.
Proof.
  unfold lit. rewrite rests_Class. split.
  - by intros (c' & -> & ->%inClass_lit).
  - intros ->. exists c. split; [done|]. by apply inClass_lit.
Qed.

(** X17: [iso_date] passes exactly the strings made of four digits, a
    hyphen, two digits, a hyphen and two digits.  It checks this shape and
    no more: any two digits pass for the month, and any two for the day. *)
Theorem iso_date_checks_the_shape (field : StructField) (s : string) :
  isoDateRule (VString s) field = []
  ↔ ∃ y m d, s = y +:+ "-" +:+ m +:+ "-" +:+ d
             ∧ decimal 4 y ∧ decimal 2 m ∧ decimal 2 d.
Proof.
  assert (isoDateRule (VString s) field = [] ↔ MatchString iso8601Pattern s = true) as ->.
  { unfold isoDateRule. by destruct (MatchString iso8601Pattern s). }
  rewrite MatchString_spec. unfold iso8601Pattern.
  rewrite rests_Cat. setoid_rewrite rests_Cat. setoid_rewrite rests_Cat.
  setoid_rewrite rests_Cat. setoid_rewrite rests_lit. setoid_rewrite rests_digits.
  split.
  - intros (m1 & (y & Hs & Hy) & m2 & -> & m3 & (m & -> & Hm) & m4 & -> & d & -> & Hd).
    exists (Strings.str y), (Strings.str m), (Strings.str d). split; [|done].
    apply bytes_inj. rewrite Hs, !bytes_app, !ASCII.bytes_str, (right_id_L [] (++)). done.
  - intros (y & m & d & -> & Hy & Hm & Hd).
    exists (Strings.bytes ("-" +:+ m +:+ "-" +:+ d)). split.
    { exists (Strings.bytes y). by rewrite ASCII.str_bytes, bytes_app. }
    exists (Strings.bytes (m +:+ "-" +:+ d)). split; [done|].
    exists (Strings.bytes ("-" +:+ d)). split.
    { exists (Strings.bytes m). by rewrite ASCII.str_bytes, bytes_app. }
    exists (Strings.bytes d). split; [done|].
    exists (Strings.bytes d). by rewrite ASCII.str_bytes, (right_id_L [] (++)).
Qed.

Lemma iso_date_checks_the_shape_witness :
  isoDateRule (VString "2024-13-99") (exported "JoinDate" []) = [].
Proof.
  apply iso_date_checks_the_shape. exists "2024", "13", "99".
  split; [reflexivity|]. unfold decimal.
  split_and!; try reflexivity; repeat constructor; by eexists.
Defined.

(** The decimal digit of a number below ten, and a number below a hundred
    written with two digits. *)
Definition digitChar (n : N) : ascii := ascii_of_N (48 + n).

Definition twoDigits (n : N) : string :=
  String (digitChar (n `div` 10)) (String (digitChar (n `mod` 10)) "").

Lemma N_of_digitChar (n : N) : (n < 10)%N → N_of_ascii (digitChar n) = (48 + n)%N.
Proof. intros Hn. unfold digitChar. apply N_ascii_embedding. lia. Qed.

(** Two bytes within ['0'..hi] and ['0'..'9'] are the two digits of a
    number below [10 * (hi + 1)]. *)
Lemma two_digit_bytes (a b : ascii) (tens : N) :
  (tens < 10)%N →
  (48 ≤ N_of_ascii a ≤ 48 + tens)%N → (48 ≤ N_of_ascii b ≤ 57)%N →
  ∃ n, (n < 10 * (tens + 1))%N ∧ [a; b] = Strings.bytes (twoDigits n)
       ∧ n = ((N_of_ascii a - 48) * 10 + (N_of_ascii b - 48))%N.
Proof.
  intros Ht Ha Hb.
  exists ((N_of_ascii a - 48) * 10 + (N_of_ascii b - 48))%N. split_and!; [lia| |done].
  unfold twoDigits. cbn.
  assert (((N_of_ascii a - 48) * 10 + (N_of_ascii b - 48)) `div` 10 = N_of_ascii a - 48)%N
    as -> by (symmetry; apply (N.div_unique _ 10 _ (N_of_ascii b - 48)); lia).
  assert (((N_of_ascii a - 48) * 10 + (N_of_ascii b - 48)) `mod` 10 = N_of_ascii b - 48)%N
    as -> by (symmetry; apply (N.mod_unique _ 10 (N_of_ascii a - 48)); lia).
  unfold digitChar.
  replace (48 + (N_of_ascii a - 48))%N with (N_of_ascii a) by lia.
  replace (48 + (N_of_ascii b - 48))%N with (N_of_ascii b) by lia.
  by rewrite !ascii_N_embedding.
Qed.

Lemma twoDigits_bytes (n : N) :
  (n < 100)%N →
  ∃ a b q r, Strings.bytes (twoDigits n) = [a; b]
             ∧ N_of_ascii a = (48 + q)%N ∧ N_of_ascii b = (48 + r)%N
             ∧ (n = 10 * q + r)%N ∧ (r < 10)%N.
Proof.
  intros Hn. exists (digitChar (n `div` 10)), (digitChar (n `mod` 10)), (n `div` 10)%N,
    (n `mod` 10)%N.
  assert (n `div` 10 < 10)%N by (apply N.Div0.div_lt_upper_bound; lia).
  assert (n `mod` 10 < 10)%N by (apply N.mod_lt; lia).
  split_and!; [done|by apply N_of_digitChar..| |done].
  apply N.div_mod. lia.
Qed.

(** X18: [time] passes exactly the strings [HH:MM:SS] of an hour below
    24, a minute and a second below 60, each written with two digits. *)
Theorem time_rule_accepts_clock_times (field : StructField) (s : string) :
  timeRule (VString s) field = []
  ↔ ∃ h m sec : N,
      (h < 24)%N ∧ (m < 60)%N ∧ (sec < 60)%N
      ∧ s = twoDigits h +:+ ":" +:+ twoDigits m +:+ ":" +:+ twoDigits sec.
Proof.
  assert (timeRule (VString s) field = [] ↔ MatchString timePattern s = true) as ->.
  { unfold timeRule. by destruct (MatchString timePattern s). }
  rewrite MatchString_spec. unfold timePattern, digit.
  repeat setoid_rewrite rests_Cat. setoid_rewrite rests_Alt.
  repeat setoid_rewrite rests_Cat.
  setoid_rewrite rests_lit. setoid_rewrite rests_Class.
  setoid_rewrite inClass_range. change (N_of_ascii "0") with 48%N.
  change (N_of_ascii "1") with 49%N. change (N_of_ascii "3") with 51%N.
  change (N_of_ascii "5") with 53%N. change (N_of_ascii "9") with 57%N.
  split.
  - intros (m1 & Hhour & m2 & -> & m3 & (m4 & (c & -> & Hc) & d & -> & Hd)
            & m5 & -> & m6 & (e & -> & He) & f & -> & Hf).
    assert (∃ a b, Strings.bytes s = a :: b :: ":"%char :: c :: d :: ":"%char :: [e; f]
                   ∧ ((48 ≤ N_of_ascii a ≤ 49 ∧ 48 ≤ N_of_ascii b ≤ 57)
                      ∨ (a = "2"%char ∧ 48 ≤ N_of_ascii b ≤ 51))%N)
      as (a & b & Hs & Hab).
    { destruct Hhour as [(m0 & (a & Hs & Ha) & b & -> & Hb)|(m0 & Hs & b & -> & Hb)].
      - exists a, b. split; [done|]. by left.
      - exists "2"%char, b. split; [done|]. by right. }
    assert (∃ h, (h < 24)%N ∧ [a; b] = Strings.bytes (twoDigits h)) as (h & Hh & Hhb).
    { destruct Hab as [[Ha Hb]|[-> Hb]].
      - destruct (two_digit_bytes a b 1) as (h & Hh & Heq & _); [lia..|].
        exists h. split; [lia|done].
      - destruct (two_digit_bytes "2" b 2) as (h & Hh & Heq & Hval);
          [lia|cbn; lia|lia|].
        exists h. split; [|done]. subst h. change (N_of_ascii "2") with 50%N. lia. }
    destruct (two_digit_bytes c d 5) as (m & Hm & Hmb & _); [lia..|].
    destruct (two_digit_bytes e f 5) as (sec & Hsec & Hsb & _); [lia..|].
    exists h, m, sec. split_and!; [lia..|].
    apply bytes_inj. rewrite Hs, !bytes_app, <- Hhb, <- Hmb, <- Hsb. done.
  - intros (h & m & sec & Hh & Hm & Hsec & ->).
    destruct (twoDigits_bytes h) as (a & b & qh & rh & Hhb & Ha & Hb & Hhq & Hhr); [lia|].
    destruct (twoDigits_bytes m) as (c & d & qm & rm & Hmb & Hc & Hd & Hmq & Hmr); [lia|].
    destruct (twoDigits_bytes sec) as (e & f & qs & rs & Hsb & He & Hf & Hsq & Hsr); [lia|].
    rewrite !bytes_app, Hhb, Hmb, Hsb. cbn [app Strings.bytes list_ascii_of_string].
    exists (":"%char :: c :: d :: ":"%char :: [e; f]). split.
    { destruct (decide (h < 20)%N) as [Hlt|Hge].
      - left. exists [b; ":"; c; d; ":"; e; f]%char. split.
        + exists a. split; [done|lia].
        + exists b. split; [done|lia].
      - right. exists [b; ":"; c; d; ":"; e; f]%char. split.
        + f_equal. rewrite <- (ascii_N_embedding a), Ha.
          by replace qh with 2%N by lia.
        + exists b. split; [done|lia]. }
    exists [c; d; ":"; e; f]%char. split; [done|].
    exists [":"; e; f]%char. split.
    { exists [d; ":"; e; f]%char. split; [exists c; split; [done|lia]|].
      exists d. split; [done|lia]. }
    exists [e; f]. split; [done|]. exists [f]. split; [exists e; split; [done|lia]|].
    exists f. split; [done|lia].
Qed.

(** *** [ipv4] *)

Lemma digits_isDigit (l : list ascii) :
  ∀ acc n, Strconv.digits acc l = Some n → Forall isDigit l.
Proof.
  induction l as [|c l IH]; intros acc n Hd; [constructor|]. cbn in Hd.
  destruct (Strconv.digit c) as [d|] eqn:Hc; [|done].
  constructor; [by exists d|by eapply IH].
Qed.

Lemma digit_bound (c : ascii) (d : Z) : Strconv.digit c = Some d → 0 ≤ d ≤ 9.
Proof.
  unfold Strconv.digit. cbn zeta.
  destruct (48 <=? Z.of_N (N_of_ascii c)) eqn:H1, (Z.of_N (N_of_ascii c) <=? 57) eqn:H2;
    cbn; try done. rewrite ?Z.leb_le in *. intros [= <-]. lia.
Qed.

Lemma isDigit_digits (l : list ascii) :
  Forall isDigit l →
  ∀ acc, 0 ≤ acc →
    ∃ n, Strconv.digits acc l = Some n
         ∧ 0 ≤ n < (acc + 1) * 10 ^ Z.of_nat (length l).
Proof.
  induction 1 as [|c l [d Hc] _ IH]; intros acc Hacc.
  - exists acc. split; [done|]. cbn. lia.
  - pose proof (digit_bound _ _ Hc) as Hd. cbn [Strconv.digits]. rewrite Hc.
    destruct (IH (acc * 10 + d)) as (n & Hn & Hb); [lia|]. exists n. split; [done|].
    cbn [length]. rewrite Nat2Z.inj_succ, Z.pow_succ_r by lia.
    assert (0 < 10 ^ Z.of_nat (length l)) by (apply Z.pow_pos_nonneg; lia). nia.
Qed.

Lemma isDigit_lacks (sep : ascii) (p : string) :
  ¬ isDigit sep → Forall isDigit (Strings.bytes p) → lacks sep p.
Proof.
  intros Hsep. induction p as [|c p IH]; [done|]. cbn.
  intros [Hc Hp]%Forall_cons. split; [by intros ->|by apply IH].
Qed.

(** A part of an address: one to three digits that read as at most 255. *)
Definition octet (p : string) : Prop :=
  (1 ≤ String.length p ≤ 3)%nat
  ∧ ∃ n, Strconv.digits 0 (Strings.bytes p) = Some n ∧ n ≤ 255.

(** One to three digits. *)
Definition shortRun (run : list ascii) : Prop :=
  (1 ≤ length run ≤ 3)%nat ∧ Forall isDigit run.

Lemma rests_shortRun (s rest : list ascii) :
  rest ∈ rests (Repeat digit 1 (Some 3%nat)) s ↔ ∃ run, s = run ++ rest ∧ shortRun run.
Proof.
  unfold digit, shortRun. rewrite rests_Repeat_Class. split.
  - intros (run & -> & Hlo & Hhi & Hrun). exists run. split_and!; [done|done| |].
    + by apply Hhi.
    + eapply Forall_impl; [exact Hrun|]. intros c. apply inClass_digit.
  - intros (run & -> & [Hlo Hhi] & Hrun). exists run. split_and!; [done|done| |].
    + by intros h [= <-].
    + eapply Forall_impl; [exact Hrun|]. intros c. apply inClass_digit.
Qed.

Lemma rests_group (s rest : list ascii) :
  rest ∈ rests (Cat (Repeat digit 1 (Some 3%nat)) (lit ".")) s
  ↔ ∃ run, s = run ++ "."%char :: rest ∧ shortRun run.
Proof.
  rewrite rests_Cat. setoid_rewrite rests_shortRun. setoid_rewrite rests_lit. split.
  - intros (mid & (run & -> & Hrun) & ->). by exists run.
  - intros (run & -> & Hrun). exists ("."%char :: rest). split; [by exists run|done].
Qed.

Lemma rests_three_groups (s rest : list ascii) :
  rest ∈ rests (Repeat (Cat (Repeat digit 1 (Some 3%nat)) (lit ".")) 3 (Some 3%nat)) s
  ↔ ∃ r1 r2 r3,
      s = r1 ++ "."%char :: r2 ++ "."%char :: r3 ++ "."%char :: rest
      ∧ shortRun r1 ∧ shortRun r2 ∧ shortRun r3.
Proof.
  rewrite rests_Repeat_times, times_rounds. split.
  - intros (k & Hk & Hr). assert (k = 3%nat) as -> by lia. cbn [rounds] in Hr.
    destruct Hr as (m1 & (r1 & -> & H1)%rests_group & m2 & (r2 & -> & H2)%rests_group
                    & m3 & (r3 & -> & H3)%rests_group & ->).
    by exists r1, r2, r3.
  - intros (r1 & r2 & r3 & -> & H1 & H2 & H3). exists 3%nat. split; [lia|]. cbn [rounds].
    exists (r2 ++ "."%char :: r3 ++ "."%char :: rest).
    split; [apply rests_group; by exists r1|].
    exists (r3 ++ "."%char :: rest). split; [apply rests_group; by exists r2|].
    exists rest. split; [apply rests_group; by exists r3|done].
Qed.

Lemma ipv4Pattern_spec (s : string) :
  MatchString ipv4Pattern s = true
  ↔ ∃ r1 r2 r3 r4,
      Strings.bytes s = r1 ++ "."%char :: r2 ++ "."%char :: r3 ++ "."%char :: r4
      ∧ shortRun r1 ∧ shortRun r2 ∧ shortRun r3 ∧ shortRun r4.
Proof.
  rewrite MatchString_spec. unfold ipv4Pattern. rewrite rests_Cat. split.
  - intros (mid & (r1 & r2 & r3 & -> & H1 & H2 & H3)%rests_three_groups
            & (r4 & -> & H4)%rests_shortRun).
    exists r1, r2, r3, r4. by rewrite (right_id_L [] (++)).
  - intros (r1 & r2 & r3 & r4 & -> & H1 & H2 & H3 & H4). exists r4. split.
    + apply rests_three_groups. by exists r1, r2, r3.
    + apply rests_shortRun. exists r4. by rewrite (right_id_L [] (++)).
Qed.

Lemma shortRun_Atoi (run : list ascii) :
  shortRun run →
  ∃ n, Strconv.digits 0 run = Some n ∧ Strconv.Atoi (Strings.str run) = Some n ∧ 0 ≤ n.
Proof.
  intros [[Hlo Hhi] Hrun]. destruct (isDigit_digits run Hrun 0) as (n & Hn & Hb); [done|].
  exists n. split; [done|]. destruct run as [|c l]; [cbn in Hlo; lia|].
  split; [|lia]. apply Atoi_digits; [done|].
  assert (10 ^ Z.of_nat (length (c :: l)) ≤ 10 ^ 3) by (apply Z.pow_le_mono_r; lia). lia.
Qed.

Lemma octet_shortRun (p : string) : octet p → shortRun (Strings.bytes p).
Proof.
  intros [Hlen (n & Hn & _)]. split; [by rewrite bytes_length|by eapply digits_isDigit].
Qed.

Lemma not_isDigit_dot : ¬ isDigit ".".
Proof. rewrite digit_range. cbn. lia. Qed.

Lemma shortRun_lacks_dot (run : list ascii) : shortRun run → lacks "." (Strings.str run).
Proof.
  intros [_ Hrun]. apply isDigit_lacks; [apply not_isDigit_dot|]. by rewrite ASCII.bytes_str.
Qed.

Lemma splitByte_four (p1 p2 p3 p4 : string) :
  lacks "." p1 → lacks "." p2 → lacks "." p3 → lacks "." p4 →
  Strings.splitByte "." (p1 +:+ "." +:+ p2 +:+ "." +:+ p3 +:+ "." +:+ p4) = [p1; p2; p3; p4].
Proof.
  intros H1 H2 H3 H4. rewrite !string_app_cons, !string_app_nil.
  rewrite !splitByte_app by done. by rewrite splitByte_lacks.
Qed.

(** X19: [ipv4] passes exactly the strings made of four parts separated by
    dots, each of one to three digits that read as a number up to 255;
    zeros in front are allowed. *)
Theorem ipv4_rule_accepts_four_octets (field : StructField) (s : string) :
  ipv4Rule (VString s) field = []
  ↔ ∃ p1 p2 p3 p4,
      s = p1 +:+ "." +:+ p2 +:+ "." +:+ p3 +:+ "." +:+ p4
      ∧ octet p1 ∧ octet p2 ∧ octet p3 ∧ octet p4.
Proof.
  assert (∀ run, shortRun run →
            (match Strconv.Atoi (Strings.str run) with
             | Some num => negb ((num <? 0) || (255 <? num))
             | None => false
             end = true ↔ octet (Strings.str run))) as Hpart.
  { intros run Hrun. destruct (shortRun_Atoi run Hrun) as (n & Hd & -> & Hn).
    unfold octet. rewrite ASCII.bytes_str, <- bytes_length, ASCII.bytes_str, Hd.
    destruct Hrun as [Hlen _].
    rewrite negb_true_iff, orb_false_iff, !Z.ltb_ge. split.
    - intros [_ Hle]. split; [done|]. by exists n.
    - intros [_ (n' & [= <-] & Hle)]. done. }
  unfold ipv4Rule. destruct (MatchString ipv4Pattern s) eqn:Hmatch; cbn [negb].
  - apply ipv4Pattern_spec in Hmatch as (r1 & r2 & r3 & r4 & Hs & H1 & H2 & H3 & H4).
    assert (s = Strings.str r1 +:+ "." +:+ Strings.str r2 +:+ "." +:+ Strings.str r3
                +:+ "." +:+ Strings.str r4) as Hstr.
    { apply bytes_inj. by rewrite Hs, !bytes_app, !ASCII.bytes_str. }
    assert (Strings.splitByte "." s
            = [Strings.str r1; Strings.str r2; Strings.str r3; Strings.str r4]) as Hsplit.
    { rewrite Hstr. apply splitByte_four; by apply shortRun_lacks_dot. }
    rewrite Hsplit. cbn [forallb]. rewrite andb_true_r.
    match goal with |- (if ?b then _ else _) = _ ↔ _ =>
      assert (b = true ↔ octet (Strings.str r1) ∧ octet (Strings.str r2)
                         ∧ octet (Strings.str r3) ∧ octet (Strings.str r4)) as Hall
        by (rewrite !andb_true_iff, !Hpart by done; tauto);
      destruct b end.
    + split; [intros _|done]. exists (Strings.str r1), (Strings.str r2), (Strings.str r3),
        (Strings.str r4). split; [done|]. by apply Hall.
    + split; [done|]. intros (p1 & p2 & p3 & p4 & Hp & Ho1 & Ho2 & Ho3 & Ho4).
      assert (Strings.splitByte "." s = [p1; p2; p3; p4]) as Hsplit'.
      { rewrite Hp. apply splitByte_four;
          rewrite <- (ASCII.str_bytes _); by apply shortRun_lacks_dot, octet_shortRun. }
      rewrite Hsplit in Hsplit'. injection Hsplit' as <- <- <- <-.
      assert (false = true) as Habs by (by apply Hall). done.
  - split; [done|]. intros (p1 & p2 & p3 & p4 & -> & Ho1 & Ho2 & Ho3 & Ho4).
    assert (MatchString ipv4Pattern (p1 +:+ "." +:+ p2 +:+ "." +:+ p3 +:+ "." +:+ p4) = true)
      as Hyes; [|congruence].
    apply ipv4Pattern_spec.
    exists (Strings.bytes p1), (Strings.bytes p2), (Strings.bytes p3), (Strings.bytes p4).
    split; [by rewrite !bytes_app|]. split_and!; by apply octet_shortRun.
Qed.

Lemma ipv4_rule_accepts_four_octets_witness :
  ipv4Rule (VString "010.001.000.255") (exported "IPAddress" []) = [].
Proof.
  apply ipv4_rule_accepts_four_octets. exists "010", "001", "000", "255".
  split; [reflexivity|]. unfold octet.
  split_and!; try (cbn; lia); eexists; (split; [vm_compute; reflexivity|lia]).
Defined.

Lemma time_rule_accepts_clock_times_witness :
  timeRule (VString "23:59:59") (exported "LastActive" []) = [].
Proof.
  apply time_rule_accepts_clock_times. exists 23%N, 59%N, 59%N.
  split_and!; [lia..|reflexivity].
Defined.

(** *** [email] *)

(** A letter of the ASCII alphabet. *)
Definition isLetter (c : ascii) : Prop :=
  (65 ≤ N_of_ascii c ≤ 90 ∨ 97 ≤ N_of_ascii c ≤ 122)%N.

(** The bytes the pattern allows before the [@], and after it. *)
Definition localByte (c : ascii) : Prop :=
  isLetter c ∨ isDigit c ∨ c ∈ ["."; "_"; "%"; "+"; "-"]%char.

Definition domainByte (c : ascii) : Prop :=
  isLetter c ∨ isDigit c ∨ c ∈ ["."; "-"]%char.

Lemma inClass_cons (r : ascii * ascii) (ranges : list (ascii * ascii)) (c : ascii) :
  inClass (r :: ranges) c = true
  ↔ (N_of_ascii r.1 ≤ N_of_ascii c ≤ N_of_ascii r.2)%N ∨ inClass ranges c = true.
Proof. unfold inClass. cbn. by rewrite orb_true_iff, andb_true_iff, !N.leb_le. Qed.

Lemma byte_between (c c' : ascii) :
  (N_of_ascii c ≤ N_of_ascii c' ≤ N_of_ascii c)%N ↔ c' = c.
Proof. by rewrite <- inClass_range, inClass_lit. Qed.

Lemma inClass_letter (c : ascii) :
  inClass [("a", "z"); ("A", "Z")]%char c = true ↔ isLetter c.
Proof.
  rewrite !inClass_cons. unfold isLetter. cbn.
  split; [intros [?|[?|?]]|intros [?|?]]; try done; auto.
Qed.

Lemma inClass_local (c : ascii) :
  inClass [("a", "z"); ("A", "Z"); ("0", "9");
           (".", "."); ("_", "_"); ("%", "%"); ("+", "+"); ("-", "-")]%char c = true
  ↔ localByte c.
Proof.
  rewrite !inClass_cons. cbn [fst snd]. rewrite !byte_between. unfold localByte, isLetter.
  rewrite digit_range, !elem_of_cons, elem_of_nil. cbn. unfold inClass. cbn. intuition discriminate.
Qed.

Lemma inClass_domain (c : ascii) :
  inClass [("a", "z"); ("A", "Z"); ("0", "9"); (".", "."); ("-", "-")]%char c = true
  ↔ domainByte c.
Proof.
  rewrite !inClass_cons. cbn [fst snd]. rewrite !byte_between. unfold domainByte, isLetter.
  rewrite digit_range, !elem_of_cons, elem_of_nil. cbn. unfold inClass. cbn. intuition discriminate.
Qed.

Lemma rests_run (ranges : list (ascii * ascii)) (P : ascii → Prop) (lo : nat)
    (s rest : list ascii) :
  (∀ c, inClass ranges c = true ↔ P c) →
  rest ∈ rests (Repeat (Class ranges) lo None) s
  ↔ ∃ run, s = run ++ rest ∧ (lo ≤ length run)%nat ∧ Forall P run.
Proof.
  intros HP. rewrite rests_Repeat_Class. split.
  - intros (run & -> & Hlo & _ & Hrun). exists run. split_and!; [done..|].
    eapply Forall_impl; [exact Hrun|]. intros c. apply HP.
  - intros (run & -> & Hlo & Hrun). exists run. split_and!; [done..| |].
    + by intros h [=].
    + eapply Forall_impl; [exact Hrun|]. intros c. apply HP.
Qed.

Lemma emailPattern_spec (s : string) :
  MatchString emailPattern s = true
  ↔ ∃ loc dom tld,
      Strings.bytes s = loc ++ "@"%char :: dom ++ "."%char :: tld
      ∧ (1 ≤ length loc)%nat ∧ Forall localByte loc
      ∧ (1 ≤ length dom)%nat ∧ Forall domainByte dom
      ∧ (2 ≤ length tld)%nat ∧ Forall isLetter tld.
Proof.
  rewrite MatchString_spec. unfold emailPattern. split.
  - intros (m1 & (loc & Hs & Hl1 & Hl2)%(rests_run _ _ _ _ _ inClass_local)
            & (m2 & ->%rests_lit
               & (m3 & (dom & -> & Hd1 & Hd2)%(rests_run _ _ _ _ _ inClass_domain)
                  & (m4 & ->%rests_lit
                     & (tld & -> & Ht1 & Ht2)%(rests_run _ _ _ _ _ inClass_letter)
                    )%rests_Cat)%rests_Cat)%rests_Cat)%rests_Cat.
    exists loc, dom, tld. rewrite (right_id_L [] (++)) in Hs. done.
  - intros (loc & dom & tld & Hs & Hl1 & Hl2 & Hd1 & Hd2 & Ht1 & Ht2).
    apply rests_Cat. exists ("@"%char :: dom ++ "."%char :: tld). split.
    { apply (rests_run _ _ _ _ _ inClass_local). by exists loc. }
    apply rests_Cat. exists (dom ++ "."%char :: tld). split; [by apply rests_lit|].
    apply rests_Cat. exists ("."%char :: tld). split.
    { apply (rests_run _ _ _ _ _ inClass_domain). by exists dom. }
    apply rests_Cat. exists tld. split; [by apply rests_lit|].
    apply (rests_run _ _ _ _ _ inClass_letter). exists tld.
    by rewrite (right_id_L [] (++)).
Qed.

(** X20: [email] passes exactly the strings made of a part before an [@],
    not empty, of letters, digits and [._%+-]; a part after it, not empty,
    of letters, digits, dots and hyphens; a dot; and at least two letters.
    Letters are those of the ASCII alphabet. *)
Theorem email_rule_shape (field : StructField) (s : string) :
  emailRule (VString s) field = []
  ↔ ∃ loc dom tld,
      s = loc +:+ "@" +:+ dom +:+ "." +:+ tld
      ∧ loc ≠ "" ∧ Forall localByte (Strings.bytes loc)
      ∧ dom ≠ "" ∧ Forall domainByte (Strings.bytes dom)
      ∧ (2 ≤ String.length tld)%nat ∧ Forall isLetter (Strings.bytes tld).
Proof.
  assert (emailRule (VString s) field = [] ↔ MatchString emailPattern s = true) as ->.
  { unfold emailRule. by destruct (MatchString emailPattern s). }
  rewrite emailPattern_spec. split.
  - intros (loc & dom & tld & Hs & Hl1 & Hl2 & Hd1 & Hd2 & Ht1 & Ht2).
    exists (Strings.str loc), (Strings.str dom), (Strings.str tld).
    rewrite <- !bytes_length, !ASCII.bytes_str. split_and!; try done.
    + apply bytes_inj. by rewrite Hs, !bytes_app, !ASCII.bytes_str.
    + destruct loc; [cbn in Hl1; lia|done].
    + destruct dom; [cbn in Hd1; lia|done].
  - intros (loc & dom & tld & -> & Hl1 & Hl2 & Hd1 & Hd2 & Ht1 & Ht2).
    exists (Strings.bytes loc), (Strings.bytes dom), (Strings.bytes tld).
    rewrite !bytes_length. split_and!; try done.
    + by rewrite !bytes_app.
    + destruct loc; [done|cbn; lia].
    + destruct dom; [done|cbn; lia].
Qed.

Lemma email_rule_shape_witness :
  emailRule (VString "jo@ex.com") (exported "Email" []) = [].
Proof.
  apply email_rule_shape. exists "jo", "ex", "com".
  assert (∀ c, (97 ≤ N_of_ascii c ≤ 122)%N → isLetter c) as Hletter
    by (intros c Hc; by right).
  split_and!.
  - reflexivity.
  - discriminate.
  - repeat apply Forall_cons_2; try apply Forall_nil_2; left; apply Hletter; cbn; lia.
  - discriminate.
  - repeat apply Forall_cons_2; try apply Forall_nil_2; left; apply Hletter; cbn; lia.
  - cbn. lia.
  - repeat apply Forall_cons_2; try apply Forall_nil_2; apply Hletter; cbn; lia.
Defined.

(** ** The built-in transformers and the fixed patterns *)

(** All the bytes the classes of an expression hold. *)
Fixpoint alphabet (r : Re) : list (ascii * ascii) :=
  match r with
  | Class ranges => ranges
  | Cat r1 r2 | Alt r1 r2 => alphabet r1 ++ alphabet r2
  | Repeat r _ _ => alphabet r
  end.

Lemma inClass_app (a b : list (ascii * ascii)) (c : ascii) :
  inClass (a ++ b) c = inClass a c || inClass b c.
Proof. unfold inClass. apply existsb_app. Qed.

(** What a match takes off the string is made of bytes of the classes. *)
Lemma rests_alphabet (r : Re) :
  ∀ s rest, rest ∈ rests r s →
            ∃ pre, s = pre ++ rest ∧ Forall (λ c, inClass (alphabet r) c = true) pre.
Proof.
  induction r as [ranges|r1 IH1 r2 IH2|r1 IH1 r2 IH2|r IH lo hi]; intros s rest;
    cbn [alphabet].
  - intros (c & -> & Hc)%rests_Class. exists [c]. split; [done|by constructor].
  - intros (mid & (p1 & -> & H1)%IH1 & (p2 & -> & H2)%IH2)%rests_Cat. exists (p1 ++ p2).
    split; [by rewrite (assoc_L (++))|]. apply Forall_app. split.
    + eapply Forall_impl; [exact H1|]. intros c Hc. by rewrite inClass_app, Hc.
    + eapply Forall_impl; [exact H2|]. intros c Hc. by rewrite inClass_app, Hc, orb_true_r.
  - intros [(p & -> & Hp)%IH1|(p & -> & Hp)%IH2]%rests_Alt; exists p; (split; [done|]).
    + eapply Forall_impl; [exact Hp|]. intros c Hc. by rewrite inClass_app, Hc.
    + eapply Forall_impl; [exact Hp|]. intros c Hc. by rewrite inClass_app, Hc, orb_true_r.
  - rewrite rests_Repeat_times. intros (k & _ & Hr)%times_rounds.
    revert s Hr. induction k as [|k IHk]; intros s Hr; cbn in Hr.
    + subst. by exists [].
    + destruct Hr as (mid & (p1 & -> & H1)%IH & (p2 & -> & H2)%IHk). exists (p1 ++ p2).
      split; [by rewrite (assoc_L (++))|]. by apply Forall_app.
Qed.

Lemma MatchString_alphabet (r : Re) (s : string) :
  MatchString r s = true → Forall (λ c, inClass (alphabet r) c = true) (Strings.bytes s).
Proof.
  intros (pre & Hs & Hpre)%MatchString_spec%rests_alphabet.
  by rewrite Hs, (right_id_L [] (++)).
Qed.

(** Every class of the expression holds, with a byte, what [f] makes of it. *)
Fixpoint respects (f : ascii → ascii) (r : Re) : Prop :=
  match r with
  | Class ranges => ∀ c, inClass ranges c = true → inClass ranges (f c) = true
  | Cat r1 r2 | Alt r1 r2 => respects f r1 ∧ respects f r2
  | Repeat r _ _ => respects f r
  end.

Lemma rests_fmap (f : ascii → ascii) (r : Re) :
  respects f r → ∀ s rest, rest ∈ rests r s → f <$> rest ∈ rests r (f <$> s).
Proof.
  induction r as [ranges|r1 IH1 r2 IH2|r1 IH1 r2 IH2|r IH lo hi]; cbn [respects];
    intros Hf s rest.
  - intros (c & -> & Hc)%rests_Class. apply rests_Class. exists (f c). split; [done|auto].
  - destruct Hf as [Hf1 Hf2]. intros (mid & H1 & H2)%rests_Cat. apply rests_Cat.
    exists (f <$> mid). split; [by apply IH1|by apply IH2].
  - destruct Hf as [Hf1 Hf2]. intros [H1|H2]%rests_Alt; apply rests_Alt;
      [left; by apply IH1|right; by apply IH2].
  - rewrite !rests_Repeat_times, !times_rounds, length_fmap.
    intros (k & Hk & Hr). exists k. split; [done|].
    clear Hk. revert s Hr. induction k as [|k IHk]; intros s Hr; cbn in *.
    + by subst.
    + destruct Hr as (mid & Hmid & Hr). exists (f <$> mid). split; [by apply IH|by apply IHk].
Qed.

Lemma MatchString_fmap (f : ascii → ascii) (r : Re) (s : string) :
  respects f r → MatchString r s = true →
  MatchString r (Strings.str (f <$> Strings.bytes s)) = true.
Proof.
  intros Hf Hs%MatchString_spec. apply MatchString_spec. rewrite ASCII.bytes_str.
  by apply (rests_fmap f r Hf _ []).
Qed.

(** An ASCII byte that is not a space, and one that has no other case. *)
Definition tidy (c : ascii) : Prop :=
  Strings.nonASCII c = false ∧ Strings.asciiSpace c = false.

Definition caseless (c : ascii) : Prop :=
  Strings.lowerByte c = c ∧ Strings.upperByte c = c.

Section KeepValid.
Context `{Strings.Unicode}.

Lemma tidy_settled (s : string) :
  Forall tidy (Strings.bytes s) →
  Strings.isASCII s = true ∧ settled Trim s ∧ settled RemoveWhitespace s.
Proof.
  intros Hs. split_and!.
  - apply ASCII.isASCII_allASCII. eapply Forall_impl; [exact Hs|]. by intros c [? _].
  - cbn. split.
    + destruct (Strings.bytes s) as [|c l]; [done|]. by apply Forall_inv in Hs as [_ ?].
    + apply Forall_reverse in Hs. destruct (reverse (Strings.bytes s)) as [|c l]; [done|].
      by apply Forall_inv in Hs as [_ ?].
  - cbn. eapply Forall_impl; [exact Hs|]. intros c [_ Hc]. by apply ASCII.space_not_kept.
Qed.

Lemma caseless_settled (s : string) :
  Forall caseless (Strings.bytes s) → settled Lowercase s ∧ settled Uppercase s.
Proof.
  intros Hs. cbn. split.
  - rewrite <- (list_fmap_id (Strings.bytes s)) at 2. apply Forall_fmap_ext_1.
    eapply Forall_impl; [exact Hs|]. by intros c [? _].
  - rewrite <- (list_fmap_id (Strings.bytes s)) at 2. apply Forall_fmap_ext_1.
    eapply Forall_impl; [exact Hs|]. by intros c [_ ?].
Qed.

(** A pattern of tidy bytes with classes closed under both changes of
    case: every built-in keeps a matching string matching. *)
Lemma applyBuiltin_keeps_match (r : Re) (b : Builtin) (s : string) :
  (∀ c, inClass (alphabet r) c = true → tidy c) →
  respects Strings.lowerByte r → respects Strings.upperByte r →
  MatchString r s = true → MatchString r (applyBuiltin b s) = true.
Proof.
  intros Htidy Hlower Hupper Hs.
  assert (Forall tidy (Strings.bytes s)) as Hbytes.
  { eapply Forall_impl; [by apply MatchString_alphabet|]. done. }
  destruct (tidy_settled s Hbytes) as (Hascii & Htrim & Hremove).
  destruct b.
  - by rewrite (settled_noop Trim).
  - by rewrite (settled_noop RemoveWhitespace).
  - rewrite (applyBuiltin_bytes Lowercase) by done. by apply MatchString_fmap.
  - rewrite (applyBuiltin_bytes Uppercase) by done. by apply MatchString_fmap.
Qed.

(** A pattern of tidy bytes without case: every built-in leaves a
    matching string as it is. *)
Lemma applyBuiltin_leaves_match (r : Re) (b : Builtin) (s : string) :
  (∀ c, inClass (alphabet r) c = true → tidy c ∧ caseless c) →
  MatchString r s = true → applyBuiltin b s = s.
Proof.
  intros Hplain Hs.
  assert (Forall (λ c, tidy c ∧ caseless c) (Strings.bytes s)) as Hbytes.
  { eapply Forall_impl; [by apply MatchString_alphabet|]. done. }
  apply Forall_and in Hbytes as [Htidy Hcase].
  destruct (tidy_settled s Htidy) as (Hascii & Htrim & Hremove).
  destruct (caseless_settled s Hcase) as [Hlower Hupper].
  apply settled_noop; [done|]. by destruct b.
Qed.

Lemma runBuiltins_invariant (P : string → Prop) (names : list string) :
  (∀ b s, P s → P (applyBuiltin b s)) → ∀ s, P s → P (runBuiltins names s).
Proof.
  intros HP. induction names as [|t names IH]; intros s Hs; [done|].
  rewrite runBuiltins_cons. apply IH. destruct (builtinOf t); [by apply HP|done].
Qed.

Lemma ownString_invariant (P : string → Prop) (fl : flag) (tagged : StructField) (s : string) :
  (∀ b s, P s → P (applyBuiltin b s)) → P s → P (ownString fl tagged s).
Proof.
  intros HP Hs. unfold ownString. destruct (negb (CanSet fl)); [done|].
  case_decide; [done|]. by apply runBuiltins_invariant.
Qed.

(** What [applyTransformations] with the built-ins makes of a string that
    passes the rule passes it too. *)
Definition keptValid (rule : ValidationRule) : Prop :=
  ∀ fl tagged field s,
    rule (VString s) field = [] →
    ∃ s', applyTransformations builtinTransformers fl (VString s) tagged
          = (VString s', None)
          ∧ rule (VString s') field = [].

(** [applyTransformations] with the built-ins leaves a string that passes
    the rule as it is. *)
Definition leftAlone (rule : ValidationRule) : Prop :=
  ∀ fl tagged field s,
    rule (VString s) field = [] →
    applyTransformations builtinTransformers fl (VString s) tagged = (VString s, None).

Lemma email_alphabet_tidy (c : ascii) :
  inClass (alphabet emailPattern) c = true → tidy c.
Proof. unfold tidy. ASCII.by_cases_on_byte c. Qed.

Lemma email_respects_lower : respects Strings.lowerByte emailPattern.
Proof. cbn. split_and!; intros c; ASCII.by_cases_on_byte c. Qed.

Lemma email_respects_upper : respects Strings.upperByte emailPattern.
Proof. cbn. split_and!; intros c; ASCII.by_cases_on_byte c. Qed.

Lemma ipv4_alphabet_plain (c : ascii) :
  inClass (alphabet ipv4Pattern) c = true → tidy c ∧ caseless c.
Proof. unfold tidy, caseless. ASCII.by_cases_on_byte c. Qed.

Lemma iso8601_alphabet_plain (c : ascii) :
  inClass (alphabet iso8601Pattern) c = true → tidy c ∧ caseless c.
Proof. unfold tidy, caseless. ASCII.by_cases_on_byte c. Qed.

Lemma time_alphabet_plain (c : ascii) :
  inClass (alphabet timePattern) c = true → tidy c ∧ caseless c.
Proof. unfold tidy, caseless. ASCII.by_cases_on_byte c. Qed.

(** X21: the built-in transformers never spoil a value of a fixed format.
    Whatever the transform tag of the field names, a string that passes
    [email] still passes it after [applyTransformations] (only the case of
    its letters can have changed), and a string that passes [ipv4],
    [iso_date] or [time] is left as it is. *)
Theorem builtins_keep_fixed_formats :
  keptValid emailRule ∧ leftAlone ipv4Rule ∧ leftAlone isoDateRule ∧ leftAlone timeRule.
Proof.
  assert (∀ r s, (if negb (MatchString r s) then ["x"] else []) = [] → MatchString r s = true)
    as Hpass by (intros r s; by destruct (MatchString r s)).
  split_and!.
  - intros fl tagged field s Hs. exists (ownString fl tagged s).
    split; [apply applyTransformations_builtin_string|].
    assert (MatchString emailPattern s = true) as Hm.
    { unfold emailRule in Hs. by destruct (MatchString emailPattern s). }
    assert (MatchString emailPattern (ownString fl tagged s) = true) as Hm'.
    { apply (ownString_invariant (λ s, MatchString emailPattern s = true)); [|done].
      intros b s0. apply applyBuiltin_keeps_match;
        [apply email_alphabet_tidy|apply email_respects_lower|apply email_respects_upper]. }
    unfold emailRule. by rewrite Hm'.
  - intros fl tagged field s Hs. rewrite applyTransformations_builtin_string. do 2 f_equal.
    assert (MatchString ipv4Pattern s = true) as Hm.
    { unfold ipv4Rule in Hs. by destruct (MatchString ipv4Pattern s). }
    apply (ownString_invariant (λ s', s' = s)); [|done].
    intros b s0 ->. by apply (applyBuiltin_leaves_match ipv4Pattern), Hm;
      apply ipv4_alphabet_plain.
  - intros fl tagged field s Hs. rewrite applyTransformations_builtin_string. do 2 f_equal.
    assert (MatchString iso8601Pattern s = true) as Hm.
    { unfold isoDateRule in Hs. by destruct (MatchString iso8601Pattern s). }
    apply (ownString_invariant (λ s', s' = s)); [|done].
    intros b s0 ->. by apply (applyBuiltin_leaves_match iso8601Pattern), Hm;
      apply iso8601_alphabet_plain.
  - intros fl tagged field s Hs. rewrite applyTransformations_builtin_string. do 2 f_equal.
    assert (MatchString timePattern s = true) as Hm.
    { unfold timeRule in Hs. by destruct (MatchString timePattern s). }
    apply (ownString_invariant (λ s', s' = s)); [|done].
    intros b s0 ->. by apply (applyBuiltin_leaves_match timePattern), Hm;
      apply time_alphabet_plain.
Qed.

End KeepValid.

(** ** The built-in transformers and the size rules *)

Section NeverLonger.
Context `{Strings.Unicode}.

Lemma dropSpaces_length (l : list ascii) : (length (ASCII.dropSpaces l) ≤ length l)%nat.
Proof.
  destruct (ASCII.dropSpaces_suffix l) as [sp Hsp]. rewrite Hsp at 2.
  rewrite length_app. lia.
Qed.

Lemma applyBuiltin_length (b : Builtin) (s : string) :
  Strings.isASCII s = true → (String.length (applyBuiltin b s) ≤ String.length s)%nat.
Proof.
  intros Hs. rewrite applyBuiltin_bytes by done.
  rewrite <- !bytes_length, ASCII.bytes_str. destruct b.
  - unfold ASCII.trimBytes. rewrite length_reverse.
    etrans; [apply dropSpaces_length|]. rewrite length_reverse. apply dropSpaces_length.
  - unfold ASCII.removeBytes.
    repeat (etrans; [apply length_filter|]). done.
  - by rewrite length_fmap.
  - by rewrite length_fmap.
Qed.

(** X22: on an ASCII string the built-in transformers never add a byte:
    what [applyTransformations] leaves is no longer than what it found,
    whatever the transform tag names, so a string that passes [max] before
    [Transform] passes it afterwards.  (It may come to fail [min].) *)
Theorem builtins_never_lengthen (fl : flag) (tagged : StructField) (s : string) :
  Strings.isASCII s = true →
  ∃ s', applyTransformations builtinTransformers fl (VString s) tagged = (VString s', None)
        ∧ (String.length s' ≤ String.length s)%nat
        ∧ ∀ field, maxRule (VString s) field = [] → maxRule (VString s') field = [].
Proof.
  intros Hs. exists (ownString fl tagged s).
  split; [apply applyTransformations_builtin_string|].
  assert (Strings.isASCII (ownString fl tagged s) = true
          ∧ (String.length (ownString fl tagged s) ≤ String.length s)%nat) as [_ Hlen].
  { apply (ownString_invariant
             (λ s', Strings.isASCII s' = true ∧ (String.length s' ≤ String.length s)%nat));
      [|done].
    intros b s0 [Ha Hl]. split; [by apply applyBuiltin_ascii|].
    etrans; [by apply applyBuiltin_length|done]. }
  split; [done|]. intros field. unfold maxRule.
  destruct (sizeParam "max=" _) as [valStr|maxLength]; [done|].
  destruct (Z.ltb_spec maxLength (Z.of_nat (String.length s))); [done|]. intros _.
  destruct (Z.ltb_spec maxLength (Z.of_nat (String.length (ownString fl tagged s))));
    [lia|done].
Qed.

End NeverLonger.

Lemma builtins_never_lengthen_witness :
  ∃ s', applyTransformations (H:=asciiOnly) (builtinTransformers (H:=asciiOnly))
          (Elem_flag ValueOf_flag) (VString " ab ") (exported "Name" [("transform", "trim")])
        = (VString s', None)
        ∧ (String.length s' ≤ 4)%nat.
Proof.
  destruct (builtins_never_lengthen (H:=asciiOnly) (Elem_flag ValueOf_flag)
              (exported "Name" [("transform", "trim")]) " ab " eq_refl)
    as (s' & Hrun & Hlen & _).
  exists s'. split; [exact Hrun|exact Hlen].
Defined.

(** ** [alphanum] and [alpha] *)

Lemma decode_ascii (c : ascii) (rest : list ascii) :
  Runes.byteVal c < 128 → Runes.decode (c :: rest) = (Runes.byteVal c, 1%nat).
Proof. intros Hc. unfold Runes.decode. by destruct (Z.ltb_spec (Runes.byteVal c) 128); [|lia]. Qed.

Lemma within_spec (lo hi b : Z) : Runes.within lo hi b = true ↔ lo ≤ b ≤ hi.
Proof. unfold Runes.within. by rewrite andb_true_iff, !Z.leb_le. Qed.

(** The bytes of a code point after its first are not ASCII. *)
Lemma decode_continuation (c : ascii) (rest : list ascii) (r : Z) (width : nat) :
  Runes.decode (c :: rest) = (r, width) →
  (1 ≤ width)%nat ∧ Forall (λ c', 128 ≤ Runes.byteVal c') (take (pred width) rest).
Proof.
  unfold Runes.decode.
  destruct (Runes.byteVal c <? 128); [intros [= <- <-]; by split|].
  destruct ((Runes.byteVal c <? 194) || (244 <? Runes.byteVal c));
    [intros [= <- <-]; by split|].
  set (sz := if Runes.byteVal c <? 224 then 2 else if Runes.byteVal c <? 240 then 3 else 4).
  assert (∃ lo hi, 128 ≤ lo ∧
            (if Runes.byteVal c =? 224 then (160, 191)
             else if Runes.byteVal c =? 237 then (128, 159)
             else if Runes.byteVal c =? 240 then (144, 191)
             else if Runes.byteVal c =? 244 then (128, 143)
             else (128, 191)) = (lo, hi)) as (lo & hi & Hlo & ->).
  { repeat case_match; eexists _, _; (split; [|reflexivity]); lia. }
  destruct rest as [|c1 rest1]; [intros [= <- <-]; by split|].
  destruct (_ || negb (Runes.within lo hi (Runes.byteVal c1))) eqn:H1;
    [intros [= <- <-]; by split|].
  apply orb_false_iff in H1 as [_ H1]. apply negb_false_iff, within_spec in H1.
  destruct (sz <=? 2).
  { intros [= <- <-]. split; [lia|]. cbn. repeat constructor. lia. }
  destruct rest1 as [|c2 rest2]; [intros [= <- <-]; by split|].
  destruct (negb (Runes.within 128 191 (Runes.byteVal c2))) eqn:H2;
    [intros [= <- <-]; by split|].
  apply negb_false_iff, within_spec in H2.
  destruct (sz <=? 3).
  { intros [= <- <-]. split; [lia|]. cbn. repeat constructor; lia. }
  destruct rest2 as [|c3 rest3]; [intros [= <- <-]; by split|].
  destruct (negb (Runes.within 128 191 (Runes.byteVal c3))) eqn:H3;
    [intros [= <- <-]; by split|].
  apply negb_false_iff, within_spec in H3.
  intros [= <- <-]. split; [lia|]. cbn. repeat constructor; lia.
Qed.

(** The loop over a string visits every ASCII byte of it as a code point. *)
Lemma range_visits_ascii (c : ascii) (l : list ascii) :
  ∀ skip,
    Forall (λ c', 128 ≤ Runes.byteVal c') (take skip l) →
    c ∈ l → Runes.byteVal c < 128 → Runes.byteVal c ∈ Runes.range skip l.
Proof.
  induction l as [|c0 l IH]; intros skip Hskip Hin Hc; [by apply elem_of_nil in Hin|].
  destruct skip as [|skip]; cbn [Runes.range].
  - destruct (Runes.decode (c0 :: l)) as [r width] eqn:Hd.
    destruct (decode_continuation _ _ _ _ Hd) as [Hw Hcont].
    apply elem_of_cons in Hin as [->|Hin].
    + rewrite decode_ascii in Hd by done. injection Hd as <- <-. left.
    + right. by apply IH.
  - cbn in Hskip. apply Forall_cons in Hskip as [Hc0 Hskip].
    apply elem_of_cons in Hin as [->|Hin]; [lia|]. by apply IH.
Qed.

(** On ASCII bytes the loop visits the bytes. *)
Lemma range_ascii (l : list ascii) :
  ASCII.allASCII l → Runes.range 0 l = Runes.byteVal <$> l.
Proof.
  induction 1 as [|c l Hc _ IH]; [done|]. cbn [Runes.range].
  assert (Runes.byteVal c < 128) as Hlt.
  { unfold Strings.nonASCII in Hc. apply N.leb_gt in Hc. unfold Runes.byteVal. lia. }
  rewrite decode_ascii by done. cbn [pred]. by rewrite IH.
Qed.

Section LetterRuleFacts.
Context `{Runes.Tables}.

Lemma IsLetter_ascii (c : ascii) :
  Runes.byteVal c < 128 → Runes.IsLetter (Runes.byteVal c) = true ↔ isLetter c.
Proof.
  intros Hc. unfold Runes.IsLetter, isLetter, Runes.byteVal in *.
  destruct (Z.ltb_spec (Z.of_N (N_of_ascii c)) 128); [|lia].
  rewrite orb_true_iff, !within_spec. lia.
Qed.

Lemma IsNumber_ascii (c : ascii) :
  Runes.byteVal c < 128 → Runes.IsNumber (Runes.byteVal c) = true ↔ isDigit c.
Proof.
  intros Hc. rewrite digit_range. unfold Runes.IsNumber, Runes.byteVal in *.
  destruct (Z.ltb_spec (Z.of_N (N_of_ascii c)) 128); [|lia].
  rewrite within_spec. lia.
Qed.

Lemma alphanumRule_spec (s : string) (field : StructField) :
  alphanumRule (VString s) field = []
  ↔ Forall (λ char, Runes.IsLetter char = true ∨ Runes.IsNumber char = true ∨ char = 95)
      (Runes.range 0 (Strings.bytes s)).
Proof.
  unfold alphanumRule.
  destruct (existsb _ _) eqn:He.
  - split; [done|]. intros Hall. apply existsb_exists in He as (char & Hin & Hchar).
    apply list_elem_of_In in Hin. rewrite Forall_forall in Hall.
    specialize (Hall _ Hin). rewrite !andb_true_iff, !negb_true_iff, Z.eqb_neq in Hchar.
    destruct Hchar as [[??] ?]. destruct Hall as [?|[?|?]]; congruence.
  - split; [intros _|done]. apply Forall_forall. intros char Hin.
    apply list_elem_of_In in Hin.
    assert (negb (Runes.IsLetter char) && negb (Runes.IsNumber char) && negb (char =? 95)
            = false) as Hchar.
    { destruct (_ && _) eqn:Hb; [|done]. rewrite <- He. symmetry. apply existsb_exists.
      by exists char. }
    destruct (Runes.IsLetter char); [by left|]. destruct (Runes.IsNumber char); [auto|].
    destruct (Z.eqb_spec char 95); [auto|done].
Qed.

Lemma alphaRule_spec (s : string) (field : StructField) :
  alphaRule (VString s) field = []
  ↔ Forall (λ char, Runes.IsLetter char = true) (Runes.range 0 (Strings.bytes s)).
Proof.
  unfold alphaRule.
  destruct (existsb _ _) eqn:He.
  - split; [done|]. intros Hall. apply existsb_exists in He as (char & Hin & Hchar).
    apply list_elem_of_In in Hin. rewrite Forall_forall in Hall.
    specialize (Hall _ Hin). rewrite negb_true_iff in Hchar. congruence.
  - split; [intros _|done]. apply Forall_forall. intros char Hin.
    apply list_elem_of_In in Hin.
    destruct (Runes.IsLetter char) eqn:Hl; [done|]. rewrite <- He.
    apply existsb_exists. exists char. by rewrite Hl.
Qed.

(** X23: a string that passes [alpha] passes [alphanum], and one that
    passes [alphanum] passes [no_whitespace], so that the weaker rule adds
    nothing beside the stronger one in a tag.  On an ASCII string [alpha]
    passes exactly when every byte is a letter of the alphabet, and
    [alphanum] exactly when every byte is such a letter, a decimal digit or
    an underscore. *)
Theorem letter_rules_nest (field : StructField) (s : string) :
  (alphaRule (VString s) field = [] → alphanumRule (VString s) field = [])
  ∧ (alphanumRule (VString s) field = [] → noWhitespaceRule (VString s) field = [])
  ∧ (Strings.isASCII s = true →
     (alphaRule (VString s) field = [] ↔ Forall isLetter (Strings.bytes s))
     ∧ (alphanumRule (VString s) field = []
        ↔ Forall (λ c, isLetter c ∨ isDigit c ∨ c = "_"%char) (Strings.bytes s))).
Proof.
  split_and!.
  - rewrite alphaRule_spec, alphanumRule_spec. intros Hall.
    eapply Forall_impl; [exact Hall|]. by left.
  - rewrite alphanumRule_spec. intros Hall.
    assert (Strings.ContainsAny s whitespaceChars = false) as Hno;
      [|unfold noWhitespaceRule; by rewrite Hno].
    apply ContainsAny_whitespace, Forall_forall. intros c Hin.
    destruct (Z.ltb_spec (Runes.byteVal c) 128) as [Hc|Hc].
    + pose proof (range_visits_ascii c (Strings.bytes s) 0 ltac:(constructor) Hin Hc) as Hr.
      rewrite Forall_forall in Hall. specialize (Hall _ Hr).
      unfold Runes.IsLetter, Runes.IsNumber, Runes.byteVal in Hall.
      unfold ASCII.kept. split_and!; intros ->; cbn in Hall; by destruct Hall as [?|[?|?]].
    + unfold Runes.byteVal in Hc. unfold ASCII.kept. split_and!; intros ->; cbn in Hc; lia.
  - intros Hs. apply ASCII.isASCII_allASCII in Hs.
    assert (Forall (λ c, Runes.byteVal c < 128) (Strings.bytes s)) as Hlt.
    { eapply Forall_impl; [exact Hs|]. intros c Hc. unfold Strings.nonASCII in Hc.
      apply N.leb_gt in Hc. unfold Runes.byteVal. lia. }
    rewrite alphaRule_spec, alphanumRule_spec, range_ascii, !Forall_fmap by done.
    split.
    + split; intros Hall; apply Forall_forall; intros c Hin;
        rewrite Forall_forall in Hall, Hlt; specialize (Hall _ Hin); specialize (Hlt _ Hin);
        cbn in *; by apply IsLetter_ascii.
    + assert (∀ c, Runes.byteVal c = 95 ↔ c = "_"%char) as Hunder.
      { intros c. split; [|by intros ->]. intros Hc.
        rewrite <- (ascii_N_embedding c). unfold Runes.byteVal in Hc.
        by replace (N_of_ascii c) with 95%N by lia. }
      split; intros Hall; apply Forall_forall; intros c Hin;
        rewrite Forall_forall in Hall, Hlt; specialize (Hall _ Hin); specialize (Hlt _ Hin);
        cbn in *; rewrite ?IsLetter_ascii, ?IsNumber_ascii, ?Hunder in * by done; done.
Qed.

End LetterRuleFacts.

Lemma letter_rules_nest_witness :
  alphanumRule (H:={| Runes.Letter := λ _, false; Runes.Number := λ _, false |})
    (VString "north") (exported "Region" []) = [].
Proof.
  destruct (letter_rules_nest (H:={| Runes.Letter := λ _, false; Runes.Number := λ _, false |})
              (exported "Region" []) "north") as [Himp _].
  apply Himp. reflexivity.
Defined.

(** ** What the built-ins leave alone *)

(** The engine does not recurse into the value: it is no struct, no
    pointer to a struct and no slice with a struct among its elements. *)
Definition noStructInside (v : Value) : Prop :=
  match v with
  | VStruct _ | VPointer (Some (VStruct _)) => False
  | VSlice es => Forall (λ e, kindOf e ≠ Struct) es
  | _ => True
  end.

(** X24: the built-in transformers act on a field only when the field
    itself is a string.  A field of another kind that holds no struct comes
    back from [Transform] as it was, whatever its transform tag: a number,
    a boolean, a nil pointer, a pointer to a string, and also a slice or an
    array of strings, whose elements are not trimmed or changed in case. *)
Theorem builtins_change_only_string_fields `{Strings.Unicode} (dto : option Value)
    (fs : list (StructField * Value)) (i : nat) (field : StructField) (v : Value) :
  structShaped dto = Some fs → fs !! i = Some (field, v) →
  kindOf v ≠ String_ → noStructInside v →
  ∃ fs', (Transform builtinTransformers dto).1 = withFields dto fs'
         ∧ fs' !! i = Some (field, v).
Proof.
  intros Hs Hi Hk Hv. exists (transformFields builtinTransformers (topFlag dto) fs ∅).1.
  split; [by apply Transform_struct_val|].
  rewrite (transformFields_lookup _ _ _ _ _ _ Hi). do 2 f_equal.
  unfold transformField.
  destruct v as [b|k n|k u|k f|s|[[]|]|fs0|es|es|k]; try done;
    try (by rewrite transformOwn_builtin_other).
  rewrite transformElems_no_struct by done. by rewrite transformOwn_builtin_other.
Qed.

Lemma builtins_change_only_string_fields_witness :
  ∃ fs', (Transform (H:=asciiOnly) (builtinTransformers (H:=asciiOnly))
            (Some (VPointer (Some (VStruct
               [(exported "Tags" [("transform", "trim uppercase")],
                 VSlice [VString " a "; VString "b"])]))))).1
         = Some (VPointer (Some (VStruct fs')))
         ∧ fs' !! 0%nat
           = Some (exported "Tags" [("transform", "trim uppercase")],
                   VSlice [VString " a "; VString "b"]).
Proof.
  apply (builtins_change_only_string_fields (H:=asciiOnly)
           (Some (VPointer (Some (VStruct
              [(exported "Tags" [("transform", "trim uppercase")],
                VSlice [VString " a "; VString "b"])]))))
           _ 0%nat _ _ eq_refl eq_refl).
  - discriminate.
  - cbn. repeat constructor; discriminate.
Defined.

(** ** No entry of a report is empty *)

(** Every entry holds a message. *)
Definition allHold (g : gmap string (list string)) : Prop :=
  ∀ name msgs, g !! name = Some msgs → msgs ≠ [].

Lemma allHold_empty : allHold ∅.
Proof. intros name msgs Hg. by rewrite lookup_empty in Hg. Qed.

Lemma allHold_mergeNested (prefix : string) (fields g : gmap string (list string)) :
  allHold fields → allHold g → allHold (mergeNested prefix fields g).
Proof.
  intros Hf Hg name msgs. rewrite mergeNested_union.
  intros [Hk|[_ Hn]]%lookup_union_Some_raw.
  - apply (lookup_kmap_Some (String.app prefix)) in Hk as (k & _ & Hk). by eapply Hf.
  - by eapply Hg.
Qed.

Lemma allHold_appendViolation (name msg : string) (g : gmap string (list string)) :
  allHold g → allHold (appendViolation name msg g).
Proof.
  intros Hg name' msgs. unfold appendViolation.
  destruct (decide (name = name')) as [->|Hne].
  - rewrite lookup_insert_eq. intros [= <-]. by destruct (default [] (g !! name')).
  - rewrite lookup_insert_ne by done. apply Hg.
Qed.

Section NoEmptyEntry.
Context `{Strings.Unicode}.
Variable transformers : gmap string TransformFunc.
Variable rules : gmap string ValidationRule.

Lemma allHold_transformOwn (ffl : flag) (field : StructField) (fv : Value)
    (g : gmap string (list string)) :
  allHold g → allHold (transformOwn transformers ffl field fv g).2.
Proof.
  intros Hg. unfold transformOwn. destruct applyTransformations as [fv' [err|]]; [|done].
  by apply allHold_appendViolation.
Qed.

(** The error of [transformStruct], if any, has no empty entry. *)
Definition holds (v : Value) : Prop :=
  ∀ fl vErr, (transformStruct transformers fl v).2 = Some vErr → allHold (Fields vErr).

Lemma allHold_transformElems (ffl : flag) (field : StructField) (es : list Value) :
  Forall holds es →
  ∀ j g, allHold g → allHold (transformElems transformers ffl field es j g).2.
Proof.
  induction 1 as [|e es He _ IH]; intros j g Hg; [done|]. cbn.
  assert (allHold (transformElem transformers ffl field e j g).2) as Hg'.
  { unfold transformElem. destruct e; try done.
    specialize (He (Index_flag ffl)). destruct transformStruct as [e' [vErr|]]; [|done].
    apply allHold_mergeNested; [by apply He|done]. }
  destruct transformElem as [e' g']. specialize (IH (S j) g' Hg').
  by destruct transformElems.
Qed.

Lemma allHold_transformFields (fl : flag) (fs : list (StructField * Value)) :
  Forall (λ f, ∀ g, allHold g → allHold (transformField transformers fl f.1 f.2 g).2) fs →
  ∀ g, allHold g → allHold (transformFields transformers fl fs g).2.
Proof.
  induction 1 as [|[field fv] fs Hf _ IH]; intros g Hg; [done|]. cbn in *.
  specialize (Hf g Hg). destruct transformField as [fv' g'].
  specialize (IH g' Hf). by destruct transformFields.
Qed.

Lemma holds_deep (v : Value) :
  holds v
  ∧ match v with
    | VPointer (Some elem) => holds elem
    | VSlice es => Forall holds es
    | _ => True
    end.
Proof.
  induction v as [b|k i|k u|k f|s| |elem IH|fs IH|es IH|es IH|k] using Value_nested_ind;
    try done.
  - split; [done|]. apply IH.
  - split; [|done]. intros fl vErr. rewrite transformStruct_err.
    case_decide; [done|]. intros [= <-]. cbn. unfold transformViolations.
    apply allHold_transformFields; [|apply allHold_empty].
    eapply Forall_impl; [exact IH|]. intros [field fv] [Hfv Hin] g Hg. cbn in *.
    unfold transformField.
    destruct fv as [| | | | |[[]|]| |es| |]; try by apply allHold_transformOwn.
    + specialize (Hin (Elem_flag (Field_flag fl field))).
      destruct transformStruct as [e' [vErr|]]; [|by apply allHold_transformOwn].
      apply allHold_mergeNested; [by apply Hin|done].
    + specialize (Hfv (Field_flag fl field)).
      destruct transformStruct as [e' [vErr|]]; [|by apply allHold_transformOwn].
      apply allHold_mergeNested; [by apply Hfv|done].
    + pose proof (allHold_transformElems (Field_flag fl field) field es Hin 0%nat g Hg) as He.
      destruct transformElems as [es' g1]. by apply allHold_transformOwn.
  - split; [done|]. eapply Forall_impl; [exact IH|]. by intros e [He _].
Qed.

(** X25: no entry of an error of [Validate] or of [Transform] is an empty
    list: every key the error holds comes with at least one message, at
    every depth of nesting. *)
Theorem reports_hold_no_empty_list (dto : option Value) (vErr : Err) :
  (Validate rules dto).2 = Some vErr ∨ (Transform transformers dto).2 = Some vErr →
  ∀ name msgs, Fields vErr !! name = Some msgs → msgs ≠ [].
Proof.
  destruct (structShaped dto) as [fs|] eqn:Hs.
  - rewrite (Validate_struct _ _ fs Hs), (Transform_struct_err _ _ fs Hs).
    intros [Hv|Ht].
    + case_decide; [done|]. injection Hv as <-. cbn. intros name msgs.
      unfold validateViolations. rewrite validateFields_lookup, lookup_empty. cbn.
      case_decide; [done|]. by intros [= <-].
    + case_decide; [done|]. injection Ht as <-. cbn.
      destruct (holds_deep (VStruct fs)) as [Hh _].
      apply (Hh (topFlag dto)
               (NewErr "transformation failed"
                  (transformViolations transformers (topFlag dto) fs))).
      rewrite transformStruct_err. by rewrite decide_False.
  - intros Herr name msgs.
    assert (Fields vErr = ∅) as ->; [|by rewrite lookup_empty].
    destruct dto as [[| | | | |[[]|]| | | |]|]; try discriminate;
      destruct Herr as [[= <-]|[= <-]]; done.
Qed.

End NoEmptyEntry.

Lemma reports_hold_no_empty_list_witness :
  Fields (NewErr "validation failed" (<["A" := ["field is required"]]> ∅)) !! "A"
  = Some ["field is required"]
  ∧ ["field is required"] ≠ ([] : list string).
Proof.
  split; [reflexivity|].
  apply (reports_hold_no_empty_list (H:=asciiOnly) ∅ (addRequiredRule ∅)
           (Some (VStruct [(exported "A" [("validator", "required")], VString "")]))
           (NewErr "validation failed" (<["A" := ["field is required"]]> ∅)))
    with (name := "A"); [left|]; reflexivity.
Defined.

(** ** Registering a transformer *)

Section UnusedTransformer.
Context `{Strings.Unicode}.

(** No transform tag that the engine reads in [v] names [name]. *)
Fixpoint notNamed (name : string) (v : Value) : Prop :=
  match v with
  | VStruct fs =>
      (fix fields (fs : list (StructField * Value)) : Prop :=
         match fs with
         | [] => True
         | f :: rest =>
             (name ∉ Strings.Fields (Tag_Get f.1 "transform"))
             ∧ notNamed name f.2 ∧ fields rest
         end) fs
  | VPointer (Some elem) => notNamed name elem
  | VSlice es =>
      (fix elems (es : list Value) : Prop :=
         match es with
         | [] => True
         | e :: rest => notNamed name e ∧ elems rest
         end) es
  | _ => True
  end.

Lemma notNamed_struct (name : string) (fs : list (StructField * Value)) :
  notNamed name (VStruct fs)
  ↔ Forall (λ f, (name ∉ Strings.Fields (Tag_Get f.1 "transform")) ∧ notNamed name f.2) fs.
Proof.
  cbn [notNamed]. induction fs as [|f rest IH]; [by split; [constructor|]|].
  rewrite Forall_cons, <- IH. tauto.
Qed.

Lemma notNamed_slice (name : string) (es : list Value) :
  notNamed name (VSlice es) ↔ Forall (notNamed name) es.
Proof.
  cbn [notNamed]. induction es as [|e rest IH]; [by split; [constructor|]|].
  rewrite Forall_cons, <- IH. tauto.
Qed.

Variable transformers : gmap string TransformFunc.
Variable name : string.
Variable fn : TransformFunc.

Lemma runTransforms_unused (names : list string) :
  name ∉ names →
  ∀ v, runTransforms (AddTransformer name fn transformers) v names
       = runTransforms transformers v names.
Proof.
  induction names as [|t names IH]; intros Hn v; [done|].
  apply not_elem_of_cons in Hn as [Ht Hn]. cbn. unfold AddTransformer at 1.
  rewrite lookup_insert_ne by done.
  destruct (transformers !! t) as [f|]; [|by apply IH].
  destruct (f v) as [v' [err|]]; [done|by apply IH].
Qed.

Lemma transformOwn_unused (ffl : flag) (field : StructField) (fv : Value)
    (g : gmap string (list string)) :
  name ∉ Strings.Fields (Tag_Get field "transform") →
  transformOwn (AddTransformer name fn transformers) ffl field fv g
  = transformOwn transformers ffl field fv g.
Proof.
  intros Hn. unfold transformOwn, applyTransformations.
  destruct (negb (CanSet ffl)); [done|]. case_decide; [done|].
  rewrite runTransforms_unused; [done|]. by rewrite orderTransforms_perm.
Qed.

(** The new registration changes nothing for [v]. *)
Definition sameWith (v : Value) : Prop :=
  notNamed name v →
  ∀ fl, transformStruct (AddTransformer name fn transformers) fl v
        = transformStruct transformers fl v.

Lemma transformElems_unused (ffl : flag) (field : StructField) (es : list Value) :
  Forall sameWith es → Forall (notNamed name) es →
  ∀ j g, transformElems (AddTransformer name fn transformers) ffl field es j g
         = transformElems transformers ffl field es j g.
Proof.
  induction 1 as [|e es He _ IH]; intros Hn j g; [done|].
  apply Forall_cons in Hn as [Hne Hn]. cbn.
  assert (transformElem (AddTransformer name fn transformers) ffl field e j g
          = transformElem transformers ffl field e j g) as ->.
  { unfold transformElem. destruct e; try done. by rewrite (He Hne). }
  destruct transformElem as [e' g']. by rewrite IH.
Qed.

Lemma transformFields_unused (fl : flag) (fs : list (StructField * Value)) :
  Forall (λ f, ∀ g, transformField (AddTransformer name fn transformers) fl f.1 f.2 g
                    = transformField transformers fl f.1 f.2 g) fs →
  ∀ g, transformFields (AddTransformer name fn transformers) fl fs g
       = transformFields transformers fl fs g.
Proof.
  induction 1 as [|[field fv] fs Hf _ IH]; intros g; [done|]. cbn in *.
  rewrite Hf. destruct transformField as [fv' g']. by rewrite IH.
Qed.

Lemma sameWith_deep (v : Value) :
  sameWith v
  ∧ match v with
    | VPointer (Some elem) => sameWith elem
    | VSlice es => Forall sameWith es
    | _ => True
    end.
Proof.
  induction v as [b|k i|k u|k f|s| |elem IH|fs IH|es IH|es IH|k] using Value_nested_ind;
    try done.
  - split; [done|]. apply IH.
  - split; [|done]. intros Hn%notNamed_struct fl. rewrite !transformStruct_unfold.
    rewrite transformFields_unused; [done|].
    eapply Forall_impl; [apply Forall_and; split; [exact IH|exact Hn]|].
    intros [field fv] [[Hfv Hin] [Htag Hnamed]] g. cbn in *. unfold transformField.
    destruct fv as [| | | | |[[]|]| |es| |]; try by apply transformOwn_unused.
    + rewrite (Hin Hnamed). destruct transformStruct as [e' [vErr|]]; [done|].
      by apply transformOwn_unused.
    + rewrite (Hfv Hnamed). destruct transformStruct as [fv' [vErr|]]; [done|].
      by apply transformOwn_unused.
    + rewrite transformElems_unused by (done || by apply notNamed_slice).
      destruct transformElems as [es' g1]. by apply transformOwn_unused.
  - split; [done|]. eapply Forall_impl; [exact IH|]. by intros e [He _].
Qed.

End UnusedTransformer.

(** X26: registering a transformer under a name that no transform tag
    within the argument carries, at any depth the engine reaches, leaves
    the outcome of [Transform] as it was: the values and the error. *)
Theorem AddTransformer_unused_name `{Strings.Unicode}
    (transformers : gmap string TransformFunc) (name : string) (fn : TransformFunc)
    (dto : option Value) :
  (∀ v, dto = Some v → notNamed name v) →
  Transform (AddTransformer name fn transformers) dto = Transform transformers dto.
Proof.
  intros Hn. destruct dto as [v|]; [|done]. specialize (Hn v eq_refl).
  destruct v as [| | | | |[[]|]|fs| | |]; try done; unfold Transform.
  - destruct (sameWith_deep transformers name fn (VStruct fs)) as [Hsame _].
    by rewrite (Hsame Hn).
  - destruct (sameWith_deep transformers name fn (VStruct fs)) as [Hsame _].
    by rewrite (Hsame Hn).
Qed.

Lemma AddTransformer_unused_name_witness :
  Transform (H:=asciiOnly)
    (AddTransformer "slugify" (λ v, (v, Some "no")) (builtinTransformers (H:=asciiOnly)))
    (Some (VPointer (Some (VStruct [(exported "Title" [("transform", "trim")], VString " a ")]))))
  = Transform (H:=asciiOnly) (builtinTransformers (H:=asciiOnly))
      (Some (VPointer (Some (VStruct [(exported "Title" [("transform", "trim")], VString " a ")])))).
Proof.
  apply (AddTransformer_unused_name (H:=asciiOnly)).
  intros v [= <-]. cbn. split_and!; try done.
  vm_compute. intros Hin. inversion Hin as [|? ? ? Hin']; subst. inversion Hin'.
Defined.

Lemma builtins_keep_fixed_formats_witness :
  ∃ s', applyTransformations (H:=asciiOnly) (builtinTransformers (H:=asciiOnly))
          (Elem_flag ValueOf_flag) (VString "Jo@Ex.com")
          (exported "Email" [("transform", "lowercase trim")])
        = (VString s', None)
        ∧ emailRule (VString s') (exported "Email" []) = [].
Proof.
  destruct (builtins_keep_fixed_formats (H:=asciiOnly)) as [Hemail _].
  apply Hemail. reflexivity.
Defined.

(** ** A rule reads the tag, not its token *)

(** The two models of [strings.Split] agree on the first piece. *)
Lemma beforeByte_splitByte (sep : ascii) (s : string) :
  head (Strings.splitByte sep s) = Some (Strings.beforeByte sep s).
Proof.
  induction s as [|c s IH]; [done|]. cbn. case_decide; [done|].
  destruct (Strings.splitByte sep s) as [|piece pieces]; [done|].
  cbn in *. by injection IH as ->.
Qed.

Lemma ruleName_parameter (name value : string) :
  lacks "=" name → ruleName (name +:+ "=" +:+ value) = name.
Proof.
  unfold ruleName. induction name as [|c name IH]; intros Hn.
  - rewrite string_app_nil, string_app_cons. cbn. by rewrite decide_True.
  - destruct Hn as [Hc Hn]. rewrite string_app_cons. cbn. rewrite decide_False by done.
    by rewrite IH.
Qed.

(** X27: [Validate] hands a rule the field and its whole tag, not the
    token that named the rule, and [min] reads its bound from the first
    token that starts with [min=].  So when a tag carries [min=a] and then
    [min=b], the bound [b] is never used: a string shorter than [a] is
    reported twice against [a], and any other string passes, however [b]
    compares with its length. *)
Theorem repeated_min_reads_first_bound `{Strings.Unicode}
    (rules : gmap string ValidationRule) (field : StructField) (a b : Z) (s : string) :
  rules !! "min" = Some minRule →
  Strings.Fields (Tag_Get field "validator") = ["min=" +:+ pretty a; "min=" +:+ pretty b] →
  - 2 ^ 63 ≤ a < 2 ^ 63 →
  Validate rules (Some (VStruct [(field, VString s)]))
  = if Z.of_nat (String.length s) <? a
    then (false,
          Some (NewErr "validation failed"
                  {[Name field := ["length must be at least " +:+ pretty a;
                                   "length must be at least " +:+ pretty a]]}))
    else (true, None).
Proof.
  intros Hmin Htokens Ha.
  assert (minRule (VString s) field
          = if Z.of_nat (String.length s) <? a
            then ["length must be at least " +:+ pretty a] else []) as Hrule.
  { unfold minRule. rewrite Htokens.
    rewrite (sizeParam_first "min=" (pretty a)); [by rewrite Atoi_pretty|].
    exists [], ["min=" +:+ pretty b]. by split. }
  assert (∀ x, ruleName ("min=" +:+ x) = "min") as Hname.
  { intros x. by apply (ruleName_parameter "min" x). }
  unfold Validate. cbn [foldl]. unfold validateField.
  rewrite decide_False by (intros Ht; by rewrite Ht, Fields_empty in Htokens).
  rewrite Htokens. cbn [foldl]. unfold validateRule. rewrite !Hname, Hmin, Hrule.
  destruct (Z.of_nat (String.length s) <? a); [|done]. cbn -[Nat.ltb].
  change (0 <? 1)%nat with true. cbv iota.
  rewrite lookup_empty, lookup_insert_eq, insert_insert_eq. cbn -[Nat.ltb].
  rewrite insert_empty, map_size_singleton. done.
Qed.

Lemma repeated_min_reads_first_bound_witness :
  Validate (H:=asciiOnly) (addSizeRules (H:=asciiOnly) ∅)
    (Some (VStruct [(exported "Name" [("validator", "min=3 min=1")], VString "ab")]))
  = (false,
     Some (NewErr "validation failed"
             {["Name" := ["length must be at least 3"; "length must be at least 3"]]})).
Proof.
  apply (repeated_min_reads_first_bound (H:=asciiOnly) (addSizeRules (H:=asciiOnly) ∅)
           (exported "Name" [("validator", "min=3 min=1")]) 3 1 "ab");
    [reflexivity|reflexivity|lia].
Defined.
